(** * jina-web-tools: search parser, channel lister, transcript extractor

    A shallow embedding of the three scripts under
    [web-search-tools/skills/jina-web-tools/scripts] and the properties their
    specification states about them.

    The model:
    - [PyStr]: Python [str] values as lists of code points, with the string
      methods the scripts call, and dict keys that may be absent or [None].
    - [Channel]: [youtube-channel.py], the listing of a channel.
    - [Transcript]: [youtube-transcript.py], from the URL to the choice of
      the caption track.
    - [Search]: [jina-google-search.py].
    - [ChannelUrl]: [youtube-channel.py], the URL of the channel.
    - [TranscriptText]: [youtube-transcript.py], the parsers of the caption
      payload.
    - [Examples]: more example data.
    - [SearchSpec]: the description scan of [jina-google-search.py] in the
      words of the specification, to be compared with [Search].

    The properties the specification states: [PyStrFacts], [ChannelFacts],
    [TranscriptFacts], [SearchFacts], [SearchSpecFacts]. Further properties
    of the code: [StripFacts], [ChannelUrlFacts], [ChannelListingFacts],
    [TranscriptCaptionFacts], [TranscriptTextFacts], [SearchResultFacts].

    Network calls ([requests.get], [yt_dlp.YoutubeDL.extract_info]) are not
    modelled: what they return is an argument of the functions below. Line
    numbers refer to the script of the module at hand. *)

From Stdlib Require Import List ZArith NArith QArith Bool Lia Arith.
From Stdlib Require String Ascii DecimalString.
Import String.StringSyntax.
From Stdlib Require Import Permutation Sorted.
Import ListNotations.
Close Scope Q_scope.
Delimit Scope string_scope with string.

(* ===================================================================== *)
(** * Python strings *)
(* ===================================================================== *)

Module PyStr.

(** A [str] is a sequence of Unicode code points. *)
Definition char := N.
Definition str := list char.

(** An ASCII literal of the source, as a [str]. *)
Definition lit (s : String.string) : str :=
  map Ascii.N_of_ascii (String.list_ascii_of_string s).
Arguments lit s%_string.

Definition str_eq_dec : forall a b : str, {a = b} + {a <> b} :=
  list_eq_dec N.eq_dec.

(** [not s] on a string: the empty string is falsy. *)
Definition falsy (s : str) : bool :=
  match s with [] => true | _ :: _ => false end.

(** [s.startswith(p)] *)
Fixpoint startswith (p s : str) : bool :=
  match p, s with
  | [], _ => true
  | _ :: _, [] => false
  | a :: p', b :: s' => (a =? b)%N && startswith p' s'
  end.

(** [p in s]: [p] occurs in [s] as a substring. *)
Fixpoint contains (p s : str) : bool :=
  startswith p s
  || match s with
     | [] => false
     | _ :: s' => contains p s'
     end.

Definition in_range (lo hi c : N) : bool := ((lo <=? c) && (c <=? hi))%N.

(** [str.isspace] on one code point; the regex class [\s] is the same set. *)
Definition is_space (c : char) : bool :=
  in_range 9 13 c || in_range 28 32 c || (c =? 133)%N || (c =? 160)%N
  || (c =? 5760)%N || in_range 8192 8202 c || (c =? 8232)%N || (c =? 8233)%N
  || (c =? 8239)%N || (c =? 8287)%N || (c =? 12288)%N.

Fixpoint lstrip (s : str) : str :=
  match s with
  | [] => []
  | c :: s' => if is_space c then lstrip s' else s
  end.

Definition rstrip (s : str) : str := rev (lstrip (rev s)).

(** [s.strip()] *)
Definition strip (s : str) : str := rstrip (lstrip s).

(** [s.split(sep)] for a one-character separator. *)
Fixpoint split (sep : char) (s : str) : list str :=
  match s with
  | [] => [[]]
  | c :: s' =>
      if (c =? sep)%N then [] :: split sep s'
      else match split sep s' with
           | l :: ls => (c :: l) :: ls
           | [] => [[c]]
           end
  end.

(** The longest prefix of [s] whose characters satisfy [p], and the rest. *)
Fixpoint span (p : char -> bool) (s : str) : str * str :=
  match s with
  | [] => ([], [])
  | c :: s' =>
      if p c then let (a, b) := span p s' in (c :: a, b)
      else ([], s)
  end.

(** The rest of [s] after the prefix [p], when [s] starts with [p]. *)
Definition strip_prefix (p s : str) : option str :=
  if startswith p s then Some (skipn (length p) s) else None.

(** A key of a dict the extraction library returns: absent, present with
    the value [None], or present with a value. *)
Inductive field (A : Type) : Type :=
| Missing
| Null
| Val (a : A).
Arguments Missing {A}.
Arguments Null {A}.
Arguments Val {A} a.

(** [d.get(key)]: [None] when the key is absent. *)
Definition get {A : Type} (f : field A) : option A :=
  match f with
  | Val a => Some a
  | Missing | Null => None
  end.

(** [d.get(key, default)]: the default replaces an absent key only. *)
Definition get_default {A : Type} (f : field A) (d : A) : option A :=
  match f with
  | Missing => Some d
  | Null => None
  | Val a => Some a
  end.

(** Decimal rendering of an integer, as [str(n)] and [f"{n}"] give it. *)
Definition decimal (z : Z) : str :=
  lit (DecimalString.NilZero.string_of_int (Z.to_int z)).

(** [f"{n:02d}"]: decimal, padded with a zero on the left to width two. *)
Definition format_02d (z : Z) : str :=
  let s := decimal z in
  if length s <? 2 then lit "0" ++ s else s.

(** The parts of the Unicode database the scripts reach through [str.lower]
    and the regex class [\d]. The tables belong to the Python runtime, not to
    the repository; the scripts are verified for every table that satisfies
    the two laws below, which Python's does ([lower] never empties a string). *)
Class Unicode := {
  lower : str -> str;
  is_decimal : char -> bool;
  lower_nil : lower [] = [];
  lower_inv_nil : forall s, lower s = [] -> s = []
}.

(** The Basic Latin instance: case mapping and digits of ASCII, every other
    code point left as it is. It agrees with Python on ASCII text. *)
Definition ascii_lower (c : char) : char :=
  if in_range 65 90 c then (c + 32)%N else c.

Definition ascii_digit (c : char) : bool := in_range 48 57 c.

#[export] Instance basic_latin : Unicode := {|
  lower := map ascii_lower;
  is_decimal := ascii_digit;
  lower_nil := eq_refl;
  lower_inv_nil := fun s =>
    match s as s0 return map ascii_lower s0 = [] -> s0 = [] with
    | [] => fun _ => eq_refl
    | c :: s' => fun H => False_ind _ (nil_cons (eq_sym H))
    end
|}.

End PyStr.

(* ===================================================================== *)
(** * youtube-channel.py *)
(* ===================================================================== *)

Module Channel.
Import PyStr.

(** A duration is a Python number: an [int], or a finite [float]. Both are
    rationals, and the script only compares, tests and truncates them. *)
Definition number := Q.

(** [not x] on a number. *)
Definition is_zero (x : number) : bool := Qeq_bool x 0%Q.

(** [int(x)]: the integer part, rounding toward zero. *)
Definition int (x : number) : Z := Z.quot (Qnum x) (Z.pos (Qden x)).

(** [x or 0] on an optional number: [None] and zero give the integer 0. *)
Definition number_or_zero (x : option number) : number :=
  match x with
  | Some q => if is_zero q then 0%Q else q
  | None => 0%Q
  end.

(** [x or 0] on an optional count. *)
Definition or_zero (x : option Z) : Z :=
  match x with
  | Some z => z
  | None => 0%Z
  end.

(** One element of [info['entries']], with the keys the script reads. View
    counts are integers. *)
Record entry := {
  e_id : field str;
  e_title : field str;
  e_duration : field number;
  e_view_count : field Z;
  e_upload_date : field str;
  e_description : field str
}.

(** What [extract_info] returned: the channel record, a dict that is not
    empty (it may have other keys than the ones the script reads).
    [i_entries] has the elements of [info['entries']] in the order in which
    they are delivered; [i_lazy] says that the value is a generator and not
    a list, which the test of line 95 tells apart: a generator is truthy
    also when it yields nothing. *)
Record info := {
  i_channel : field str;
  i_uploader : field str;
  i_channel_id : field str;
  i_uploader_id : field str;
  i_entries : field (list (option entry));
  i_lazy : bool
}.

(** How the call to [extract_info] ended. [Returned None] is a falsy
    value: [None], or a dict without keys. *)
Inductive fetched :=
| RaisedDownloadError (msg : str)
| RaisedOther (msg : str)
| Returned (i : option info).

(** The video dict built at lines 113-130. [None] in [id] and [title] is
    Python's [None]; [upload_date] and [description_snippet] are [None] when
    the key is not set. *)
Record video := {
  index : nat;
  id : option str;
  title : option str;
  url : str;
  duration : number;
  duration_human : str;
  views : Z;
  upload_date : option str;
  description_snippet : option str
}.

(** The dict returned on success; [channel_url] (the request URL with its
    listing suffix removed) is left out. *)
Record listing := {
  channel : option str;
  channel_id : option str;
  content_type : str;
  total_count : nat;
  returned_count : nat;
  sort : str;
  search : option str;
  videos : list video
}.

(** The function returns either [{"error": msg}] or a listing. *)
Inductive response :=
| Error (msg : str)
| Listing (l : listing).

(** [_format_duration] *)
Definition _format_duration (seconds : option number) : str :=
  match seconds with
  | None => lit "0:00"
  | Some x =>
      if is_zero x then lit "0:00"
      else
        let seconds := int x in
        let hours := (seconds / 3600)%Z in
        let minutes := ((seconds mod 3600) / 60)%Z in
        let secs := (seconds mod 60)%Z in
        if (hours >? 0)%Z
        then decimal hours ++ lit ":" ++ format_02d minutes ++ lit ":" ++ format_02d secs
        else decimal minutes ++ lit ":" ++ format_02d secs
  end.

(** [str(x)] inside an f-string, for a value that may be [None]. *)
Definition fmt (x : option str) : str :=
  match x with
  | Some s => s
  | None => lit "None"
  end.

(** [desc[:200] + "..." if len(desc) > 200 else desc] *)
Definition snippet (desc : str) : str :=
  if 200 <? length desc then firstn 200 desc ++ lit "..." else desc.

(** The body of the loop over [enumerate(entries)], for an entry that is
    not [None]; [i] is the position [enumerate] gives. *)
Definition make_video (with_dates : bool) (i : nat) (e : entry) : video :=
  {| index := i + 1;
     id := get_default (e_id e) (lit "");
     title := get_default (e_title e) (lit "Unknown");
     url := lit "https://youtube.com/watch?v=" ++ fmt (get_default (e_id e) (lit ""));
     duration := number_or_zero (get (e_duration e));
     duration_human := _format_duration (get (e_duration e));
     views := or_zero (get (e_view_count e));
     upload_date :=
       match get (e_upload_date e) with
       | Some d => if with_dates && negb (falsy d) then Some d else None
       | None => None
       end;
     description_snippet :=
       match get_default (e_description e) (lit "") with
       | Some desc => if falsy desc then None else Some (snippet desc)
       | None => None
       end |}.

(** [for i, entry in enumerate(entries)], from position [i] on: [None]
    entries are skipped and still counted. *)
Fixpoint collect (with_dates : bool) (i : nat) (entries : list (option entry))
  : list video :=
  match entries with
  | [] => []
  | None :: rest => collect with_dates (S i) rest
  | Some e :: rest => make_video with_dates i e :: collect with_dates (S i) rest
  end.

Section WithUnicode.
Context {U : Unicode}.

(** The condition of the list comprehension at lines 137-141; [None] when
    it raises ([v['title']] is [None] and has no [lower]). *)
Definition matches (search_lower : str) (v : video) : option bool :=
  match title v with
  | None => None
  | Some t =>
      Some (contains search_lower (lower t)
            || contains search_lower
                 (lower (match description_snippet v with
                         | Some d => d
                         | None => lit ""
                         end)))
  end.

(** The list comprehension itself: [None] when the condition raises. *)
Fixpoint filter_videos (search_lower : str) (vs : list video)
  : option (list video) :=
  match vs with
  | [] => Some []
  | v :: rest =>
      match matches search_lower v with
      | None => None
      | Some keep =>
          match filter_videos search_lower rest with
          | None => None
          | Some kept => Some (if keep then v :: kept else kept)
          end
      end
  end.

End WithUnicode.

(** [list.sort] is stable: an element moves in front of another only when
    the order asks for it. [before x y] says that [x] may stay in front of
    [y]. Elements are inserted from the last to the first, each one in
    front of the elements it may precede. *)
Section StableSort.
Context {A : Type} (before : A -> A -> bool).

Fixpoint insert (x : A) (l : list A) : list A :=
  match l with
  | [] => [x]
  | y :: l' => if before x y then x :: l else y :: insert x l'
  end.

Definition stable_sort (l : list A) : list A := fold_right insert [] l.

End StableSort.

(** Lines 144-151. With [reverse=True] a video stays in front of another
    when its key is not smaller, so that ties keep the input order too. *)
Definition sort_videos (sort_by : str) (vs : list video) : list video :=
  if str_eq_dec sort_by (lit "views")
  then stable_sort (fun x y => (views y <=? views x)%Z) vs
  else if str_eq_dec sort_by (lit "duration")
  then stable_sort (fun x y => Qle_bool (duration y) (duration x)) vs
  else if str_eq_dec sort_by (lit "duration_asc")
  then stable_sort (fun x y => Qle_bool (duration x) (duration y)) vs
  else vs.

(** Lines 153-155: [if limit and limit > 0: videos = videos[:limit]]. *)
Definition apply_limit (limit : option Z) (vs : list video) : list video :=
  match limit with
  | Some n => if (0 <? n)%Z then firstn (Z.to_nat n) vs else vs
  | None => vs
  end.

(** Line 95, [not entries]: [None] and the empty list are falsy; a
    generator is not, whatever it yields. The default of line 94 is a
    list. *)
Definition no_entries (i : info) : bool :=
  match i_entries i with
  | Missing | Null => true
  | Val [] => negb (i_lazy i)
  | Val (_ :: _) => false
  end.

Section WithUnicode.
Context {U : Unicode}.

(** Lines 134-142: [if search:] filters, with [search.lower()] as the
    needle; no term, or an empty one, keeps every video. *)
Definition search_filter (search_term : option str) (vs : list video)
  : option (list video) :=
  match search_term with
  | Some (c :: s) => filter_videos (lower (c :: s)) vs
  | Some [] | None => Some vs
  end.

(** [get_channel_videos], from the outcome of [extract_info] on. *)
Definition get_channel_videos (limit : option Z) (sort_by : str)
  (search_term : option str) (content : str) (with_dates : bool)
  (f : fetched) : response :=
  match f with
  | RaisedDownloadError msg => Error (lit "Download error: " ++ msg)
  | RaisedOther msg => Error (lit "Error: " ++ msg)
  | Returned None => Error (lit "Could not fetch channel information")
  | Returned (Some i) =>
      match (if no_entries i then None else get (i_entries i)) with
      | None => Error (lit "No videos found")
      | Some entries =>
          match search_filter search_term (collect with_dates 0 entries) with
          | None => Error (lit "Error: 'NoneType' object has no attribute 'lower'")
          | Some vs =>
              let vs := apply_limit limit (sort_videos sort_by vs) in
              Listing
                {| channel :=
                     match i_channel i with
                     | Missing => get_default (i_uploader i) (lit "Unknown")
                     | Null => None
                     | Val c => Some c
                     end;
                   channel_id :=
                     match i_channel_id i with
                     | Missing => get_default (i_uploader_id i) (lit "")
                     | Null => None
                     | Val c => Some c
                     end;
                   content_type := content;
                   total_count := length entries;
                   returned_count := length vs;
                   sort := sort_by;
                   search := search_term;
                   videos := vs |}
          end
      end
  end.

End WithUnicode.

(** [main], lines 202-203 and 222-223: [--limit] is an integer with
    default 20, and [limit = args.limit if args.limit > 0 else None]. *)
Definition cli_limit (given : option Z) : option Z :=
  let args_limit := match given with Some n => n | None => 20%Z end in
  if (args_limit >? 0)%Z then Some args_limit else None.

(** ** Words of the specification *)

(** The digit character of [d], for [0 <= d <= 9]. *)
Definition digit (d : Z) : char := (48 + Z.to_N d)%N.

(** A number below one hundred written with exactly two digits. *)
Definition two_digits (n : Z) : str := [digit (n / 10); digit (n mod 10)].

(** ** Example data *)

Definition example_entry (name : str) (view_count : Z) (seconds : number)
  : option entry :=
  Some {| e_id := Val name; e_title := Val name;
          e_duration := Val seconds; e_view_count := Val view_count;
          e_upload_date := Missing; e_description := Missing |}.

(** A channel whose three videos have 10, 5 and 20 views, in this order;
    the first lasts 3725.5 seconds. *)
Definition example_entries : list (option entry) :=
  [example_entry (lit "a") 10 (7451 # 2)%Q;
   example_entry (lit "b") 5 59%Q;
   example_entry (lit "c") 20 0%Q].

Definition example_info : info :=
  {| i_channel := Val (lit "Example"); i_uploader := Missing;
     i_channel_id := Val (lit "UC0"); i_uploader_id := Missing;
     i_entries := Val example_entries; i_lazy := false |}.

Definition example_channel : fetched := Returned (Some example_info).

End Channel.

(* ===================================================================== *)
(** * youtube-transcript.py *)
(* ===================================================================== *)

Module Transcript.
Import PyStr.

(** ** [extract_video_id] *)

(** The class [[0-9A-Za-z_-]]. *)
Definition is_id_char (c : char) : bool :=
  in_range 48 57 c || in_range 65 90 c || in_range 97 122 c
  || (c =? 95)%N || (c =? 45)%N.

(** [([0-9A-Za-z_-]{11})] at the head of [s]: the group, when it matches.
    What follows the group in the three patterns ([.*] or nothing) always
    matches. *)
Definition match_id (s : str) : option str :=
  let candidate := firstn 11 s in
  if (length candidate =? 11) && forallb is_id_char candidate
  then Some candidate else None.

(** [(?:p1|p2|...)([0-9A-Za-z_-]{11})] at the head of [s]: the alternatives
    are tried in order. *)
Fixpoint match_here (alternatives : list str) (s : str) : option str :=
  match alternatives with
  | [] => None
  | p :: rest =>
      match strip_prefix p s with
      | Some after =>
          match match_id after with
          | Some video_id => Some video_id
          | None => match_here rest s
          end
      | None => match_here rest s
      end
  end.

(** [re.search(pattern, url)] followed by [match.group(1)]: the match at the
    leftmost position that has one. *)
Fixpoint search (alternatives : list str) (url : str) : option str :=
  match match_here alternatives url with
  | Some video_id => Some video_id
  | None =>
      match url with
      | [] => None
      | _ :: rest => search alternatives rest
      end
  end.

(** The three patterns, each by the alternatives of its prefix group. *)
Definition patterns : list (list str) :=
  [ [lit "v="; lit "/"];
    [lit "embed/"];
    [lit "youtu.be/"] ].

(** The loop over the patterns: the first one that matches decides. *)
Fixpoint first_match (ps : list (list str)) (url : str) : option str :=
  match ps with
  | [] => None
  | p :: rest =>
      match search p url with
      | Some video_id => Some video_id
      | None => first_match rest url
      end
  end.

Definition extract_video_id (url : str) : option str :=
  first_match patterns url.

(** [main], lines 249-253: the URL check. The process either exits with a
    status after a line on the error stream, or goes on with the ID. *)
Inductive validated :=
| Exit (status : Z) (stderr : str)
| Proceed (video_id : str).

Definition validate (url : str) : validated :=
  match extract_video_id url with
  | Some (c :: s) => Proceed (c :: s)
  | Some [] | None => Exit 1 (lit "Error: Invalid YouTube URL")
  end.

(** ** Caption maps *)

(** A Python dict, as its items in insertion order. *)
Definition dict (V : Type) := list (str * V).

Definition keys {V : Type} (d : dict V) : list str := map fst d.

(** A dict has each key once. *)
Definition well_formed {V : Type} (d : dict V) : Prop := NoDup (keys d).

Fixpoint dict_get {V : Type} (k : str) (d : dict V) : option V :=
  match d with
  | [] => None
  | (k', v) :: rest => if str_eq_dec k k' then Some v else dict_get k rest
  end.

(** [k in d] *)
Definition mem {V : Type} (k : str) (d : dict V) : bool :=
  match dict_get k d with
  | Some _ => true
  | None => false
  end.

(** [d[k] = v]: an existing key keeps its place, a new one goes last. *)
Fixpoint dict_set {V : Type} (k : str) (v : V) (d : dict V) : dict V :=
  match d with
  | [] => [(k, v)]
  | (k', v') :: rest =>
      if str_eq_dec k k' then (k', v) :: rest else (k', v') :: dict_set k v rest
  end.

(** [{**a, **b}] *)
Definition dict_merge {V : Type} (a b : dict V) : dict V :=
  fold_left (fun d kv => dict_set (fst kv) (snd kv) d) b a.

(** One caption track, with the two keys the script reads. *)
Record caption := {
  ext : field str;
  url : field str
}.

(** What [extract_info] returned, with the keys that decide the selection. *)
Record info := {
  automatic_captions : field (dict (list caption));
  subtitles : field (dict (list caption));
  language : field str;
  original_language : field str
}.

Inductive fetched :=
| RaisedDownloadError (msg : str)
| RaisedOther (msg : str)
| Returned (i : info).

(** What [get_transcript] has decided when it reaches [requests.get]
    (line 137), or the error dict it returned before. The download is
    outside the model; the parsers of the payload are in
    [TranscriptText]. *)
Inductive response :=
| Error (msg : str)
| LanguageNotFound (msg : str) (available_languages : list str)
| Download (language : str) (available_languages : list str)
    (caption_url caption_format : str).

(** Line 83: [info.get('language') or info.get('original_language')]. *)
Definition original_lang (i : info) : option str :=
  match get (language i) with
  | Some (c :: s) => Some (c :: s)
  | Some [] | None => get (original_language i)
  end.

(** Line 74: the merged map, when both maps are dicts ([None] cannot be
    unpacked). *)
Definition all_captions (i : info) : option (dict (list caption)) :=
  match get_default (automatic_captions i) [], get_default (subtitles i) [] with
  | Some auto, Some manual => Some (dict_merge auto manual)
  | _, _ => None
  end.

(** How the language selection (lines 82-109) ends. *)
Inductive selection :=
| Selected (lang : str)
| NotFound (preferred : str) (available : list str)
| IndexError.

Section WithUnicode.
Context {U : Unicode}.

(** Lines 90-93: the first language code that contains the preferred one,
    both in lower case. *)
Definition partial_match (preferred : str) (langs : list str) : option str :=
  find (fun lang => contains (lower preferred) (lower lang)) langs.

(** Lines 104-107: the first of the English codes that is a key. *)
Definition english_match {V : Type} (captions : dict V) : option str :=
  find (fun lang => mem lang captions) [lit "en"; lit "en-US"; lit "en-GB"].

(** Lines 82-109. *)
Definition select_language {V : Type} (captions : dict V)
  (preferred_lang original : option str) : selection :=
  let available_langs := keys captions in
  match preferred_lang with
  | Some (c :: p) =>
      if mem (c :: p) captions then Selected (c :: p)
      else
        match partial_match (c :: p) available_langs with
        | Some (l :: lang) => Selected (l :: lang)
        | Some [] | None => NotFound (c :: p) available_langs
        end
  | Some [] | None =>
      let fallback :=
        match english_match captions with
        | Some (l :: lang) => Selected (l :: lang)
        | Some [] | None =>
            match available_langs with
            | first :: _ => Selected first
            | [] => IndexError
            end
        end in
      match original with
      | Some (c :: o) => if mem (c :: o) captions then Selected (c :: o) else fallback
      | Some [] | None => fallback
      end
  end.

End WithUnicode.

(** How a loop over the tracks (lines 117-122, 125-130) ends: it reads
    [caption['url']] of the first track whose extension is wanted. *)
Inductive picked :=
| KeyError
| Picked (caption_url : option str) (caption_format : str)
| Nothing.

Fixpoint pick (wanted : str -> bool) (tracks : list caption) : picked :=
  match tracks with
  | [] => Nothing
  | c :: rest =>
      match get (ext c) with
      | Some e =>
          if wanted e then
            match url c with
            | Missing => KeyError
            | Null => Picked None e
            | Val u => Picked (Some u) e
            end
          else pick wanted rest
      | None => pick wanted rest
      end
  end.

(** [ext == 'vtt'] *)
Definition is_vtt (e : str) : bool :=
  if str_eq_dec e (lit "vtt") then true else false.

(** [ext in ['srv1', 'srv2', 'srv3', 'json3']] *)
Definition is_fallback (e : str) : bool :=
  if in_dec str_eq_dec e [lit "srv1"; lit "srv2"; lit "srv3"; lit "json3"]
  then true else false.

(** Lines 113-133, for the tracks of the selected language. [Raised] is the
    [KeyError] of a wanted track without [url]; [NoUrl] is the error of line
    133. *)
Inductive caption_choice :=
| Raised
| NoUrl
| Chosen (caption_url caption_format : str).

Definition select_caption (tracks : list caption) : caption_choice :=
  match pick is_vtt tracks with
  | KeyError => Raised
  | Picked (Some (c :: u)) fmt => Chosen (c :: u) fmt
  | Picked (Some []) _ | Picked None _ | Nothing =>
      match pick is_fallback tracks with
      | KeyError => Raised
      | Picked (Some (c :: u)) fmt => Chosen (c :: u) fmt
      | Picked (Some []) _ | Picked None _ | Nothing => NoUrl
      end
  end.

Section WithUnicode.
Context {U : Unicode}.

(** [get_transcript], from the outcome of [extract_info] up to the
    download. *)
Definition get_transcript (preferred_lang : option str) (f : fetched) : response :=
  match f with
  | RaisedDownloadError msg => Error (lit "Download error: " ++ msg)
  | RaisedOther msg => Error (lit "Error: " ++ msg)
  | Returned i =>
      match all_captions i with
      | None => Error (lit "Error: 'NoneType' object is not a mapping")
      | Some [] => Error (lit "No subtitles available for this video")
      | Some captions =>
          match select_language captions preferred_lang (original_lang i) with
          | IndexError => Error (lit "Error: list index out of range")
          | NotFound preferred available =>
              LanguageNotFound (lit "Language '" ++ preferred ++ lit "' not found")
                available
          | Selected lang =>
              match dict_get lang captions with
              | None => Error (lit "Error: '" ++ lang ++ lit "'")
              | Some tracks =>
                  match select_caption tracks with
                  | Raised => Error (lit "Error: 'url'")
                  | NoUrl => Error (lit "Could not get subtitle URL")
                  | Chosen caption_url caption_format =>
                      Download lang (keys captions) caption_url caption_format
                  end
              end
          end
      end
  end.

End WithUnicode.

(** ** Words of the specification *)

(** [video_id] is a run of eleven ID characters. *)
Definition is_video_id (video_id : str) : Prop :=
  length video_id = 11 /\ forallb is_id_char video_id = true.

(** [url] has the ID [video_id] right after an occurrence of [prefix]. *)
Definition id_after (prefix url video_id : str) : Prop :=
  is_video_id video_id
  /\ exists before after, url = before ++ prefix ++ video_id ++ after.

(** [p] occurs in [s]: [s] has [p] as a substring. *)
Definition occurs_in (p s : str) : Prop :=
  exists before after, s = before ++ p ++ after.

(** The video declares [o] as its language: [o] is the value of the key
    [language], a string that is not empty; or that key is absent, [None]
    or the empty string, and [o] is such a value of the key
    [original_language]. *)
Definition declares (i : info) (o : str) : Prop :=
  o <> []
  /\ (language i = Val o
      \/ ((language i = Missing \/ language i = Null \/ language i = Val [])
          /\ original_language i = Val o)).

(** The track has an extension that [wanted] accepts. *)
Definition has_ext (wanted : str -> bool) (c : caption) : bool :=
  match get (ext c) with
  | Some e => wanted e
  | None => false
  end.

(** The track carries a URL, and not an empty one. *)
Definition has_url (c : caption) : Prop :=
  exists u0 u, url c = Val (u0 :: u).

(** ** Example data *)

Definition example_track (e u : str) : caption := {| ext := Val e; url := Val u |}.

(** Automatic captions in English and Traditional Chinese, manual ones in
    French. *)
Definition example_info : info :=
  {| automatic_captions :=
       Val [(lit "en-orig", [example_track (lit "json3") (lit "https://c/1");
                              example_track (lit "srv1") (lit "https://c/2")]);
            (lit "zh-Hant", [example_track (lit "vtt") (lit "https://c/3")])];
     subtitles :=
       Val [(lit "fr", [example_track (lit "vtt") (lit "https://c/4")])];
     language := Null;
     original_language := Missing |}.

Definition example_captions : dict (list caption) :=
  dict_merge
    [(lit "en-orig", [example_track (lit "json3") (lit "https://c/1");
                      example_track (lit "srv1") (lit "https://c/2")]);
     (lit "zh-Hant", [example_track (lit "vtt") (lit "https://c/3")])]
    [(lit "fr", [example_track (lit "vtt") (lit "https://c/4")])].

End Transcript.

(* ===================================================================== *)
(** * jina-google-search.py *)
(* ===================================================================== *)

Module Search.
Import PyStr.

(** ** Regular expressions of the script

    Each pattern is modelled by the function that [re] computes for it:
    leftmost match, greedy repetition with backtracking. Where backtracking
    cannot change the outcome the function takes the greedy choice at once;
    the comment of each definition says why. *)

Definition newline : char := 10%N.

(** [$] (no MULTILINE): the end of the text, or the place before a newline
    that ends the text. *)
Definition at_end (s : str) : bool :=
  match s with
  | [] => true
  | [c] => (c =? newline)%N
  | _ :: _ :: _ => false
  end.

(** [.*$] at the head of [s]: [.] takes everything up to the first newline,
    and [$] must hold there (a shorter [.*] would stop before a character
    that is not a newline). The value is the text that is left. *)
Definition dot_star_end (s : str) : option str :=
  let rest := snd (span (fun c => negb (c =? newline)%N) s) in
  if at_end rest then Some rest else None.

(** [re.sub(head + '.*$', '', s)], for a [head] that matches no empty text:
    the text is cut at the leftmost position where [head] matches and the
    line ends after it. [head s] is what follows the match of [head] at the
    start of [s]. *)
Fixpoint sub_to_end (head : str -> option str) (s : str) : str :=
  match
    match head s with
    | Some after => dot_star_end after
    | None => None
    end
  with
  | Some rest => rest
  | None =>
      match s with
      | [] => []
      | c :: s' => c :: sub_to_end head s'
      end
  end.

(** One character out of a set. *)
Definition one_of (set : list char) (s : str) : option str :=
  match s with
  | c :: rest => if existsb (N.eqb c) set then Some rest else None
  | [] => None
  end.

(** Under [re.I] a lower-case letter of the pattern matches itself and its
    capital; [i] also matches U+0130 and U+0131, and [s] matches U+017F. *)
Definition folds_to (letter c : char) : bool :=
  (c =? letter)%N || (c =? letter - 32)%N
  || ((letter =? 105)%N && ((c =? 304)%N || (c =? 305)%N))
  || ((letter =? 115)%N && (c =? 383)%N).
Arguments folds_to (letter c)%_N.

(** [[a-z]] under [re.I]: the 52 ASCII letters and the four code points
    that fold to one of them. *)
Definition is_letter_ci (c : char) : bool :=
  in_range 97 122 c || in_range 65 90 c
  || (c =? 304)%N || (c =? 305)%N || (c =? 383)%N || (c =? 8490)%N.

(** [(png|jpg|gif|svg)] under [re.I] on three characters. *)
Definition is_image_ext (a b c : char) : bool :=
  (folds_to 112 a && folds_to 110 b && folds_to 103 c)
  || (folds_to 106 a && folds_to 112 b && folds_to 103 c)
  || (folds_to 103 a && folds_to 105 b && folds_to 102 c)
  || (folds_to 115 a && folds_to 118 b && folds_to 103 c).

(** [re.search(r'\.(png|jpg|gif|svg)$', s, re.I)] *)
Fixpoint search_image_ext (s : str) : bool :=
  match s with
  | [] => false
  | dot :: s' =>
      match s' with
      | a :: b :: c :: rest =>
          (dot =? 46)%N && is_image_ext a b c && at_end rest
      | _ => false
      end
      || search_image_ext s'
  end.

(** [\]\((https?://[^)]+)\)$] at the head of [s]: the group. The optional
    [s] is decided by the next character; [[^)]+] runs to the first closing
    parenthesis, which the pattern needs right there. *)
Definition match_link (s : str) : option str :=
  match strip_prefix (lit "](") s with
  | None => None
  | Some target =>
      let scheme :=
        if startswith (lit "https://") target then Some (lit "https://")
        else if startswith (lit "http://") target then Some (lit "http://")
        else None in
      match scheme with
      | None => None
      | Some sch =>
          let (body, rest) :=
            span (fun c => negb (c =? 41)%N) (skipn (length sch) target) in
          match body, rest with
          | _ :: _, _ :: after => if at_end after then Some (sch ++ body) else None
          | _, _ => None
          end
      end
  end.

(** [(.+)] followed by the link, at the head of [s]: the title group takes
    the longest run without a newline after which the link matches. The
    value has the title (possibly empty here) and the URL. *)
Fixpoint longest_title (s : str) : option (str * str) :=
  match s with
  | [] => None
  | c :: s' =>
      match (if (c =? newline)%N then None else longest_title s') with
      | Some (t, u) => Some (c :: t, u)
      | None =>
          match match_link s with
          | Some u => Some ([], u)
          | None => None
          end
      end
  end.

(** [result_pattern.match(line)], with groups 1 and 2:
    [^\[### (.+)\]\((https?://[^)]+)\)$]. *)
Definition result_pattern (line : str) : option (str * str) :=
  match strip_prefix (lit "[### ") line with
  | None => None
  | Some s =>
      match longest_title s with
      | Some (c :: t, u) => Some (c :: t, u)
      | Some ([], _) | None => None
      end
  end.

(** [re.sub(r'\s+', ' ', s)]: every run of whitespace becomes one space.
    [in_run] says that the previous character was whitespace. *)
Fixpoint collapse_spaces (in_run : bool) (s : str) : str :=
  match s with
  | [] => []
  | c :: s' =>
      if is_space c
      then (if in_run then collapse_spaces true s' else 32%N :: collapse_spaces true s')
      else c :: collapse_spaces false s'
  end.

(** Lines 78-81: the title of a header. *)
Definition clean_title (raw_title : str) : str :=
  let title := sub_to_end (fun s => strip_prefix (lit "![") (lstrip s)) raw_title in
  let title := sub_to_end (one_of [92; 8250; 187]%N) title in
  let title := collapse_spaces false title in
  strip title.

(** Line 84: [re.sub(r'[#?].*$', '', url)]. *)
Definition clean_url (url : str) : str :=
  sub_to_end (one_of [35; 63]%N) url.

Definition FILTER_DOMAINS : list str :=
  [lit "google.com"; lit "gstatic.com"; lit "ytimg.com"; lit "googleapis.com";
   lit "googleusercontent.com"].

(** [should_filter] *)
Definition should_filter (url : str) : bool :=
  existsb (fun domain => contains domain url) FILTER_DOMAINS
  || startswith (lit "blob:") url
  || search_image_ext url.

(** [re.sub(r'_([^_]+)_', r'\1', s)]. [pending] is [Some r] when an opening
    underscore has been read and [r], reversed, is the run read after it. A
    second underscore closes the match when the run is not empty; it is the
    opening one of the next attempt when the run is empty; a run that reaches
    the end of the text matched nothing. *)
Fixpoint sub_emphasis (pending : option str) (s : str) : str :=
  match s with
  | [] =>
      match pending with
      | Some r => 95%N :: rev r
      | None => []
      end
  | c :: s' =>
      match pending with
      | None =>
          if (c =? 95)%N then sub_emphasis (Some []) s'
          else c :: sub_emphasis None s'
      | Some r =>
          if (c =? 95)%N then
            match r with
            | [] => 95%N :: sub_emphasis (Some []) s'
            | _ :: _ => rev r ++ sub_emphasis None s'
            end
          else sub_emphasis (Some (c :: r)) s'
      end
  end.

Section WithUnicode.
Context {U : Unicode}.

(** [re.sub(r'^[A-Z][a-z]{2} \d{1,2}, \d{4} \u2014 ', '', s)]: a date stamp at
    the start of the text is removed. After one digit a second one is taken
    when there is one: the comma must follow the digits. *)
Definition sub_date (s : str) : str :=
  match s with
  | m1 :: m2 :: m3 :: sp :: d1 :: after_d1 =>
      if in_range 65 90 m1 && in_range 97 122 m2 && in_range 97 122 m3
         && (sp =? 32)%N && is_decimal d1
      then
        let after_day :=
          match after_d1 with
          | d2 :: after_d2 => if is_decimal d2 then after_d2 else after_d1
          | [] => after_d1
          end in
        match after_day with
        | comma :: sp1 :: y1 :: y2 :: y3 :: y4 :: sp2 :: dash :: sp3 :: rest =>
            if (comma =? 44)%N && (sp1 =? 32)%N
               && is_decimal y1 && is_decimal y2 && is_decimal y3 && is_decimal y4
               && (sp2 =? 32)%N && (dash =? 8212)%N && (sp3 =? 32)%N
            then rest else s
        | _ => s
        end
      else s
  | _ => s
  end.

(** Lines 113-117: the clean-up of a description candidate. *)
Definition clean_description (next_line : str) : str :=
  let desc := sub_emphasis None next_line in
  let desc := sub_to_end (strip_prefix (lit "[Read more]")) desc in
  let desc := sub_date desc in
  strip desc.

End WithUnicode.

(** [[a-z]{2,}$] at the head of [s]. *)
Definition match_tld (s : str) : bool :=
  let (letters, rest) := span is_letter_ci s in
  (2 <=? length letters) && at_end rest.

(** [re.match(r'^[a-z0-9.-]+\.[a-z]{2,}$', s, re.I)]. Every dot that the
    first class can stop at is tried; [started] says that the class has
    taken a character already. *)
Fixpoint bare_domain (started : bool) (s : str) : bool :=
  match s with
  | [] => false
  | c :: s' =>
      (started && (c =? 46)%N && match_tld s')
      || ((is_letter_ci c || in_range 48 57 c || (c =? 46)%N || (c =? 45)%N)
          && bare_domain true s')
  end.

(** Line 98: the scan stops at the next result or section. *)
Definition is_stop (next_line : str) : bool :=
  match result_pattern next_line with
  | Some _ => true
  | None => startswith (lit "##") next_line
  end.

Section WithUnicode.
Context {U : Unicode}.

(** Lines 102-108: the lines that are skipped. *)
Definition is_noise (next_line : str) : bool :=
  startswith (lit "[") next_line
  || startswith (lit "http") next_line
  || startswith (lit "![") next_line
  || startswith (lit "*") next_line
  || contains (lit "feedback") (lower next_line)
  || bare_domain false next_line
  || (length next_line <? 30).

(** The body of the loop of line 94, over the indices [js] that are left:
    [break] at a stop line, [continue] at a noise line and at a candidate
    that is too short once cleaned, [break] with the first description. *)
Fixpoint scan (lines : list str) (js : list nat) : str :=
  match js with
  | [] => []
  | j :: js' =>
      let next_line := strip (nth j lines []) in
      if is_stop next_line then []
      else if is_noise next_line then scan lines js'
      else
        let desc := clean_description next_line in
        if 30 <? length desc then desc else scan lines js'
  end.

(** Lines 93-121: [for j in range(i + 1, min(i + 10, len(lines)))]. *)
Definition find_description (lines : list str) (i : nat) : str :=
  scan lines (seq (i + 1) (Nat.min (i + 10) (length lines) - (i + 1))).

End WithUnicode.

(** One search result. *)
Record result := {
  title : str;
  url : str;
  description : str
}.

Section WithUnicode.
Context {U : Unicode}.

(** The [while i < len(lines)] loop of [parse_results], with [n] lines
    left: every path through the body ends in [i += 1]. *)
Fixpoint loop (lines : list str) (n i : nat) (seen_urls : list str)
  (results : list result) : list result :=
  match n with
  | 0 => results
  | S n' =>
      match result_pattern (nth i lines []) with
      | Some (raw_title, raw_url) =>
          let title := clean_title raw_title in
          let clean := clean_url raw_url in
          if should_filter raw_url
             || (if in_dec str_eq_dec clean seen_urls then true else false)
             || falsy title
          then loop lines n' (i + 1) seen_urls results
          else
            loop lines n' (i + 1) (clean :: seen_urls)
              (results ++ [{| title := title; url := clean;
                              description := find_description lines i |}])
      | None => loop lines n' (i + 1) seen_urls results
      end
  end.

(** [parse_results] *)
Definition parse_results (content : str) : list result :=
  let lines := split newline content in
  loop lines (length lines) 0 [] [].

End WithUnicode.

(** ** The scan as a pipeline *)

(** The lines of a window up to the first one at which the scan stops. *)
Fixpoint take_until (stop : str -> bool) (window : list str) : list str :=
  match window with
  | [] => []
  | l :: rest => if stop l then [] else l :: take_until stop rest
  end.

Section WithUnicode.
Context {U : Unicode}.

(** The loop of line 94 as a pipeline over the lines that follow a header,
    with the tests and the clean-up of the parser: strip the lines; stop at
    the first line that [is_stop] holds of; drop the lines that [is_noise]
    holds of; clean the others; the first cleaned text of more than 30
    characters is the description, and the empty string is when there is
    none. [SearchSpec] has the scan in the words of the specification. *)
Definition first_description (window : list str) : str :=
  let scanned := take_until is_stop (map strip window) in
  let candidates := filter (fun l => negb (is_noise l)) scanned in
  match find (fun d => 30 <? length d) (map clean_description candidates) with
  | Some d => d
  | None => []
  end.

(** What the loop knows of a result it appended: the header line it came
    from, and that the header passed the three checks of line 86. *)
Definition accepted (lines : list str) (r : result) : Prop :=
  exists i raw_title raw_url,
    i < length lines
    /\ result_pattern (nth i lines []) = Some (raw_title, raw_url)
    /\ should_filter raw_url = false
    /\ title r = clean_title raw_title
    /\ title r <> []
    /\ url r = clean_url raw_url
    /\ description r = find_description lines i.

End WithUnicode.

(** ** Example pages *)

(** ['\n'.join(lines)] *)
Fixpoint join_lines (lines : list str) : str :=
  match lines with
  | [] => []
  | [l] => l
  | l :: rest => l ++ newline :: join_lines rest
  end.

(** A header whose URL names a picture and carries a query string. *)
Definition picture_page : str :=
  lit "[### Pic](https://example.com/a.png?x=1)".

(** A header followed by a bare domain, by a line of 32 characters that is
    30 characters long once its emphasis markers are removed, and by a line
    that can serve as description; then a section heading, a second header
    for the same page, and a header from a filtered domain. *)
Definition example_page : str :=
  join_lines
    [lit "[### Example Title](https://example.com/page?x=1#frag)";
     lit "example.com";
     lit "_aaaaaaaaaaaaaaaaaaaaaaaaaaaaaa_";
     lit "A description that is long enough to be accepted here.";
     lit "## Next";
     lit "[### Again](https://example.com/page#other)";
     lit "[### Maps](https://maps.google.com/x)"].

Definition example_result : result :=
  {| title := lit "Example Title";
     url := lit "https://example.com/page";
     description := lit "A description that is long enough to be accepted here." |}.

End Search.

(* ===================================================================== *)
(** * youtube-channel.py: the channel URL *)
(* ===================================================================== *)

Module ChannelUrl.
Import PyStr.

Fixpoint lstrip_char (c : char) (s : str) : str :=
  match s with
  | [] => []
  | x :: s' => if (x =? c)%N then lstrip_char c s' else s
  end.

(** [s.rstrip(c)] for a one-character argument. *)
Definition rstrip_char (c : char) (s : str) : str :=
  rev (lstrip_char c (rev s)).

(** The three listings of a channel. *)
Definition listings : list str := [lit "videos"; lit "shorts"; lit "streams"].

(** [normalize_channel_url] *)
Definition normalize_channel_url (channel : str) : str :=
  let channel := strip channel in
  if startswith (lit "http") channel then
    if negb (contains (lit "/videos") channel)
       && negb (contains (lit "/shorts") channel)
       && negb (contains (lit "/streams") channel)
    then rstrip_char 47%N channel ++ lit "/videos"
    else channel
  else if startswith (lit "@") channel then
    lit "https://www.youtube.com/" ++ channel ++ lit "/videos"
  else if startswith (lit "UC") channel && (length channel =? 24) then
    lit "https://www.youtube.com/channel/" ++ channel ++ lit "/videos"
  else lit "https://www.youtube.com/@" ++ channel ++ lit "/videos".

(** [/?$] at the head of [s]: the slash is taken when the text ends after
    it; the value is the text that is left. *)
Definition match_slash_end (s : str) : option str :=
  match
    match s with
    | (47%N :: s') => if Search.at_end s' then Some s' else None
    | _ => None
    end
  with
  | Some rest => Some rest
  | None => if Search.at_end s then Some s else None
  end.

(** [/(videos|shorts|streams)/?$] at the head of [s], the alternatives in
    order. *)
Fixpoint match_listing (words : list str) (s : str) : option str :=
  match words with
  | [] => None
  | w :: rest =>
      match
        match strip_prefix (47%N :: w) s with
        | Some after => match_slash_end after
        | None => None
        end
      with
      | Some remaining => Some remaining
      | None => match_listing rest s
      end
  end.

(** Line 69: [re.sub(r"/(videos|shorts|streams)/?$", "", channel_url)]. The
    pattern can match once only, where the text ends. *)
Fixpoint base_url (channel_url : str) : str :=
  match match_listing listings channel_url with
  | Some remaining => remaining
  | None =>
      match channel_url with
      | [] => []
      | c :: rest => c :: base_url rest
      end
  end.

(** Lines 68-75: the URL that is fetched for a content type. *)
Definition listing_url (content_type channel_url : str) : str :=
  let base_url := base_url channel_url in
  if str_eq_dec content_type (lit "shorts") then base_url ++ lit "/shorts"
  else if str_eq_dec content_type (lit "streams") then base_url ++ lit "/streams"
  else base_url ++ lit "/videos".

End ChannelUrl.

(* ===================================================================== *)
(** * youtube-transcript.py: the text of the transcript *)
(* ===================================================================== *)

Module TranscriptText.
Import PyStr.

(** [re.findall(r'https://[^\s]+', text)[0]], when the list is not empty:
    the leftmost [https://] that a character other than white space
    follows, with the run of such characters. *)
Fixpoint first_url (text : str) : option str :=
  match
    match strip_prefix (lit "https://") text with
    | Some after =>
        match fst (span (fun c => negb (is_space c)) after) with
        | [] => None
        | c :: run => Some (lit "https://" ++ c :: run)
        end
    | None => None
    end
  with
  | Some url => Some url
  | None =>
      match text with
      | [] => None
      | _ :: rest => first_url rest
      end
  end.

(** [<[^>]+>] can match at a [<] that [s] follows: a character other than
    [>] comes next, and a [>] comes later. *)
Definition closes (s : str) : bool :=
  match span (fun c => negb (c =? 62)%N) s with
  | (_ :: _, _ :: _) => true
  | _ => false
  end.

(** [re.sub('<[^>]+>', '', s)]. [inside] says that a match has begun: its
    characters are dropped up to the first [>], which ends it. *)
Fixpoint sub_tags (inside : bool) (s : str) : str :=
  match s with
  | [] => []
  | c :: rest =>
      if inside then
        if (c =? 62)%N then sub_tags false rest else sub_tags true rest
      else if (c =? 60)%N && closes rest then sub_tags true rest
      else c :: sub_tags false rest
  end.

(** [s.replace(old, new)], for an [old] that is not empty: the occurrences
    are replaced from the left, and an occurrence begins after the one
    before it has ended. [skip] counts the characters of a replaced
    occurrence that are still to pass. *)
Fixpoint replace_from (old new : str) (skip : nat) (s : str) : str :=
  match s with
  | [] => []
  | c :: rest =>
      match skip with
      | S k => replace_from old new k rest
      | O =>
          if startswith old s
          then new ++ replace_from old new (length old - 1) rest
          else c :: replace_from old new 0 rest
      end
  end.

Definition replace (old new s : str) : str := replace_from old new 0 s.

(** Lines 182-187: the tags are removed, then five entities are replaced,
    one after the other. *)
Definition clean (line : str) : str :=
  let clean := sub_tags false line in
  let clean := replace (lit "&nbsp;") (lit " ") clean in
  let clean := replace (lit "&amp;") (lit "&") clean in
  let clean := replace (lit "&lt;") (lit "<") clean in
  let clean := replace (lit "&gt;") (lit ">") clean in
  replace (lit "&quot;") [34%N] clean.

(** Lines 193-198 and 221-226: a line equal to the one kept last is
    dropped. [prev] is [None] before the first line. *)
Fixpoint dedupe (prev : option str) (lines : list str) : list str :=
  match lines with
  | [] => []
  | line :: rest =>
      match prev with
      | Some p =>
          if str_eq_dec line p then dedupe prev rest
          else line :: dedupe (Some line) rest
      | None => line :: dedupe (Some line) rest
      end
  end.

(** One segment and one event of a json3 payload, with the keys the script
    reads: [utf8] is a string and [segs] a list of segments, when they are
    there. *)
Record seg := {
  utf8 : option str
}.

Record event := {
  segs : option (list seg)
}.

(** The decoded payload: an object whose [events], when there, is a list of
    events. *)
Record data := {
  events : option (list event)
}.

(** Lines 211-214: the [utf8] texts of the segments that have one. *)
Fixpoint parts (ss : list seg) : list str :=
  match ss with
  | [] => []
  | s :: rest =>
      match utf8 s with
      | Some text => text :: parts rest
      | None => parts rest
      end
  end.

(** Lines 208-218: the loop over the events. *)
Fixpoint event_lines (es : list event) : list str :=
  match es with
  | [] => []
  | e :: rest =>
      match segs e with
      | None => event_lines rest
      | Some ss =>
          match parts ss with
          | [] => event_lines rest
          | p :: ps =>
              let line := strip (concat (p :: ps)) in
              if falsy line then event_lines rest
              else line :: event_lines rest
          end
      end
  end.

Section WithRuntime.

(** [str.isdigit] on one code point: a table of the Python runtime. *)
Variable is_digit : char -> bool.

(** [requests.get(url).text], or [None] when the request raises. *)
Variable requests_get : str -> option str.

(** [json.loads(text)], or [None] when it raises [JSONDecodeError]. *)
Variable json_loads : str -> option data.

(** [s.isdigit()]: every character is a digit, and there is one at least. *)
Definition isdigit (s : str) : bool :=
  negb (falsy s) && forallb is_digit s.

(** Lines 163-170: the text of an M3U8 playlist is replaced by what its
    first URL delivers; when the request raises, the playlist itself is
    parsed. *)
Definition playlist_text (text : str) : str :=
  if startswith (lit "#EXTM3U") text then
    match first_url text with
    | Some url =>
        match requests_get url with
        | Some body => body
        | None => text
        end
    | None => text
    end
  else text.

(** Lines 174-179: the lines that are passed over. *)
Definition skipped (line : str) : bool :=
  startswith (lit "WEBVTT") line
  || contains (lit "-->") line
  || falsy (strip line)
  || isdigit (strip line).

(** Lines 172-190: the loop over the lines. *)
Fixpoint cue_lines (lines : list str) : list str :=
  match lines with
  | [] => []
  | line :: rest =>
      if skipped line then cue_lines rest
      else if falsy (strip (clean line)) then cue_lines rest
      else strip (clean line) :: cue_lines rest
  end.

(** [_parse_vtt] *)
Definition _parse_vtt (text : str) : str :=
  let text := playlist_text text in
  let lines := cue_lines (split Search.newline text) in
  Search.join_lines (dedupe None lines).

(** [_parse_json3] *)
Definition _parse_json3 (text : str) : str :=
  match json_loads text with
  | Some d =>
      let lines :=
        match events d with
        | Some es => event_lines es
        | None => []
        end in
      Search.join_lines (dedupe None lines)
  | None => _parse_vtt text
  end.

(** Lines 141-144: the parser is chosen by the format of the caption. *)
Definition parse (caption_format text : str) : str :=
  if str_eq_dec caption_format (lit "json3") then _parse_json3 text
  else _parse_vtt text.

End WithRuntime.

(** ** Example data *)

(** A WebVTT payload: header, two numbered cues with the same text, a cue
    with a tag and an entity. *)
Definition example_vtt : str :=
  Search.join_lines
    [lit "WEBVTT";
     lit "";
     lit "1";
     lit "00:00:00.000 --> 00:00:02.000";
     lit "  Hello <c.color>world</c> ";
     lit "";
     lit "2";
     lit "00:00:02.000 --> 00:00:04.000";
     lit "Hello world";
     lit "Tom &amp; Jerry"].

(** No request succeeds and no text decodes. *)
Definition offline (url : str) : option str := None.
Definition undecodable (text : str) : option data := None.

End TranscriptText.

(* ===================================================================== *)
(** * More example data *)
(* ===================================================================== *)

Module Examples.
Import PyStr.

(** A channel of two videos; the second has the title [None], a long
    description and an 11-character ID. *)
Definition untitled_entry : Channel.entry :=
  {| Channel.e_id := Val (lit "dQw4w9WgXcQ");
     Channel.e_title := Null;
     Channel.e_duration := Val 212%Q;
     Channel.e_view_count := Null;
     Channel.e_upload_date := Missing;
     Channel.e_description := Val (repeat 120%N 250) |}.

Definition untitled_info : Channel.info :=
  {| Channel.i_channel := Missing; Channel.i_uploader := Missing;
     Channel.i_channel_id := Missing; Channel.i_uploader_id := Missing;
     Channel.i_entries :=
       Val [Channel.example_entry (lit "a") 10 59%Q; None; Some untitled_entry];
     Channel.i_lazy := false |}.

(** A channel of two videos about which the library reports next to
    nothing: the first entry has no [duration] and no [view_count] key, the
    second has both with the value [None]. *)
Definition bare_entry (number : forall A : Type, field A) : Channel.entry :=
  {| Channel.e_id := Val (lit "x"); Channel.e_title := Val (lit "x");
     Channel.e_duration := number Channel.number;
     Channel.e_view_count := number Z;
     Channel.e_upload_date := Missing; Channel.e_description := Missing |}.

Definition bare_info : Channel.info :=
  {| Channel.i_channel := Missing; Channel.i_uploader := Missing;
     Channel.i_channel_id := Missing; Channel.i_uploader_id := Missing;
     Channel.i_entries :=
       Val [Some (bare_entry (@Missing)); Some (bare_entry (@Null))];
     Channel.i_lazy := false |}.

Definition bare_channel : Channel.fetched := Channel.Returned (Some bare_info).

(** A channel whose listing is a generator that yields nothing. *)
Definition empty_lazy_info : Channel.info :=
  {| Channel.i_channel := Val (lit "Example"); Channel.i_uploader := Missing;
     Channel.i_channel_id := Missing; Channel.i_uploader_id := Missing;
     Channel.i_entries := Val []; Channel.i_lazy := true |}.

Definition untitled_channel : Channel.fetched :=
  Channel.Returned (Some untitled_info).

(** Automatic captions in American English and in English, in this
    order, and no manual ones. *)
Definition english_info : Transcript.info :=
  {| Transcript.automatic_captions :=
       Val [(lit "en-US",
             [Transcript.example_track (lit "vtt") (lit "https://c/us")]);
            (lit "en",
             [Transcript.example_track (lit "vtt") (lit "https://c/en")])];
     Transcript.subtitles := Missing;
     Transcript.language := Missing;
     Transcript.original_language := Missing |}.

Definition english_captions : Transcript.dict (list Transcript.caption) :=
  [(lit "en-US", [Transcript.example_track (lit "vtt") (lit "https://c/us")]);
   (lit "en", [Transcript.example_track (lit "vtt") (lit "https://c/en")])].

(** Automatic captions in English and French, manual ones in French; the
    two language keys of the video are arguments. *)
Definition french_auto : Transcript.dict (list Transcript.caption) :=
  [(lit "en", [Transcript.example_track (lit "json3") (lit "https://c/a-en")]);
   (lit "fr", [Transcript.example_track (lit "vtt") (lit "https://c/a-fr")])].

Definition french_manual : Transcript.dict (list Transcript.caption) :=
  [(lit "fr", [Transcript.example_track (lit "vtt") (lit "https://c/m-fr")])].

Definition french_info (language original_language : field str)
  : Transcript.info :=
  {| Transcript.automatic_captions := Val french_auto;
     Transcript.subtitles := Val french_manual;
     Transcript.language := language;
     Transcript.original_language := original_language |}.

End Examples.

(* ===================================================================== *)
(** * jina-google-search.py: the description scan, in the words of the
      specification *)
(* ===================================================================== *)

Module SearchSpec.
Import PyStr.

(** ** Lines that are passed over *)

(** A letter, as the scripts' patterns read [[a-z]] without regard to case:
    the 52 ASCII letters and the four code points that fold to one. *)
Definition letter (c : char) : Prop :=
  (97 <= c <= 122)%N \/ (65 <= c <= 90)%N
  \/ c = 304%N \/ c = 305%N \/ c = 383%N \/ c = 8490%N.

(** A character of a domain name: a letter, an ASCII digit, a dot or a
    hyphen. *)
Definition domain_char (c : char) : Prop :=
  letter c \/ (48 <= c <= 57)%N \/ c = 46%N \/ c = 45%N.

(** A bare domain: a name of domain characters, a dot, and a top-level
    domain of two letters or more. *)
Definition bare_domain_line (l : str) : Prop :=
  exists name tld,
    l = name ++ lit "." ++ tld
    /\ name <> [] /\ Forall domain_char name
    /\ 2 <= length tld /\ Forall letter tld.

Section WithUnicode.
Context {U : Unicode}.

(** The seven kinds of line that cannot be a description. *)
Inductive skipped : str -> Prop :=
| markdown_link (rest : str) : skipped (lit "[" ++ rest)
| bare_url (rest : str) : skipped (lit "http" ++ rest)
| image_markup (rest : str) : skipped (lit "![" ++ rest)
| bullet_marker (rest : str) : skipped (lit "*" ++ rest)
| feedback_text (l before after : str) :
    lower l = before ++ lit "feedback" ++ after -> skipped l
| domain_line (l : str) : bare_domain_line l -> skipped l
| short_line (l : str) : length l < 30 -> skipped l.

End WithUnicode.

(** ** Lines that end the scan *)

(** A result header: [[### title](url)], with a title that is not empty and
    an [http] or [https] URL without a closing parenthesis. *)
Definition header (l : str) : Prop :=
  exists title scheme target,
    l = lit "[### " ++ title ++ lit "](" ++ scheme ++ target ++ lit ")"
    /\ title <> []
    /\ (scheme = lit "https://" \/ scheme = lit "http://")
    /\ target <> [] /\ ~ In 41%N target.

Inductive stops : str -> Prop :=
| next_header (l : str) : header l -> stops l
| section_heading (rest : str) : stops (lit "##" ++ rest).

(** ** The clean-up of a candidate *)

(** Emphasis markers. [pieces] are the pieces of the text between its
    underscores. A piece that is not empty and has an underscore on either
    side loses the two; an underscore that is followed by another one, or by
    none, stays. *)
Fixpoint unmark (pieces : list str) : str :=
  match pieces with
  | [] => []
  | p :: tail =>
      match tail with
      | [] => p
      | q :: rest =>
          match q, rest with
          | _ :: _, _ :: _ => p ++ q ++ unmark rest
          | _, _ => p ++ 95%N :: unmark tail
          end
      end
  end.

(** A trailing link: the text from the first occurrence of [mark] on is
    cut off. *)
Fixpoint cut_from (mark s : str) : str :=
  match s with
  | [] => []
  | c :: s' => if startswith mark s then [] else c :: cut_from mark s'
  end.

Section WithUnicode.
Context {U : Unicode}.

(** A date stamp: a capital and two small letters, a space, a day of one
    or two digits, a comma, a space, a year of four digits, and a dash
    (U+2014) between two spaces. *)
Definition date_stamp (d : str) : Prop :=
  exists m1 m2 m3 day y1 y2 y3 y4,
    d = [m1; m2; m3] ++ lit " " ++ day ++ lit ", " ++ [y1; y2; y3; y4]
        ++ [32; 8212; 32]%N
    /\ (65 <= m1 <= 90)%N /\ (97 <= m2 <= 122)%N /\ (97 <= m3 <= 122)%N
    /\ (1 <= length day <= 2) /\ Forall (fun c => is_decimal c = true) day
    /\ Forall (fun c => is_decimal c = true) [y1; y2; y3; y4].

(** [s'] is [s] without its leading date stamp, when it has one. *)
Definition undated (s s' : str) : Prop :=
  (exists d, date_stamp d /\ s = d ++ s')
  \/ (s' = s /\ forall d rest, date_stamp d -> s <> d ++ rest).

(** [c] is the cleaned text of the candidate [l]: emphasis markers, a
    trailing read-more link and a leading date stamp are removed, in this
    order, and then the white space at the ends. *)
Definition cleaned_from (l c : str) : Prop :=
  exists dated,
    undated (cut_from (lit "[Read more]") (unmark (split 95%N l))) dated
    /\ c = strip dated.

(** [d] is the description that the lines [window] after a header give.
    Every line is stripped first. The scan ends without a description at a
    line that stops it, and at the end of the window; it passes over the
    lines that are skipped and over the candidates whose cleaned text has at
    most 30 characters; it ends with the cleaned text of the first candidate
    that has more. *)
Inductive described : list str -> str -> Prop :=
| nothing_left : described [] []
| stop_here (l : str) (window : list str) :
    stops (strip l) -> described (l :: window) []
| pass_over (l : str) (window : list str) (d : str) :
    ~ stops (strip l) -> skipped (strip l) ->
    described window d -> described (l :: window) d
| too_short (l : str) (window : list str) (c d : str) :
    ~ stops (strip l) -> ~ skipped (strip l) ->
    cleaned_from (strip l) c -> length c <= 30 ->
    described window d -> described (l :: window) d
| accept (l : str) (window : list str) (c : str) :
    ~ stops (strip l) -> ~ skipped (strip l) ->
    cleaned_from (strip l) c -> 30 < length c ->
    described (l :: window) c.

(** The description as the claim words it: the first line that is neither
    skipped nor a stop is the one candidate; its cleaned text is the
    description when it has more than 30 characters, and there is no
    description otherwise. *)
Inductive first_candidate_described : list str -> str -> Prop :=
| fc_nothing_left : first_candidate_described [] []
| fc_stop_here (l : str) (window : list str) :
    stops (strip l) -> first_candidate_described (l :: window) []
| fc_pass_over (l : str) (window : list str) (d : str) :
    ~ stops (strip l) -> skipped (strip l) ->
    first_candidate_described window d ->
    first_candidate_described (l :: window) d
| fc_reject (l : str) (window : list str) (c : str) :
    ~ stops (strip l) -> ~ skipped (strip l) ->
    cleaned_from (strip l) c -> length c <= 30 ->
    first_candidate_described (l :: window) []
| fc_accept (l : str) (window : list str) (c : str) :
    ~ stops (strip l) -> ~ skipped (strip l) ->
    cleaned_from (strip l) c -> 30 < length c ->
    first_candidate_described (l :: window) c.

End WithUnicode.

End SearchSpec.

(* ===================================================================== *)
(** * Facts about strings *)
(* ===================================================================== *)

Module PyStrFacts.
Import PyStr.

(** ** Prefixes and substrings *)

Lemma startswith_app (p s : str) : startswith p (p ++ s) = true.
Proof.
  induction p as [|c p IH]; [reflexivity|].
  simpl. now rewrite N.eqb_refl.
Qed.

Lemma startswith_inv (p s : str) :
  startswith p s = true -> s = p ++ skipn (length p) s.
Proof.
  revert s. induction p as [|c p IH]; intros s H; [reflexivity|].
  destruct s as [|d s]; [discriminate|].
  simpl in H. apply andb_prop in H as [Hc Hp].
  apply N.eqb_eq in Hc. subst d. simpl. f_equal. now apply IH.
Qed.

Lemma strip_prefix_app (p s : str) : strip_prefix p (p ++ s) = Some s.
Proof.
  unfold strip_prefix. rewrite startswith_app. f_equal.
  induction p; [reflexivity | assumption].
Qed.

Lemma strip_prefix_inv (p s r : str) : strip_prefix p s = Some r -> s = p ++ r.
Proof.
  unfold strip_prefix. destruct (startswith p s) eqn:H; [|discriminate].
  intros [= <-]. now apply startswith_inv.
Qed.

(** ** Substrings *)

Lemma startswith_prefix (p s : str) :
  startswith p s = true <-> exists rest, s = p ++ rest.
Proof.
  split.
  - intros H. exists (skipn (length p) s). now apply startswith_inv.
  - intros (rest & ->). apply startswith_app.
Qed.

Lemma contains_occurs (p s : str) :
  contains p s = true <-> exists before after, s = before ++ p ++ after.
Proof.
  induction s as [|c s IH]; simpl.
  - rewrite orb_false_r, startswith_prefix. split.
    + intros (rest & H). now exists [], rest.
    + intros (before & after & H). destruct before; [now exists after|discriminate].
  - rewrite orb_true_iff, IH, startswith_prefix. split.
    + intros [(rest & H) | (before & after & ->)].
      * now exists [], rest.
      * now exists (c :: before), after.
    + intros ([|c' before] & after & H).
      * left. now exists after.
      * right. injection H as _ ->. now exists before, after.
Qed.

Lemma span_app (p : char -> bool) (s : str) :
  s = fst (span p s) ++ snd (span p s).
Proof.
  induction s as [|c s IH]; [reflexivity|]. simpl.
  destruct (p c); [|reflexivity].
  destruct (span p s) as [a b]. simpl in *. now f_equal.
Qed.

End PyStrFacts.

(* ===================================================================== *)
(** * Properties of the channel lister *)
(* ===================================================================== *)

Module ChannelFacts.
Import PyStr Channel.

(** ** The stable sort *)

Section StableSortFacts.
Context {A : Type} (before : A -> A -> bool).

Lemma insert_perm (x : A) (l : list A) :
  Permutation (x :: l) (insert before x l).
Proof.
  induction l as [|y l IH]; simpl.
  - apply Permutation_refl.
  - destruct (before x y).
    + apply Permutation_refl.
    + eapply perm_trans; [apply perm_swap|]. now apply perm_skip.
Qed.

Lemma stable_sort_perm (l : list A) : Permutation l (stable_sort before l).
Proof.
  induction l as [|x l IH]; simpl.
  - apply perm_nil.
  - eapply perm_trans; [apply perm_skip, IH | apply insert_perm].
Qed.

(** Stability: elements that the order does not separate keep their input
    order. [p] selects such a group. *)
Lemma filter_insert (p : A -> bool) (x : A) (l : list A) :
  (forall y, p x = true -> p y = true -> before x y = true) ->
  filter p (insert before x l) = filter p (x :: l).
Proof.
  intros Hgroup. induction l as [|y l IH]; [reflexivity|].
  simpl insert. destruct (before x y) eqn:Hxy; [reflexivity|].
  simpl in *. rewrite IH.
  destruct (p x) eqn:Hx, (p y) eqn:Hy; try reflexivity.
  rewrite (Hgroup y eq_refl Hy) in Hxy. discriminate.
Qed.

Lemma filter_stable_sort (p : A -> bool) (l : list A) :
  (forall x y, p x = true -> p y = true -> before x y = true) ->
  filter p (stable_sort before l) = filter p l.
Proof.
  intros Hgroup. induction l as [|x l IH]; [reflexivity|].
  simpl stable_sort. rewrite filter_insert by (apply Hgroup).
  simpl. now rewrite IH.
Qed.

Hypothesis before_total : forall x y, before x y = false -> before y x = true.
Hypothesis before_trans :
  forall x y z, before x y = true -> before y z = true -> before x z = true.

Lemma insert_sorted (x : A) (l : list A) :
  StronglySorted (fun a b => before a b = true) l ->
  StronglySorted (fun a b => before a b = true) (insert before x l).
Proof.
  induction 1 as [|y l Hs IH Hy]; simpl.
  - constructor; constructor.
  - destruct (before x y) eqn:Hxy.
    + constructor; [now constructor|].
      constructor; [exact Hxy|].
      eapply Forall_impl; [|exact Hy]. intros z Hz. now apply before_trans with y.
    + constructor; [exact IH|].
      eapply Permutation_Forall; [apply insert_perm|].
      constructor; [now apply before_total | exact Hy].
Qed.

Lemma stable_sort_sorted (l : list A) :
  StronglySorted (fun a b => before a b = true) (stable_sort before l).
Proof.
  induction l as [|x l IH]; simpl; [constructor | now apply insert_sorted].
Qed.

End StableSortFacts.

Lemma StronglySorted_weaken (A : Type) (R1 R2 : A -> A -> Prop) (l : list A) :
  (forall a b, R1 a b -> R2 a b) -> StronglySorted R1 l -> StronglySorted R2 l.
Proof.
  intros Himp. induction 1 as [|x l Hs IH Hx]; constructor; [exact IH|].
  eapply Forall_impl; [|exact Hx]. intros b. apply Himp.
Qed.

Lemma sort_by_views_spec (vs : list video) :
  Permutation vs (sort_videos (lit "views") vs)
  /\ StronglySorted (fun a b => (views b <= views a)%Z) (sort_videos (lit "views") vs)
  /\ forall n, filter (fun v => (views v =? n)%Z) (sort_videos (lit "views") vs)
               = filter (fun v => (views v =? n)%Z) vs.
Proof.
  assert (Hs : sort_videos (lit "views") vs
               = stable_sort (fun x y => (views y <=? views x)%Z) vs).
  { unfold sort_videos. destruct (str_eq_dec _ _) as [_|Hne]; [reflexivity | now elim Hne]. }
  rewrite Hs. split; [apply stable_sort_perm | split].
  - eapply StronglySorted_weaken; [|apply stable_sort_sorted].
    + intros a b H. now apply Z.leb_le.
    + intros x y H. apply Z.leb_gt in H. apply Z.leb_le. lia.
    + intros x y z H1 H2. apply Z.leb_le in H1, H2. apply Z.leb_le. lia.
  - intros n. apply filter_stable_sort. intros x y Hx Hy.
    apply Z.eqb_eq in Hx, Hy. apply Z.leb_le. lia.
Qed.

Lemma sort_videos_perm (sort_by : str) (vs : list video) :
  Permutation vs (sort_videos sort_by vs).
Proof.
  unfold sort_videos.
  repeat match goal with |- context [str_eq_dec ?a ?b] => destruct (str_eq_dec a b) end;
    try apply stable_sort_perm; apply Permutation_refl.
Qed.

(** ** The pipeline of [get_channel_videos] *)

Lemma collect_In (wd : bool) (entries : list (option entry)) :
  forall i v, In v (collect wd i entries) ->
  exists j e, nth_error entries j = Some (Some e) /\ v = make_video wd (i + j) e.
Proof.
  induction entries as [|[e|] rest IH]; simpl; intros i v Hin.
  - contradiction.
  - destruct Hin as [<- | Hin].
    + exists 0, e. now rewrite Nat.add_0_r.
    + destruct (IH _ _ Hin) as (j & e' & Hj & ->).
      exists (S j), e'. split; [exact Hj | f_equal; lia].
  - destruct (IH _ _ Hin) as (j & e' & Hj & ->).
    exists (S j), e'. split; [exact Hj | f_equal; lia].
Qed.

(** With no [None] entry, the k-th collected video is the k-th entry. *)
Lemma collect_nth (wd : bool) (entries : list (option entry)) :
  Forall (fun e => e <> None) entries ->
  forall i k v, nth_error (collect wd i entries) k = Some v -> index v = i + k + 1.
Proof.
  induction 1 as [|[e|] rest He Hrest IH]; intros i k v Hk.
  - destruct k; discriminate.
  - destruct k as [|k]; simpl in Hk.
    + injection Hk as <-. simpl. lia.
    + rewrite (IH _ _ _ Hk). lia.
  - now elim He.
Qed.

Section WithUnicode.
Context {U : Unicode}.

Lemma filter_videos_incl (q : str) (vs kept : list video) :
  filter_videos q vs = Some kept -> incl kept vs.
Proof.
  revert kept. induction vs as [|v vs IH]; simpl; intros kept H.
  - injection H as <-. apply incl_refl.
  - destruct (matches q v) as [keep|]; [|discriminate].
    destruct (filter_videos q vs) as [kept'|]; [|discriminate].
    injection H as <-. specialize (IH _ eq_refl).
    destruct keep; [|now apply incl_tl].
    intros x [<-|Hx]; [now left | right; now apply IH].
Qed.

Lemma search_filter_incl (term : option str) (vs kept : list video) :
  search_filter term vs = Some kept -> incl kept vs.
Proof.
  destruct term as [[|c s]|]; simpl; intros H;
    try (injection H as <-; apply incl_refl).
  eapply filter_videos_incl; eassumption.
Qed.

Lemma apply_limit_incl (limit : option Z) (vs : list video) :
  incl (apply_limit limit vs) vs.
Proof.
  destruct limit as [n|]; simpl; [|apply incl_refl].
  destruct (0 <? n)%Z; [|apply incl_refl].
  intros v Hv. rewrite <- (firstn_skipn (Z.to_nat n) vs).
  apply in_or_app. now left.
Qed.

(** The entries that pass the test of line 95. *)
Lemma entries_of (i : info) (entries : list (option entry)) :
  (if no_entries i then None else get (i_entries i)) = Some entries ->
  i_entries i = Val entries
  /\ no_entries i = false
  /\ get_default (i_entries i) [] = Some entries.
Proof.
  destruct (no_entries i) eqn:Hn; [discriminate|].
  destruct (i_entries i) as [| |es]; simpl; try discriminate.
  intros [= ->]. auto.
Qed.

Lemma listing_run (limit : option Z) (sort_by : str)
  (term : option str) (content : str) (wd : bool) (f : fetched) (l : listing) :
  get_channel_videos limit sort_by term content wd f = Listing l ->
  exists i entries matching,
    f = Returned (Some i)
    /\ (if no_entries i then None else get (i_entries i)) = Some entries
    /\ search_filter term (collect wd 0 entries) = Some matching
    /\ videos l = apply_limit limit (sort_videos sort_by matching).
Proof.
  unfold get_channel_videos. intros H.
  destruct f as [msg|msg|[i|]]; try discriminate.
  destruct (if no_entries i then None else get (i_entries i))
    as [entries|] eqn:He; try discriminate.
  destruct (search_filter term _) as [matching|] eqn:Hm; try discriminate.
  injection H as <-. exists i, entries, matching. simpl. auto.
Qed.

(** What a successful call went through. *)
Lemma listing_inv (limit : option Z) (sort_by : str) (term : option str)
  (content : str) (wd : bool) (f : fetched) (l : listing) :
  get_channel_videos limit sort_by term content wd f = Listing l ->
  exists i entries matching,
    f = Returned (Some i)
    /\ get_default (i_entries i) [] = Some entries
    /\ search_filter term (collect wd 0 entries) = Some matching
    /\ videos l = apply_limit limit (sort_videos sort_by matching)
    /\ returned_count l = length (videos l)
    /\ total_count l = length entries.
Proof.
  unfold get_channel_videos. intros H.
  destruct f as [msg|msg|[i|]]; try discriminate.
  destruct (if no_entries i then None else get (i_entries i))
    as [entries|] eqn:He; try discriminate.
  destruct (search_filter term _) as [matching|] eqn:Hm; try discriminate.
  injection H as <-. exists i, entries, matching. simpl.
  destruct (entries_of _ _ He) as (_ & _ & Hd). auto 10.
Qed.

(** Every video of a listing was built from an entry of the source
    listing, at the position its [index] names. *)
Lemma listing_video_source (limit : option Z) (sort_by : str) (term : option str)
  (content : str) (wd : bool) (i : info) (l : listing) (v : video) :
  get_channel_videos limit sort_by term content wd (Returned (Some i)) = Listing l ->
  In v (videos l) ->
  exists entries e,
    get_default (i_entries i) [] = Some entries
    /\ nth_error entries (index v - 1) = Some (Some e)
    /\ 1 <= index v
    /\ v = make_video wd (index v - 1) e.
Proof.
  intros H Hin.
  destruct (listing_inv _ _ _ _ _ _ _ H) as (i' & entries & matching & Hf & He & Hm & Hv & _).
  injection Hf as <-. rewrite Hv in Hin.
  apply apply_limit_incl in Hin.
  apply (Permutation_in _ (Permutation_sym (sort_videos_perm sort_by matching))) in Hin.
  apply (search_filter_incl _ _ _ Hm) in Hin.
  destruct (collect_In _ _ _ _ Hin) as (j & e & Hj & ->).
  exists entries, e. simpl. replace (j + 1 - 1) with j by lia. repeat split; auto; lia.
Qed.

End WithUnicode.

Lemma format_02d_two_digits (n : Z) :
  (0 <= n < 60)%Z -> format_02d n = two_digits n.
Proof.
  intros Hn. rewrite <- (Z2Nat.id n) by lia.
  assert (Hlt : Z.to_nat n < 60) by lia.
  generalize dependent (Z.to_nat n). clear n Hn. intros n Hlt.
  do 60 (destruct n as [|n]; [vm_compute; reflexivity|]). lia.
Qed.

(** ** Specified properties *)

Lemma sort_views_example (vs : list video) :
  map views vs = [10; 5; 20]%Z ->
  map views (sort_videos (lit "views") vs) = [20; 10; 5]%Z.
Proof.
  intros Hviews.
  assert (Hs : sort_videos (lit "views") vs
               = stable_sort (fun x y => (views y <=? views x)%Z) vs).
  { unfold sort_videos. destruct (str_eq_dec _ _) as [_|Hne]; [reflexivity | now elim Hne]. }
  rewrite Hs. destruct vs as [|a [|b [|c [|d vs]]]]; try discriminate.
  injection Hviews as Ha Hb Hc. unfold stable_sort.
  repeat (progress (cbn [fold_right insert map Z.leb Z.compare Pos.compare
                         Pos.compare_cont];
                    rewrite ?Ha, ?Hb, ?Hc)).
  reflexivity.
Qed.

(** C1 (as the code has it). With [--sort views] the lister returns the
    head (as the limit asks) of the matching videos in a stable order by view
    count, descending: that order is a rearrangement of the matching videos,
    no video in it has fewer views than a later one, and videos with the same
    view count keep the order they had. Without a limit, videos with view
    counts [10, 5, 20] come out with view counts [20, 10, 5]. *)
Theorem sort_views_stable_descending {U : Unicode} (limit : option Z)
  (term : option str) (content : str) (wd : bool) (f : fetched) (l : listing) :
  get_channel_videos limit (lit "views") term content wd f = Listing l ->
  exists i entries matching,
    f = Returned (Some i)
    /\ get_default (i_entries i) [] = Some entries
    /\ search_filter term (collect wd 0 entries) = Some matching
    /\ videos l = apply_limit limit (sort_videos (lit "views") matching)
    /\ Permutation matching (sort_videos (lit "views") matching)
    /\ StronglySorted (fun a b => (views b <= views a)%Z)
         (sort_videos (lit "views") matching)
    /\ (forall n,
          filter (fun v => (views v =? n)%Z) (sort_videos (lit "views") matching)
          = filter (fun v => (views v =? n)%Z) matching)
    /\ (limit = None -> map views matching = [10; 5; 20]%Z ->
        map views (videos l) = [20; 10; 5]%Z).
Proof.
  intros H.
  destruct (listing_inv _ _ _ _ _ _ _ H) as (i & entries & matching & Hf & He & Hm & Hv & _).
  destruct (sort_by_views_spec matching) as (Hperm & Hsorted & Hstable).
  exists i, entries, matching. repeat split; auto.
  intros -> Hviews. rewrite Hv. simpl. now apply sort_views_example.
Qed.

Lemma sort_views_stable_descending_witness :
  exists l,
    get_channel_videos (U := basic_latin) None (lit "views") None (lit "videos")
      false example_channel = Listing l
    /\ map views (videos l) = [20; 10; 5]%Z.
Proof.
  eexists. split; [vm_compute; reflexivity|].
  destruct (sort_views_stable_descending (U := basic_latin) None None (lit "videos")
              false example_channel _ eq_refl)
    as (i & entries & matching & Hf & He & Hm & _ & _ & _ & _ & Hexample).
  apply Hexample; [reflexivity|].
  injection Hf as <-. injection He as <-. injection Hm as <-. reflexivity.
Defined.

(** C1, as stated, fails: on view counts [10, 5, 20] the lister returns
    [20, 10, 5], not [20, 5, 10]. *)
Lemma sort_views_10_5_20 :
  exists l,
    get_channel_videos (U := basic_latin) None (lit "views") None (lit "videos")
      false example_channel = Listing l
    /\ map views (collect false 0 example_entries) = [10; 5; 20]%Z
    /\ map views (videos l) = [20; 10; 5]%Z
    /\ map views (videos l) <> [20; 5; 10]%Z.
Proof.
  eexists. split; [vm_compute; reflexivity|].
  split; [reflexivity|]. split; [reflexivity | discriminate].
Qed.

(** C2 (as the code has it). The [index] of a returned video is the 1-based
    position of its entry in the listing the extraction library delivered,
    assigned before [None] entries are skipped and before filtering, sorting
    and limiting. It is the position in the returned sequence when none of
    these changed the order: no [None] entry, no search term, sort key
    [recency]. *)
Theorem index_is_source_position {U : Unicode} (limit : option Z) (sort_by : str)
  (term : option str) (content : str) (wd : bool) (i : info) (l : listing) :
  get_channel_videos limit sort_by term content wd (Returned (Some i)) = Listing l ->
  exists entries,
    get_default (i_entries i) [] = Some entries
    /\ (forall v, In v (videos l) ->
        exists e, nth_error entries (index v - 1) = Some (Some e)
                  /\ 1 <= index v
                  /\ v = make_video wd (index v - 1) e)
    /\ (Forall (fun e => e <> None) entries -> term = None ->
        sort_by = lit "recency" ->
        forall k v, nth_error (videos l) k = Some v -> index v = k + 1).
Proof.
  intros H.
  destruct (listing_inv _ _ _ _ _ _ _ H) as (i' & entries & matching & Hf & He & Hm & Hv & _).
  injection Hf as <-. exists entries. split; [exact He | split].
  - intros v Hin.
    destruct (listing_video_source _ _ _ _ _ _ _ _ H Hin) as (entries' & e & He' & Hrest).
    rewrite He in He'. injection He' as <-. now exists e.
  - intros Hall -> -> k v Hk. simpl in Hm. injection Hm as <-.
    rewrite Hv in Hk. change (sort_videos (lit "recency") ?x) with x in Hk.
    assert (Hk' : nth_error (collect wd 0 entries) k = Some v).
    { destruct limit as [n|]; simpl in Hk; [|exact Hk].
      destruct (0 <? n)%Z; [|exact Hk].
      destruct (Nat.lt_ge_cases k (Z.to_nat n)) as [Hlt|Hge].
      - now rewrite nth_error_firstn, (proj2 (Nat.ltb_lt _ _) Hlt) in Hk.
      - rewrite nth_error_firstn in Hk.
        destruct (k <? Z.to_nat n) eqn:Hkn; [apply Nat.ltb_lt in Hkn; lia | discriminate]. }
    now rewrite (collect_nth _ _ Hall _ _ _ Hk').
Qed.

Lemma index_is_source_position_witness :
  exists l,
    get_channel_videos None (lit "views") None (lit "videos") false example_channel
    = Listing l
    /\ exists entries,
        get_default (i_entries example_info) [] = Some entries
        /\ (forall v, In v (videos l) ->
            exists e, nth_error entries (index v - 1) = Some (Some e)
                      /\ 1 <= index v
                      /\ v = make_video false (index v - 1) e)
        /\ (Forall (fun e => e <> None) entries -> @None str = None ->
            lit "views" = lit "recency" ->
            forall k v, nth_error (videos l) k = Some v -> index v = k + 1).
Proof.
  eexists. split; [vm_compute; reflexivity|].
  apply (index_is_source_position (U := basic_latin) None (lit "views") None
           (lit "videos") false example_info).
  vm_compute. reflexivity.
Defined.

(** C2, as stated, fails: sorted by views, the three example videos are
    returned with the indices 3, 1, 2 of their source positions, so the first
    returned video does not have index 1. *)
Lemma index_after_sort_not_position :
  exists l,
    get_channel_videos None (lit "views") None (lit "videos") false example_channel
    = Listing l
    /\ map index (videos l) = [3; 1; 2]
    /\ ~ (forall k v, nth_error (videos l) k = Some v -> index v = k + 1).
Proof.
  eexists. split; [vm_compute; reflexivity|]. split; [reflexivity|].
  intros H. specialize (H 0 _ eq_refl). discriminate.
Qed.

(** C8. The limit is applied to the filtered and sorted sequence. The call
    without a limit returns that whole sequence; a limit of [None] (unset)
    or zero returns the same videos, and a limit [n > 0] returns its first
    [n] videos, [min n available] of them. On the command line, [--limit 0]
    becomes "no limit". *)
Theorem limit_takes_head_of_filtered_sorted {U : Unicode} (limit : option Z)
  (sort_by : str) (term : option str) (content : str) (wd : bool) (i : info)
  (all : listing) :
  get_channel_videos None sort_by term content wd (Returned (Some i)) = Listing all ->
  exists entries matching l,
    get_default (i_entries i) [] = Some entries
    /\ search_filter term (collect wd 0 entries) = Some matching
    /\ videos all = sort_videos sort_by matching
    /\ get_channel_videos limit sort_by term content wd (Returned (Some i)) = Listing l
    /\ returned_count l = length (videos l)
    /\ match limit with
       | None => videos l = videos all
       | Some n =>
           if (0 <? n)%Z
           then videos l = firstn (Z.to_nat n) (videos all)
                /\ Z.of_nat (length (videos l))
                   = Z.min n (Z.of_nat (length (videos all)))
           else videos l = videos all
       end
    /\ forall n, cli_limit (Some n) = if (0 <? n)%Z then Some n else None.
Proof.
  intros H.
  destruct (listing_run _ _ _ _ _ _ _ H) as (i' & entries & matching & Hf & Hrun & Hm & Hv).
  injection Hf as <-. simpl in Hv.
  destruct (entries_of _ _ Hrun) as (_ & _ & He).
  exists entries, matching.
  unfold get_channel_videos in *. rewrite Hrun in *.
  rewrite Hm in *. eexists. repeat split; try eassumption.
  - cbn [videos]. rewrite Hv.
    destruct limit as [n|]; [|reflexivity]. cbn [apply_limit].
    destruct (0 <? n)%Z eqn:Hn; [|reflexivity].
    split; [reflexivity|]. rewrite length_firstn. apply Z.ltb_lt in Hn. lia.
  - intros n. unfold cli_limit. rewrite Z.gtb_ltb. reflexivity.
Qed.

Lemma limit_takes_head_of_filtered_sorted_witness :
  exists all,
    get_channel_videos None (lit "views") None (lit "videos") false example_channel
    = Listing all
    /\ exists l,
        get_channel_videos (Some 2%Z) (lit "views") None (lit "videos") false
          example_channel = Listing l
        /\ videos l = firstn 2 (videos all)
        /\ map views (videos all) = [20; 10; 5]%Z
        /\ map views (videos l) = [20; 10]%Z.
Proof.
  eexists. split; [vm_compute; reflexivity|].
  destruct (limit_takes_head_of_filtered_sorted (U := basic_latin) (Some 2%Z)
              (lit "views") None (lit "videos") false example_info _ eq_refl)
    as (entries & matching & l & _ & _ & _ & Hl & _ & (Hhead & _) & _).
  exists l. split; [exact Hl|]. split; [exact Hhead|].
  split; [reflexivity|]. rewrite Hhead. reflexivity.
Defined.

(** The unset [--limit] of the command line is not the unset limit of
    [get_channel_videos]: argparse fills in 20. *)
Lemma cli_limit_default : cli_limit None = Some 20%Z.
Proof. reflexivity. Qed.

(** C10. Every video of a listing has a number for [duration] and for
    [views]: the value that the entry delivered at the position [index]
    has, and 0 when this entry has none or has [None]. A duration that is
    missing, [None] or 0 reads "0:00"; any other reads H:MM:SS when its
    whole seconds make an hour or more and M:SS below, the MM and SS fields
    being two digits. *)
Theorem video_numbers_and_duration_text {U : Unicode} (limit : option Z)
  (sort_by : str) (term : option str) (content : str) (wd : bool) (f : fetched)
  (l : listing) (v : video) :
  get_channel_videos limit sort_by term content wd f = Listing l ->
  In v (videos l) ->
  exists i entries e,
    f = Returned (Some i)
    /\ i_entries i = Val entries
    /\ nth_error entries (index v - 1) = Some (Some e)
    /\ 1 <= index v
    /\ v = make_video wd (index v - 1) e
    /\ duration v = match e_duration e with
                    | Val d => if is_zero d then 0%Q else d
                    | Missing | Null => 0%Q
                    end
    /\ views v = match e_view_count e with
                 | Val n => n
                 | Missing | Null => 0%Z
                 end
    /\ ((e_duration e = Missing \/ e_duration e = Null
         \/ exists d, e_duration e = Val d /\ (d == 0)%Q) ->
        duration v = 0%Q /\ duration_human v = lit "0:00")
    /\ (forall d, e_duration e = Val d -> ~ (d == 0)%Q ->
        duration v = d
        /\ ((3600 <= int d)%Z ->
            duration_human v
            = decimal (int d / 3600) ++ lit ":"
              ++ two_digits ((int d mod 3600) / 60) ++ lit ":"
              ++ two_digits (int d mod 60))
        /\ ((int d < 3600)%Z ->
            duration_human v
            = decimal ((int d mod 3600) / 60) ++ lit ":"
              ++ two_digits (int d mod 60)))
    /\ (is_zero (duration v) = true -> duration_human v = lit "0:00")
    /\ (is_zero (duration v) = false -> (3600 <= int (duration v))%Z ->
        duration_human v
        = decimal (int (duration v) / 3600) ++ lit ":"
          ++ two_digits ((int (duration v) mod 3600) / 60) ++ lit ":"
          ++ two_digits (int (duration v) mod 60))
    /\ (is_zero (duration v) = false -> (int (duration v) < 3600)%Z ->
        duration_human v
        = decimal ((int (duration v) mod 3600) / 60) ++ lit ":"
          ++ two_digits (int (duration v) mod 60)).
Proof.
  intros H Hin.
  destruct (listing_run _ _ _ _ _ _ _ H) as (i & entries & _ & -> & Hrun & _).
  destruct (entries_of _ _ Hrun) as (Hval & _ & He).
  destruct (listing_video_source _ _ _ _ _ _ _ _ H Hin)
    as (entries' & e & He' & Hnth & Hpos & Hv).
  rewrite He in He'. injection He' as <-.
  exists i, entries, e.
  split; [reflexivity|]. split; [exact Hval|]. split; [exact Hnth|].
  split; [exact Hpos|]. split; [exact Hv|].
  assert (Hd : duration v = number_or_zero (get (e_duration e)))
    by (rewrite Hv; reflexivity).
  assert (Hh : duration_human v = _format_duration (get (e_duration e)))
    by (rewrite Hv; reflexivity).
  assert (Hn : views v = or_zero (get (e_view_count e))) by (rewrite Hv; reflexivity).
  rewrite Hh, Hn, Hd. clear Hv Hh Hn Hd Hnth Hpos.
  split; [now destruct (e_duration e) | split; [now destruct (e_view_count e)|]].
  assert (Hfmt : forall d, is_zero d = false ->
            ((3600 <= int d)%Z ->
             _format_duration (Some d)
             = decimal (int d / 3600) ++ lit ":"
               ++ two_digits ((int d mod 3600) / 60) ++ lit ":"
               ++ two_digits (int d mod 60))
            /\ ((int d < 3600)%Z ->
                _format_duration (Some d)
                = decimal ((int d mod 3600) / 60) ++ lit ":"
                  ++ two_digits (int d mod 60))).
  { intros d Hz. cbn [_format_duration]. rewrite Hz. set (s := int d).
    assert (Hm : (0 <= (s mod 3600) / 60 < 60)%Z).
    { pose proof (Z.mod_pos_bound s 3600 eq_refl).
      split; [apply Z.div_pos; lia | apply Z.div_lt_upper_bound; lia]. }
    assert (Hs : (0 <= s mod 60 < 60)%Z) by (apply Z.mod_pos_bound; lia).
    split; intros Hd.
    - assert (Hh : (s / 3600 >? 0)%Z = true).
      { apply Z.gtb_lt. apply Z.div_str_pos. lia. }
      rewrite Hh, !format_02d_two_digits by assumption. reflexivity.
    - assert (Hh : (s / 3600 >? 0)%Z = false).
      { rewrite Z.gtb_ltb. apply Z.ltb_ge.
        pose proof (Z.div_lt_upper_bound s 3600 1). lia. }
      rewrite Hh, format_02d_two_digits by assumption. reflexivity. }
  assert (Hzero : forall d, is_zero d = true <-> (d == 0)%Q)
    by (intros d; apply Qeq_bool_iff).
  split; [|split].
  - intros [-> | [-> | (d & -> & Hd)]]; [now split | now split |].
    apply Hzero in Hd. cbn [get number_or_zero _format_duration].
    now rewrite Hd.
  - intros d -> Hd.
    assert (Hz : is_zero d = false).
    { destruct (is_zero d) eqn:E; [|reflexivity]. elim Hd. now apply Hzero. }
    cbn [get number_or_zero]. rewrite Hz. split; [reflexivity|].
    exact (Hfmt d Hz).
  - destruct (e_duration e) as [| |d]; cbn [get number_or_zero];
      try (repeat split; intros; (reflexivity || discriminate)).
    destruct (is_zero d) eqn:Hz.
    + cbn [_format_duration]. rewrite Hz.
      repeat split; intros; (reflexivity || discriminate).
    + split; [intros Hd; rewrite Hz in Hd; discriminate|].
      destruct (Hfmt d Hz) as [Hlong Hshort].
      split; intros _ Hd; [exact (Hlong Hd)|exact (Hshort Hd)].
Qed.

Lemma video_numbers_and_duration_text_witness :
  (exists l v,
     get_channel_videos (U := basic_latin) None (lit "views") None (lit "videos")
       false example_channel = Listing l
     /\ nth_error (videos l) 1 = Some v
     /\ index v = 1
     /\ duration v = (7451 # 2)%Q
     /\ views v = 10%Z
     /\ duration_human v = lit "1:02:05"
     /\ exists i entries e,
          example_channel = Returned (Some i)
          /\ i_entries i = Val entries
          /\ nth_error entries (index v - 1) = Some (Some e)
          /\ duration v = match e_duration e with
                          | Val d => if is_zero d then 0%Q else d
                          | Missing | Null => 0%Q
                          end)
  /\ (exists l v w,
        get_channel_videos (U := basic_latin) None (lit "recency") None
          (lit "videos") false Examples.bare_channel = Listing l
        /\ videos l = [v; w]
        /\ duration v = 0%Q /\ views v = 0%Z /\ duration_human v = lit "0:00"
        /\ duration w = 0%Q /\ views w = 0%Z /\ duration_human w = lit "0:00"
        /\ exists i entries e,
             Examples.bare_channel = Returned (Some i)
             /\ i_entries i = Val entries
             /\ nth_error entries (index v - 1) = Some (Some e)
             /\ e_duration e = Missing
             /\ duration v = match e_duration e with
                             | Val d => if is_zero d then 0%Q else d
                             | Missing | Null => 0%Q
                             end).
Proof.
  split.
  - eexists. eexists. split; [vm_compute; reflexivity|].
    split; [reflexivity|]. split; [reflexivity|]. split; [reflexivity|].
    split; [reflexivity|]. split; [reflexivity|].
    edestruct (video_numbers_and_duration_text (U := basic_latin) None (lit "views")
                 None (lit "videos") false example_channel)
      as (i & entries & e & Hf & Hval & Hnth & _ & _ & Hd & _);
      [vm_compute; reflexivity | |
       exists i, entries, e; repeat split; [exact Hf|exact Hval|exact Hnth|exact Hd]].
    right. left. reflexivity.
  - eexists. eexists. eexists. split; [vm_compute; reflexivity|].
    split; [reflexivity|].
    do 6 (split; [reflexivity|]).
    edestruct (video_numbers_and_duration_text (U := basic_latin) None
                 (lit "recency") None (lit "videos") false Examples.bare_channel)
      as (i & entries & e & Hf & Hval & Hnth & _ & _ & Hd & _);
      [vm_compute; reflexivity | |
       exists i, entries, e; repeat split;
       [exact Hf|exact Hval|exact Hnth| |exact Hd]].
    + left. reflexivity.
    + injection Hf as <-. injection Hval as <-.
      injection Hnth as <-. reflexivity.
Defined.

End ChannelFacts.

(* ===================================================================== *)
(** * Properties of the transcript extractor *)
(* ===================================================================== *)

Module TranscriptFacts.
Import PyStr PyStrFacts Transcript.

(** ** [extract_video_id] *)

Lemma match_id_app (video_id after : str) :
  is_video_id video_id -> match_id (video_id ++ after) = Some video_id.
Proof.
  intros [Hlen Hchars]. unfold match_id.
  assert (Hf : firstn 11 (video_id ++ after) = video_id).
  { rewrite <- Hlen, firstn_app, Nat.sub_diag, firstn_all. simpl. apply app_nil_r. }
  now rewrite Hf, Hlen, Hchars.
Qed.

Lemma match_id_inv (s video_id : str) :
  match_id s = Some video_id ->
  is_video_id video_id /\ exists after, s = video_id ++ after.
Proof.
  unfold match_id. destruct (_ && _) eqn:H; [|discriminate].
  intros [= <-]. apply andb_prop in H as [Hlen Hchars].
  apply Nat.eqb_eq in Hlen. split; [now split|].
  exists (skipn 11 s). exact (eq_sym (firstn_skipn 11 s)).
Qed.

Lemma match_here_inv (alternatives : list str) (s video_id : str) :
  match_here alternatives s = Some video_id ->
  exists p after,
    In p alternatives /\ is_video_id video_id /\ s = p ++ video_id ++ after.
Proof.
  induction alternatives as [|p rest IH]; [discriminate|]. simpl.
  assert (Hrest : match_here rest s = Some video_id ->
                  exists p0 after, In p0 (p :: rest) /\ is_video_id video_id
                                   /\ s = p0 ++ video_id ++ after).
  { intros H. destruct (IH H) as (p0 & after & Hin & Hid & Hs).
    exists p0, after. auto using in_cons. }
  destruct (strip_prefix p s) as [r|] eqn:Hp; [|exact Hrest].
  destruct (match_id r) as [found|] eqn:Hr; [|exact Hrest].
  intros [= ->]. destruct (match_id_inv _ _ Hr) as (Hid & after & ->).
  exists p, after. split; [now left | split; [exact Hid|]].
  now apply strip_prefix_inv.
Qed.

Lemma match_here_complete (alternatives : list str) (p video_id after : str) :
  In p alternatives -> is_video_id video_id ->
  exists found, match_here alternatives (p ++ video_id ++ after) = Some found.
Proof.
  intros Hin Hid. induction alternatives as [|q rest IH]; [contradiction|].
  simpl. destruct Hin as [-> | Hin].
  - rewrite strip_prefix_app, (match_id_app _ after Hid). now exists video_id.
  - destruct (strip_prefix q _) as [r|]; [|now apply IH].
    destruct (match_id r) as [found|]; [now exists found | now apply IH].
Qed.

Lemma search_inv (alternatives : list str) (url video_id : str) :
  search alternatives url = Some video_id ->
  exists p, In p alternatives /\ id_after p url video_id.
Proof.
  induction url as [|c url IH]; simpl.
  - destruct (match_here alternatives []) as [found|] eqn:H; [|discriminate].
    intros [= ->]. destruct (match_here_inv _ _ _ H) as (p & after & Hin & Hid & Hs).
    exists p. split; [exact Hin | split; [exact Hid|]]. now exists [], after.
  - destruct (match_here alternatives (c :: url)) as [found|] eqn:H.
    + intros [= ->]. destruct (match_here_inv _ _ _ H) as (p & after & Hin & Hid & Hs).
      exists p. split; [exact Hin | split; [exact Hid|]]. now exists [], after.
    + intros Hs. destruct (IH Hs) as (p & Hin & Hid & before & after & ->).
      exists p. split; [exact Hin | split; [exact Hid|]]. now exists (c :: before), after.
Qed.

Lemma search_complete (alternatives : list str) (p url video_id : str) :
  In p alternatives -> id_after p url video_id ->
  exists found, search alternatives url = Some found.
Proof.
  intros Hin (Hid & before & after & ->).
  induction before as [|c before IH].
  - destruct (match_here_complete _ _ _ after Hin Hid) as (found & Hfound).
    exists found. simpl app.
    destruct (p ++ video_id ++ after); simpl; now rewrite Hfound.
  - simpl. destruct (match_here alternatives _) as [found|]; [now exists found | exact IH].
Qed.

Lemma search_None (alternatives : list str) (url : str) :
  search alternatives url = None <->
  forall p video_id, In p alternatives -> ~ id_after p url video_id.
Proof.
  split.
  - intros Hnone p video_id Hin Hid.
    destruct (search_complete _ _ _ _ Hin Hid) as (found & Hfound). congruence.
  - intros Hno. destruct (search alternatives url) as [found|] eqn:H; [|reflexivity].
    destruct (search_inv _ _ _ H) as (p & Hin & Hid). now elim (Hno p found).
Qed.

(** An ID after a prefix that ends in a slash is an ID after a slash. *)
Lemma id_after_slash (prefix url video_id : str) :
  id_after (prefix ++ lit "/") url video_id -> id_after (lit "/") url video_id.
Proof.
  intros (Hid & before & after & ->). split; [exact Hid|].
  exists (before ++ prefix), after. now rewrite <- !app_assoc.
Qed.

Lemma first_match_spec (ps : list (list str)) (url video_id : str) :
  first_match ps url = Some video_id <->
  exists earlier alternatives later,
    ps = earlier ++ alternatives :: later
    /\ Forall (fun q => search q url = None) earlier
    /\ search alternatives url = Some video_id.
Proof.
  induction ps as [|p ps IH]; simpl.
  - split; [discriminate|]. intros (earlier & a & later & H & _). now destruct earlier.
  - destruct (search p url) as [found|] eqn:Hp.
    + split.
      * intros [= ->]. exists [], p, ps. auto.
      * intros ([|q earlier] & a & later & Heq & Hall & Hs); injection Heq as <- ->.
        -- congruence.
        -- inversion Hall; congruence.
    + rewrite IH. split.
      * intros (earlier & a & later & -> & Hall & Hs).
        exists (p :: earlier), a, later. auto.
      * intros ([|q earlier] & a & later & Heq & Hall & Hs); injection Heq as <- ->.
        -- congruence.
        -- inversion Hall; subst. now exists earlier, a, later.
Qed.

(** C5. The three patterns are tried in order and the first that matches
    anywhere in the URL gives the ID. A URL with eleven ID characters after
    [v=], [embed/] or [youtu.be/] has its extraction succeed, and [main] goes
    on; a URL in which no pattern matches has it fail, and [main] writes the
    invalid-URL error and exits with status 1. *)
Theorem extract_video_id_first_match (url : str) :
  (forall video_id,
     extract_video_id url = Some video_id <->
     exists earlier alternatives later,
       patterns = earlier ++ alternatives :: later
       /\ Forall (fun q => search q url = None) earlier
       /\ search alternatives url = Some video_id)
  /\ (forall prefix video_id,
        In prefix [lit "v="; lit "embed/"; lit "youtu.be/"] ->
        id_after prefix url video_id ->
        exists found,
          extract_video_id url = Some found
          /\ is_video_id found
          /\ validate url = Proceed found)
  /\ ((forall alternatives prefix video_id,
         In alternatives patterns -> In prefix alternatives ->
         ~ id_after prefix url video_id) ->
      extract_video_id url = None
      /\ validate url = Exit 1 (lit "Error: Invalid YouTube URL")).
Proof.
  split; [intros video_id; apply first_match_spec | split].
  - intros prefix video_id Hin Hid.
    assert (Hfirst : exists p, In p [lit "v="; lit "/"] /\ id_after p url video_id).
    { destruct Hin as [<- | [<- | [<- | []]]].
      - exists (lit "v="). split; [now left | exact Hid].
      - exists (lit "/"). split; [right; now left|].
        now apply (id_after_slash (lit "embed")).
      - exists (lit "/"). split; [right; now left|].
        now apply (id_after_slash (lit "youtu.be")). }
    destruct Hfirst as (p & Hp & Hid').
    destruct (search_complete _ _ _ _ Hp Hid') as (found & Hfound).
    destruct (search_inv _ _ _ Hfound) as (_ & _ & (Hlen & Hchars) & _).
    assert (He : extract_video_id url = Some found).
    { unfold extract_video_id, patterns. simpl. now rewrite Hfound. }
    exists found. split; [exact He | split; [now split|]].
    unfold validate. rewrite He. destruct found; [discriminate | reflexivity].
  - intros Hnone.
    assert (He : extract_video_id url = None).
    { unfold extract_video_id, patterns. simpl.
      rewrite !(proj2 (search_None _ url)); [reflexivity| | |];
        intros p video_id Hp; eapply Hnone; eauto; simpl; auto. }
    split; [exact He|]. unfold validate. now rewrite He.
Qed.

Lemma extract_video_id_first_match_witness :
  (exists found,
     extract_video_id (lit "https://www.youtube.com/watch?v=dQw4w9WgXcQ") = Some found
     /\ is_video_id found
     /\ validate (lit "https://www.youtube.com/watch?v=dQw4w9WgXcQ") = Proceed found)
  /\ (extract_video_id (lit "https://example.com/") = None
      /\ validate (lit "https://example.com/")
         = Exit 1 (lit "Error: Invalid YouTube URL")).
Proof.
  split.
  - apply (proj1 (proj2 (extract_video_id_first_match _)) (lit "v=") (lit "dQw4w9WgXcQ")).
    + left. reflexivity.
    + split; [split; reflexivity|].
      exists (lit "https://www.youtube.com/watch?"), []. reflexivity.
  - apply (proj2 (proj2 (extract_video_id_first_match _))).
    intros alternatives prefix video_id Halt.
    apply (proj1 (search_None alternatives (lit "https://example.com/"))).
    destruct Halt as [<- | [<- | [<- | []]]]; vm_compute; reflexivity.
Defined.

(** ** Caption maps *)

Section DictFacts.
Context {V : Type}.

Lemma dict_get_set (k k' : str) (v : V) (d : dict V) :
  dict_get k (dict_set k' v d) = if str_eq_dec k k' then Some v else dict_get k d.
Proof.
  induction d as [|[k0 v0] d IH]; simpl.
  - reflexivity.
  - destruct (str_eq_dec k' k0) as [-> | Hne]; simpl.
    + destruct (str_eq_dec k k0); reflexivity.
    + rewrite IH. destruct (str_eq_dec k k0) as [-> | Hk0]; [|reflexivity].
      destruct (str_eq_dec k0 k'); [congruence | reflexivity].
Qed.

Lemma dict_get_not_key (k : str) (d : dict V) :
  ~ In k (keys d) -> dict_get k d = None.
Proof.
  induction d as [|[k0 v0] d IH]; simpl; [reflexivity|]. intros Hnot.
  destruct (str_eq_dec k k0) as [-> | _]; [elim Hnot; now left|].
  apply IH. intros Hin. apply Hnot. now right.
Qed.

Lemma dict_get_key (k : str) (d : dict V) :
  mem k d = true <-> In k (keys d).
Proof.
  unfold mem. induction d as [|[k0 v0] d IH]; simpl.
  - split; [discriminate | contradiction].
  - destruct (str_eq_dec k k0) as [-> | Hne].
    + split; auto.
    + rewrite IH. split; [now right | intros [H | H]; congruence].
Qed.

(** In [{**a, **b}] the value of a key is the one [b] gives it, and the one
    [a] gives it when [b] has none. *)
Lemma dict_get_merge (k : str) (a b : dict V) :
  well_formed b ->
  dict_get k (dict_merge a b)
  = match dict_get k b with
    | Some v => Some v
    | None => dict_get k a
    end.
Proof.
  unfold dict_merge, well_formed. revert a.
  induction b as [|[k0 v0] b IH]; intros a Hwf; simpl; [reflexivity|].
  inversion Hwf as [|? ? Hnot Hwf']; subst.
  rewrite (IH _ Hwf'), dict_get_set.
  destruct (str_eq_dec k k0) as [-> | Hne]; [|reflexivity].
  now rewrite (dict_get_not_key _ _ Hnot).
Qed.

Lemma keys_set (k : str) (v : V) (d : dict V) :
  keys (dict_set k v d) = if mem k d then keys d else keys d ++ [k].
Proof.
  unfold mem. induction d as [|[k0 v0] d IH]; simpl; [reflexivity|].
  destruct (str_eq_dec k k0) as [-> | Hne]; simpl; [reflexivity|].
  rewrite IH. now destruct (dict_get k d).
Qed.

(** The keys of [{**a, **b}]: those of [a] in their order, then the keys
    that only [b] has. *)
Lemma keys_merge (a b : dict V) :
  exists only_b, keys (dict_merge a b) = keys a ++ only_b.
Proof.
  unfold dict_merge. revert a. induction b as [|[k0 v0] b IH]; intros a; simpl.
  - exists []. now rewrite app_nil_r.
  - destruct (IH (dict_set k0 v0 a)) as (rest & ->). rewrite keys_set.
    destruct (mem k0 a); [now exists rest|].
    exists (k0 :: rest). now rewrite <- app_assoc.
Qed.

End DictFacts.

(** ** Language selection *)

Lemma contains_nil_r (p : str) : contains p [] = true -> p = [].
Proof. destruct p; [reflexivity | discriminate]. Qed.

Lemma find_first {A : Type} (f : A -> bool) (earlier : list A) (x : A) (later : list A) :
  (forall y, In y earlier -> f y = false) -> f x = true ->
  find f (earlier ++ x :: later) = Some x.
Proof.
  intros Hearlier Hx. induction earlier as [|y earlier IH]; simpl.
  - now rewrite Hx.
  - rewrite (Hearlier y) by now left. apply IH. intros z Hz. apply Hearlier. now right.
Qed.

Lemma find_none_iff {A : Type} (f : A -> bool) (l : list A) :
  (forall y, In y l -> f y = false) -> find f l = None.
Proof.
  induction l as [|y l IH]; intros H; simpl; [reflexivity|].
  rewrite (H y) by now left. apply IH. intros z Hz. apply H. now right.
Qed.

Lemma occurs_in_contains (p s : str) :
  occurs_in p s <-> contains p s = true.
Proof. unfold occurs_in. symmetry. apply contains_occurs. Qed.

Lemma not_occurs_in (p s : str) : ~ occurs_in p s <-> contains p s = false.
Proof.
  rewrite occurs_in_contains.
  destruct (contains p s); split; intro H;
    [exfalso; now apply H | discriminate | reflexivity | discriminate].
Qed.

Lemma not_In_keys {V : Type} (k : str) (d : dict V) :
  ~ In k (keys d) <-> mem k d = false.
Proof.
  rewrite <- dict_get_key.
  destruct (mem k d); split; intro H;
    [exfalso; now apply H | discriminate | reflexivity | discriminate].
Qed.

(** The language of a download is the selected one, and the available
    languages are the keys of the caption map. *)
Lemma download_selected {U : Unicode} (preferred : option str) (i : info)
  (captions : dict (list caption)) (lang : str) (available : list str)
  (caption_url caption_format : str) :
  all_captions i = Some captions ->
  get_transcript preferred (Returned i)
  = Download lang available caption_url caption_format ->
  select_language captions preferred (original_lang i) = Selected lang
  /\ available = keys captions.
Proof.
  intros Hall. unfold get_transcript. rewrite Hall.
  destruct captions as [|kv rest] eqn:Hcap; [discriminate|]. rewrite <- Hcap.
  destruct (select_language captions preferred (original_lang i))
    as [selected|p a|]; try discriminate.
  destruct (dict_get selected captions) as [tracks|]; [|discriminate].
  destruct (select_caption tracks); try discriminate.
  intros [= -> -> _ _]. auto.
Qed.

(** C6. With a preferred language: when it is a key of the merged caption
    map, it is selected, whatever other keys contain it; when it is no key,
    the first key in map order that contains it, both in lower case, is
    selected; when no key contains it, the response is the error that
    carries every available language code. The language of a download is
    the selected one. *)
Theorem preferred_language_selection {U : Unicode} (i : info)
  (captions : dict (list caption)) (preferred : str) :
  preferred <> [] ->
  all_captions i = Some captions ->
  captions <> [] ->
  (In preferred (keys captions) ->
   select_language captions (Some preferred) (original_lang i) = Selected preferred)
  /\ (~ In preferred (keys captions) ->
      forall earlier lang later,
        keys captions = earlier ++ lang :: later ->
        (forall l, In l earlier -> ~ occurs_in (lower preferred) (lower l)) ->
        occurs_in (lower preferred) (lower lang) ->
        select_language captions (Some preferred) (original_lang i) = Selected lang)
  /\ (~ In preferred (keys captions) ->
      (forall l, In l (keys captions) -> ~ occurs_in (lower preferred) (lower l)) ->
      select_language captions (Some preferred) (original_lang i)
      = NotFound preferred (keys captions)
      /\ get_transcript (Some preferred) (Returned i)
         = LanguageNotFound (lit "Language '" ++ preferred ++ lit "' not found")
             (keys captions))
  /\ (forall lang available caption_url caption_format,
        get_transcript (Some preferred) (Returned i)
        = Download lang available caption_url caption_format ->
        select_language captions (Some preferred) (original_lang i) = Selected lang
        /\ available = keys captions).
Proof.
  intros Hp Hall Hne.
  destruct preferred as [|c p]; [now elim Hp|].
  split; [|split; [|split]].
  - intros Hin. apply dict_get_key in Hin. unfold select_language.
    now rewrite Hin.
  - intros Hnot earlier lang later Hkeys Hearlier Hlang.
    apply not_In_keys in Hnot. apply occurs_in_contains in Hlang.
    assert (Hearlier' : forall l, In l earlier ->
              contains (lower (c :: p)) (lower l) = false)
      by (intros l Hl; now apply not_occurs_in, Hearlier).
    unfold select_language. rewrite Hnot.
    unfold partial_match. rewrite Hkeys, (find_first _ _ _ _ Hearlier' Hlang).
    destruct lang as [|l lang]; [|reflexivity].
    rewrite lower_nil in Hlang. apply contains_nil_r, lower_inv_nil in Hlang.
    discriminate.
  - intros Hnot Hnone. apply not_In_keys in Hnot.
    assert (Hnone' : forall l, In l (keys captions) ->
              contains (lower (c :: p)) (lower l) = false)
      by (intros l Hl; now apply not_occurs_in, Hnone).
    assert (Hs : select_language captions (Some (c :: p)) (original_lang i)
                 = NotFound (c :: p) (keys captions)).
    { unfold select_language, partial_match.
      now rewrite Hnot, (find_none_iff _ _ Hnone'). }
    split; [exact Hs|].
    unfold get_transcript. rewrite Hall.
    destruct captions as [|kv captions]; [now elim Hne|].
    unfold str in *. now rewrite Hs.
  - intros lang available caption_url caption_format.
    now apply download_selected.
Qed.

Lemma preferred_language_selection_witness :
  select_language Examples.english_captions (Some (lit "en"))
    (original_lang Examples.english_info) = Selected (lit "en")
  /\ select_language Examples.english_captions (Some (lit "US"))
       (original_lang Examples.english_info) = Selected (lit "en-US")
  /\ select_language example_captions (Some (lit "ZH")) (original_lang example_info)
     = Selected (lit "zh-Hant")
  /\ get_transcript (Some (lit "de")) (Returned example_info)
     = LanguageNotFound (lit "Language 'de' not found")
         [lit "en-orig"; lit "zh-Hant"; lit "fr"]
  /\ get_transcript (U := basic_latin) (Some (lit "en")) (Returned Examples.english_info)
     = Download (lit "en") [lit "en-US"; lit "en"] (lit "https://c/en") (lit "vtt").
Proof.
  assert (Hfree : forall p s : str, contains p s = false -> ~ occurs_in p s)
    by (intros p s H; now apply not_occurs_in).
  split; [|split; [|split; [|split]]].
  - apply (proj1 (preferred_language_selection (U := basic_latin)
                    Examples.english_info Examples.english_captions (lit "en")
                    ltac:(discriminate) eq_refl ltac:(discriminate))).
    simpl. auto.
  - apply (proj1 (proj2 (preferred_language_selection (U := basic_latin)
                           Examples.english_info Examples.english_captions
                           (lit "US") ltac:(discriminate) eq_refl
                           ltac:(discriminate)))
             ltac:(simpl; intros [H | [H | []]]; discriminate)
             [] (lit "en-US") [lit "en"] eq_refl).
    + intros l [].
    + exists (lit "en-"), []. reflexivity.
  - apply (proj1 (proj2 (preferred_language_selection (U := basic_latin) example_info
                           example_captions (lit "ZH") ltac:(discriminate) eq_refl
                           ltac:(discriminate)))
             ltac:(simpl; intros [H | [H | [H | []]]]; discriminate)
             [lit "en-orig"] (lit "zh-Hant") [lit "fr"] eq_refl).
    + intros l [<- | []]. now apply Hfree.
    + exists [], (lit "-hant"). reflexivity.
  - apply (proj1 (proj2 (proj2 (preferred_language_selection (U := basic_latin)
                                  example_info example_captions (lit "de")
                                  ltac:(discriminate) eq_refl ltac:(discriminate))))
             ltac:(simpl; intros [H | [H | [H | []]]]; discriminate)).
    intros l [<- | [<- | [<- | []]]]; now apply Hfree.
  - reflexivity.
Defined.

Lemma declares_original_lang (i : info) (o : str) :
  declares i o <-> original_lang i = Some o /\ o <> [].
Proof.
  unfold declares, original_lang. split.
  - intros (Ho & [Hl | ([Hl | [Hl | Hl]] & Hor)]); rewrite Hl; simpl;
      [destruct o; [now elim Ho|auto] | | |]; rewrite Hor; auto.
  - intros [H Ho]. split; [exact Ho|].
    destruct (language i) as [| |[|c l]]; simpl in H.
    + right. split; [auto|]. destruct (original_language i); try discriminate.
      now injection H as ->.
    + right. split; [auto|]. destruct (original_language i); try discriminate.
      now injection H as ->.
    + right. split; [auto|]. destruct (original_language i); try discriminate.
      now injection H as ->.
    + left. now injection H as <-.
Qed.

(** C7. The caption map is the automatic map overridden by the manual one:
    its languages are those of the two maps, and a language that both have
    gets the manual tracks. Without a preferred language the selection is
    the language the video declares (the value of [language], else of
    [original_language]) when it is a key of the map; else the first of
    [en], [en-US], [en-GB] that is a key; else the first key of the map.
    The language of a download is the selected one. *)
Theorem automatic_language_selection {U : Unicode} (i : info)
  (auto manual : dict (list caption)) (preferred : option str) :
  get_default (automatic_captions i) [] = Some auto ->
  get_default (subtitles i) [] = Some manual ->
  well_formed manual ->
  preferred = None \/ preferred = Some [] ->
  all_captions i = Some (dict_merge auto manual)
  /\ (forall k,
        In k (keys (dict_merge auto manual))
        <-> In k (keys auto) \/ In k (keys manual))
  /\ (forall k,
        dict_get k (dict_merge auto manual)
        = match dict_get k manual with
          | Some tracks => Some tracks
          | None => dict_get k auto
          end)
  /\ (forall k tracks,
        In k (keys manual) -> dict_get k manual = Some tracks ->
        dict_get k (dict_merge auto manual) = Some tracks)
  /\ (forall k,
        ~ In k (keys manual) ->
        dict_get k (dict_merge auto manual) = dict_get k auto)
  /\ (forall o,
        declares i o ->
        In o (keys (dict_merge auto manual)) ->
        select_language (dict_merge auto manual) preferred (original_lang i)
        = Selected o)
  /\ ((forall o, declares i o -> ~ In o (keys (dict_merge auto manual))) ->
      (forall earlier e later,
         [lit "en"; lit "en-US"; lit "en-GB"] = earlier ++ e :: later ->
         (forall x, In x earlier -> ~ In x (keys (dict_merge auto manual))) ->
         In e (keys (dict_merge auto manual)) ->
         select_language (dict_merge auto manual) preferred (original_lang i)
         = Selected e)
      /\ ((forall e, In e [lit "en"; lit "en-US"; lit "en-GB"] ->
                     ~ In e (keys (dict_merge auto manual))) ->
          forall first rest,
            keys (dict_merge auto manual) = first :: rest ->
            select_language (dict_merge auto manual) preferred (original_lang i)
            = Selected first))
  /\ (forall lang available caption_url caption_format,
        get_transcript preferred (Returned i)
        = Download lang available caption_url caption_format ->
        select_language (dict_merge auto manual) preferred (original_lang i)
        = Selected lang
        /\ available = keys (dict_merge auto manual)).
Proof.
  intros Hauto Hmanual Hwf Hpref.
  assert (Hall : all_captions i = Some (dict_merge auto manual))
    by (unfold all_captions; now rewrite Hauto, Hmanual).
  assert (Hget : forall k,
            dict_get k (dict_merge auto manual)
            = match dict_get k manual with
              | Some tracks => Some tracks
              | None => dict_get k auto
              end) by (intros k; now apply dict_get_merge).
  split; [exact Hall|].
  split.
  { intros k. rewrite <- !dict_get_key. unfold mem. rewrite Hget.
    destruct (dict_get k manual), (dict_get k auto); split; auto;
      intros [H | H]; auto; discriminate. }
  split; [exact Hget|].
  split; [intros k tracks _ Hk; now rewrite Hget, Hk|].
  split.
  { intros k Hk. rewrite Hget. now rewrite (dict_get_not_key k manual Hk). }
  split; [|split].
  2:{ set (captions := dict_merge auto manual).
      assert (Hsel : select_language captions preferred (original_lang i)
                     = select_language captions None (original_lang i))
        by (destruct Hpref as [-> | ->]; reflexivity).
      rewrite Hsel. clear Hsel Hpref. unfold select_language, english_match.
      intros Hdecl.
      assert (Horig : forall o, original_lang i = Some o -> o <> [] ->
                                mem o captions = false).
      { intros o Ho Hne. apply not_In_keys. apply Hdecl.
        now apply declares_original_lang. }
      split.
      - intros earlier e later Hlist Hearlier He.
        assert (Hfind : find (fun lang => mem lang captions)
                          [lit "en"; lit "en-US"; lit "en-GB"] = Some e).
        { rewrite Hlist. apply find_first.
          - intros y Hy. now apply not_In_keys, Hearlier.
          - now apply dict_get_key. }
        rewrite Hfind.
        assert (Hne : e <> []).
        { assert (Hin : In e [lit "en"; lit "en-US"; lit "en-GB"])
            by (rewrite Hlist; apply in_or_app; right; now left).
          destruct Hin as [<- | [<- | [<- | []]]]; discriminate. }
        destruct (original_lang i) as [[|c o]|]; destruct e as [|e0 e]; try tauto.
        now rewrite (Horig (c :: o) eq_refl ltac:(discriminate)).
      - intros Hnone first rest Hkeys.
        assert (Hfind : find (fun lang => mem lang captions)
                          [lit "en"; lit "en-US"; lit "en-GB"] = None).
        { apply find_none_iff. intros y Hy. now apply not_In_keys, Hnone. }
        rewrite Hfind, Hkeys.
        destruct (original_lang i) as [[|c o]|]; try reflexivity.
        now rewrite (Horig (c :: o) eq_refl ltac:(discriminate)). }
  2:{ intros lang available caption_url caption_format.
      now apply download_selected. }
  intros o Hdecl Hin. apply declares_original_lang in Hdecl.
  destruct Hdecl as [Ho Hne]. apply dict_get_key in Hin.
  assert (Hsel : select_language (dict_merge auto manual) preferred (original_lang i)
                 = select_language (dict_merge auto manual) None (original_lang i))
    by (destruct Hpref as [-> | ->]; reflexivity).
  rewrite Hsel. unfold select_language. rewrite Ho.
  destruct o as [|c o]; [now elim Hne|]. now rewrite Hin.
Qed.

Lemma example_manual_well_formed :
  well_formed [(lit "fr", [example_track (lit "vtt") (lit "https://c/4")])].
Proof. constructor; [intros [] | constructor]. Qed.

Lemma french_manual_well_formed : well_formed Examples.french_manual.
Proof. constructor; [intros [] | constructor]. Qed.

Lemma automatic_language_selection_witness :
  (all_captions (Examples.french_info (Val (lit "fr")) Missing)
   = Some (dict_merge Examples.french_auto Examples.french_manual)
   /\ keys (dict_merge Examples.french_auto Examples.french_manual)
      = [lit "en"; lit "fr"]
   /\ dict_get (lit "fr") (dict_merge Examples.french_auto Examples.french_manual)
      = Some [example_track (lit "vtt") (lit "https://c/m-fr")]
   /\ dict_get (lit "en") (dict_merge Examples.french_auto Examples.french_manual)
      = Some [example_track (lit "json3") (lit "https://c/a-en")]
   /\ select_language (U := basic_latin)
        (dict_merge Examples.french_auto Examples.french_manual) None
        (original_lang (Examples.french_info (Val (lit "fr")) Missing))
      = Selected (lit "fr")
   /\ get_transcript (U := basic_latin) None
        (Returned (Examples.french_info (Val (lit "fr")) Missing))
      = Download (lit "fr") [lit "en"; lit "fr"] (lit "https://c/m-fr") (lit "vtt"))
  /\ select_language (U := basic_latin)
       (dict_merge Examples.french_auto Examples.french_manual) None
       (original_lang (Examples.french_info Null (Val (lit "fr"))))
     = Selected (lit "fr")
  /\ select_language (U := basic_latin)
       (dict_merge Examples.french_auto Examples.french_manual) None
       (original_lang (Examples.french_info (Val (lit "de")) (Val (lit "fr"))))
     = Selected (lit "en")
  /\ (all_captions example_info = Some example_captions
      /\ select_language example_captions None (original_lang example_info)
         = Selected (lit "en-orig")).
Proof.
  split; [|split; [|split]].
  - destruct (automatic_language_selection (U := basic_latin)
                (Examples.french_info (Val (lit "fr")) Missing) _ _ None
                eq_refl eq_refl french_manual_well_formed (or_introl eq_refl))
      as (Hall & _ & _ & Hmanual & Hauto & Hdecl & _).
    split; [exact Hall|]. split; [reflexivity|].
    split; [apply (Hmanual (lit "fr")); [simpl; auto|reflexivity]|].
    split.
    { rewrite (Hauto (lit "en")); [reflexivity|].
      simpl. intros [H | []]. discriminate. }
    split; [|reflexivity].
    apply (Hdecl (lit "fr")).
    + split; [discriminate|]. now left.
    + simpl. auto.
  - destruct (automatic_language_selection (U := basic_latin)
                (Examples.french_info Null (Val (lit "fr"))) _ _ None
                eq_refl eq_refl french_manual_well_formed (or_introl eq_refl))
      as (_ & _ & _ & _ & _ & Hdecl & _).
    apply (Hdecl (lit "fr")).
    + split; [discriminate|]. right. split; [auto|reflexivity].
    + simpl. auto.
  - destruct (automatic_language_selection (U := basic_latin)
                (Examples.french_info (Val (lit "de")) (Val (lit "fr"))) _ _ None
                eq_refl eq_refl french_manual_well_formed (or_introl eq_refl))
      as (_ & _ & _ & _ & _ & _ & Hrest & _).
    apply (proj1 (Hrest ltac:(
             intros o (Ho & [H | ([H | [H | H]] & _)]); try discriminate H;
             injection H as <-; simpl; intros [E | [E | []]]; discriminate))
             [] (lit "en") [lit "en-US"; lit "en-GB"] eq_refl).
    + intros x [].
    + simpl. auto.
  - destruct (automatic_language_selection (U := basic_latin) example_info _ _ None
                eq_refl eq_refl example_manual_well_formed (or_introl eq_refl))
      as (Hall & _ & _ & _ & _ & _ & Hrest & _).
    split; [exact Hall|].
    apply (proj2 (Hrest ltac:(
             intros o (Ho & [H | ([H | [H | H]] & H')]); discriminate))
             ltac:(simpl; intros e [<- | [<- | [<- | []]]] [H | [H | [H | []]]];
                   discriminate)
             (lit "en-orig") [lit "zh-Hant"; lit "fr"] eq_refl).
Defined.

(** ** Caption format *)

(** A loop over tracks that all carry a URL ends at the first track, in list
    order, whose extension is wanted. *)
Lemma pick_first (wanted : str -> bool) (tracks : list caption) :
  Forall has_url tracks ->
  match find (has_ext wanted) tracks with
  | Some c => exists e u0 u, get (ext c) = Some e /\ url c = Val (u0 :: u)
                             /\ pick wanted tracks = Picked (Some (u0 :: u)) e
  | None => pick wanted tracks = Nothing
  end.
Proof.
  induction 1 as [|c tracks (u0 & u & Hu) _ IH]; simpl; [reflexivity|].
  unfold has_ext at 1. destruct (get (ext c)) as [e|] eqn:He; [|exact IH].
  destruct (wanted e); [|exact IH].
  exists e, u0, u. now rewrite Hu.
Qed.

Lemma has_ext_vtt (c : caption) :
  has_ext is_vtt c = true <-> ext c = Val (lit "vtt").
Proof.
  unfold has_ext, is_vtt. destruct (ext c) as [| |e]; simpl;
    [split; discriminate | split; discriminate |].
  destruct (str_eq_dec e (lit "vtt")) as [-> | Hne]; split; try reflexivity.
  - discriminate.
  - intros [= ->]. now elim Hne.
Qed.

Lemma has_ext_fallback (c : caption) :
  has_ext is_fallback c = true
  <-> exists e, ext c = Val e
                /\ In e [lit "srv1"; lit "srv2"; lit "srv3"; lit "json3"].
Proof.
  unfold has_ext, is_fallback. destruct (ext c) as [| |e]; simpl get.
  - split; [discriminate|]. intros (e & H & _). discriminate.
  - split; [discriminate|]. intros (e & H & _). discriminate.
  - split.
    + intros H. exists e. split; [reflexivity|].
      match type of H with
      | context [in_dec ?a ?b ?l] => destruct (in_dec a b l) as [Hin | _]
      end; [exact Hin | discriminate].
    + intros (e' & [= <-] & Hin).
      match goal with
      | |- context [in_dec ?a ?b ?l] => destruct (in_dec a b l) as [_ | Hout]
      end; [reflexivity | now elim Hout].
Qed.

Lemma not_true_false (b : bool) : b <> true -> b = false.
Proof. destruct b; [intros H; now elim H | reflexivity]. Qed.

(** C3 (as the code has it). Among tracks that carry a URL, the first VTT
    track is chosen when there is one; when there is none, the first track in
    the order of the caption list whose format is one of srv1, srv2, srv3,
    json3 is chosen, whichever of the four it is; when there is none either,
    the result is the missing-URL error. The same is said twice: with the
    tests of the loops, and with the [ext] values of the tracks and their
    places in the list. *)
Theorem caption_format_selection (tracks : list caption) :
  Forall has_url tracks ->
  (forall c,
     find (has_ext is_vtt) tracks = Some c ->
     exists u, url c = Val u /\ select_caption tracks = Chosen u (lit "vtt"))
  /\ (find (has_ext is_vtt) tracks = None ->
      (forall c,
         find (has_ext is_fallback) tracks = Some c ->
         exists e u,
           get (ext c) = Some e
           /\ In e [lit "srv1"; lit "srv2"; lit "srv3"; lit "json3"]
           /\ url c = Val u
           /\ select_caption tracks = Chosen u e)
      /\ (find (has_ext is_fallback) tracks = None ->
          select_caption tracks = NoUrl))
  /\ (forall earlier c later,
        tracks = earlier ++ c :: later ->
        ext c = Val (lit "vtt") ->
        (forall x, In x earlier -> ext x <> Val (lit "vtt")) ->
        exists u, url c = Val u /\ select_caption tracks = Chosen u (lit "vtt"))
  /\ ((forall x, In x tracks -> ext x <> Val (lit "vtt")) ->
      (forall earlier c later e,
         tracks = earlier ++ c :: later ->
         ext c = Val e ->
         In e [lit "srv1"; lit "srv2"; lit "srv3"; lit "json3"] ->
         (forall x e', In x earlier -> ext x = Val e' ->
                       ~ In e' [lit "srv1"; lit "srv2"; lit "srv3"; lit "json3"]) ->
         exists u, url c = Val u /\ select_caption tracks = Chosen u e)
      /\ ((forall x e', In x tracks -> ext x = Val e' ->
                        ~ In e' [lit "srv1"; lit "srv2"; lit "srv3"; lit "json3"]) ->
          select_caption tracks = NoUrl)).
Proof.
  intros Hurls.
  assert (Hfirst :
    (forall c,
       find (has_ext is_vtt) tracks = Some c ->
       exists u, url c = Val u /\ select_caption tracks = Chosen u (lit "vtt"))
    /\ (find (has_ext is_vtt) tracks = None ->
        (forall c,
           find (has_ext is_fallback) tracks = Some c ->
           exists e u,
             get (ext c) = Some e
             /\ In e [lit "srv1"; lit "srv2"; lit "srv3"; lit "json3"]
             /\ url c = Val u
             /\ select_caption tracks = Chosen u e)
        /\ (find (has_ext is_fallback) tracks = None ->
            select_caption tracks = NoUrl))).
  { unfold select_caption.
    pose proof (pick_first is_vtt tracks Hurls) as Hvtt.
    pose proof (pick_first is_fallback tracks Hurls) as Hfb.
    split.
    - intros c Hc. rewrite Hc in Hvtt.
      destruct Hvtt as (e & u0 & u & He & Hu & ->).
      exists (u0 :: u). split; [exact Hu|].
      apply find_some in Hc as [_ Hc]. unfold has_ext in Hc. rewrite He in Hc.
      unfold is_vtt in Hc. destruct (str_eq_dec e (lit "vtt")) as [-> | _];
        [reflexivity | discriminate].
    - intros Hnone. rewrite Hnone in Hvtt. rewrite Hvtt. split.
      + intros c Hc. rewrite Hc in Hfb.
        destruct Hfb as (e & u0 & u & He & Hu & ->).
        exists e, (u0 :: u). repeat split; auto.
        apply find_some in Hc as [_ Hc]. unfold has_ext in Hc. rewrite He in Hc.
        unfold is_fallback in Hc. now destruct (in_dec _ _ _).
      + intros Hnone'. rewrite Hnone' in Hfb. now rewrite Hfb. }
  destruct Hfirst as [Hvtt Hrest].
  split; [exact Hvtt|]. split; [exact Hrest|]. split.
  - intros earlier c later -> Hc Hearlier.
    apply Hvtt. apply find_first.
    + intros x Hx. apply not_true_false. intros H.
      apply has_ext_vtt in H. now apply (Hearlier x).
    + now apply has_ext_vtt.
  - intros Hnovtt.
    assert (Hnone : find (has_ext is_vtt) tracks = None).
    { apply find_none_iff. intros x Hx. apply not_true_false. intros H.
      apply has_ext_vtt in H. now apply (Hnovtt x). }
    destruct (Hrest Hnone) as [Hfb Hnourl]. split.
    + intros earlier c later e Htracks Hc He Hearlier.
      destruct (Hfb c) as (e' & u & He' & _ & Hu & Hs).
      * rewrite Htracks. apply find_first.
        -- intros x Hx. apply not_true_false. intros H.
           apply has_ext_fallback in H. destruct H as (e' & Hx' & Hin).
           now apply (Hearlier x e').
        -- apply has_ext_fallback. now exists e.
      * rewrite Hc in He'. injection He' as <-. now exists u.
    + intros Hnofb. apply Hnourl. apply find_none_iff.
      intros x Hx. apply not_true_false. intros H.
      apply has_ext_fallback in H. destruct H as (e' & Hx' & Hin).
      now apply (Hnofb x e').
Qed.

Lemma example_tracks_have_url :
  Forall has_url [example_track (lit "json3") (lit "https://c/1");
                  example_track (lit "srv1") (lit "https://c/2")].
Proof.
  constructor; [do 2 eexists; reflexivity|].
  constructor; [do 2 eexists; reflexivity | constructor].
Qed.

Lemma example_vtt_tracks_have_url :
  Forall has_url [example_track (lit "json3") (lit "https://c/1");
                  example_track (lit "vtt") (lit "https://c/3");
                  example_track (lit "srv1") (lit "https://c/2")].
Proof.
  repeat (constructor; [do 2 eexists; reflexivity|]). constructor.
Qed.

Lemma caption_format_selection_witness :
  (exists e u,
     In e [lit "srv1"; lit "srv2"; lit "srv3"; lit "json3"]
     /\ select_caption [example_track (lit "json3") (lit "https://c/1");
                        example_track (lit "srv1") (lit "https://c/2")]
        = Chosen u e)
  /\ (exists u,
        url (example_track (lit "vtt") (lit "https://c/3")) = Val u
        /\ select_caption [example_track (lit "json3") (lit "https://c/1");
                           example_track (lit "vtt") (lit "https://c/3");
                           example_track (lit "srv1") (lit "https://c/2")]
           = Chosen u (lit "vtt"))
  /\ select_caption [example_track (lit "json3") (lit "https://c/1");
                     example_track (lit "vtt") (lit "https://c/3");
                     example_track (lit "srv1") (lit "https://c/2")]
     = Chosen (lit "https://c/3") (lit "vtt").
Proof.
  split; [|split; [|reflexivity]].
  - destruct (proj1 (proj1 (proj2 (caption_format_selection _
                                     example_tracks_have_url)) eq_refl)
                _ eq_refl) as (e & u & _ & Hin & _ & Hs).
    now exists e, u.
  - apply (proj1 (proj2 (proj2 (caption_format_selection _
                                  example_vtt_tracks_have_url)))
             [example_track (lit "json3") (lit "https://c/1")]
             (example_track (lit "vtt") (lit "https://c/3"))
             [example_track (lit "srv1") (lit "https://c/2")] eq_refl eq_refl).
    intros x [<- | []]. discriminate.
Defined.

(** C3, as stated, fails: with a json3 track listed before an srv1 track
    and no VTT track, json3 is chosen although srv1 comes first in the
    stated preference; with the two tracks swapped, srv1 is chosen. *)
Lemma fallback_format_follows_list_order :
  select_caption [example_track (lit "json3") (lit "https://c/1");
                  example_track (lit "srv1") (lit "https://c/2")]
  = Chosen (lit "https://c/1") (lit "json3")
  /\ select_caption [example_track (lit "srv1") (lit "https://c/2");
                     example_track (lit "json3") (lit "https://c/1")]
     = Chosen (lit "https://c/2") (lit "srv1")
  /\ get_transcript (U := basic_latin) (Some (lit "en")) (Returned example_info)
     = Download (lit "en-orig") [lit "en-orig"; lit "zh-Hant"; lit "fr"]
         (lit "https://c/1") (lit "json3").
Proof. repeat split; vm_compute; reflexivity. Qed.

End TranscriptFacts.

(* ===================================================================== *)
(** * Properties of the search result parser *)
(* ===================================================================== *)

Module SearchFacts.
Import PyStr PyStrFacts Search.

(** ** Cutting a line *)

Lemma at_end_cases (s : str) : at_end s = true -> s = [] \/ s = [newline].
Proof.
  destruct s as [|c [|d s]]; simpl; intros H; try discriminate; auto.
  apply N.eqb_eq in H. subst. now right.
Qed.

(** What [sub_to_end] leaves: the text before the cut, and the newline that
    ends the text when there is one. *)
Lemma sub_to_end_shape (head : str -> option str) (s : str) :
  (forall t after, head t = Some after -> exists m, t = m ++ after) ->
  exists kept cut rest,
    s = kept ++ cut ++ rest
    /\ sub_to_end head s = kept ++ rest
    /\ (rest = [] \/ rest = [newline]).
Proof.
  intros Hhead. induction s as [|c s IH].
  - simpl. destruct (head []) as [after|] eqn:Hh.
    + destruct (Hhead _ _ Hh) as (m & Hm).
      symmetry in Hm. apply app_eq_nil in Hm as [-> ->].
      exists [], [], []. auto.
    + exists [], [], []. auto.
  - simpl. destruct (head (c :: s)) as [after|] eqn:Hh.
    + destruct (dot_star_end after) as [rest|] eqn:Hd.
      * unfold dot_star_end in Hd.
        destruct (at_end _) eqn:He; [|discriminate]. injection Hd as <-.
        destruct (Hhead _ _ Hh) as (m & ->).
        exists [], (m ++ fst (span (fun c => negb (c =? newline)%N) after)),
          (snd (span (fun c => negb (c =? newline)%N) after)).
        split; [|split; [reflexivity | now apply at_end_cases]].
        simpl. rewrite <- app_assoc. f_equal. apply span_app.
      * destruct IH as (kept & cut & rest & -> & -> & Hrest).
        exists (c :: kept), cut, rest. auto.
    + destruct IH as (kept & cut & rest & -> & -> & Hrest).
      exists (c :: kept), cut, rest. auto.
Qed.

Lemma one_of_suffix (set : list char) (t after : str) :
  one_of set t = Some after -> exists m, t = m ++ after.
Proof.
  destruct t as [|c t]; simpl; [discriminate|].
  destruct (existsb (N.eqb c) set); [|discriminate].
  intros [= <-]. now exists [c].
Qed.

(** A text without a newline that occurs in the cut text occurs in the
    text that was cut. *)
Lemma contains_clean_url (d url : str) :
  d <> [] -> ~ In newline d ->
  contains d (clean_url url) = true -> contains d url = true.
Proof.
  intros Hd Hnl. unfold clean_url.
  destruct (sub_to_end_shape (one_of [35; 63]%N) url (one_of_suffix _))
    as (kept & cut & rest & -> & -> & Hrest).
  rewrite !contains_occurs. intros (before & after & H).
  destruct Hrest as [-> | ->].
  - rewrite app_nil_r in *. subst kept.
    exists before, (after ++ cut). now rewrite <- !app_assoc.
  - destruct after as [|a after] using rev_ind.
    + rewrite app_nil_r in H.
      destruct d as [|d0 d] using rev_ind; [now elim Hd|].
      rewrite app_assoc in H. apply app_inj_tail in H as [_ <-].
      elim Hnl. apply in_or_app. right. now left.
    + rewrite !app_assoc in H. apply app_inj_tail in H as [-> _].
      exists before, (after ++ cut ++ [newline]). now rewrite <- !app_assoc.
Qed.

(** ** Headers *)

Lemma match_link_http (s u : str) :
  match_link s = Some u -> exists rest, u = 104%N :: rest.
Proof.
  unfold match_link. destruct (strip_prefix _ s) as [target|]; [|discriminate].
  destruct (startswith (lit "https://") target).
  - destruct (span _ _) as [[|b body] [|r rest]]; try discriminate.
    destruct (at_end rest); [|discriminate]. intros [= <-]. now eexists.
  - destruct (startswith (lit "http://") target); [|discriminate].
    destruct (span _ _) as [[|b body] [|r rest]]; try discriminate.
    destruct (at_end rest); [|discriminate]. intros [= <-]. now eexists.
Qed.

Lemma longest_title_http (s t u : str) :
  longest_title s = Some (t, u) -> exists rest, u = 104%N :: rest.
Proof.
  revert t. induction s as [|c s IH]; intros t; simpl; [discriminate|].
  destruct (if (c =? newline)%N then None else longest_title s) as [[t' u']|] eqn:Hl.
  - intros [= <- <-]. destruct (c =? newline)%N; [discriminate|]. now apply (IH t').
  - destruct (match_link (c :: s)) as [u'|] eqn:Hm; [|discriminate].
    intros [= <- <-]. now apply (match_link_http _ _ Hm).
Qed.

(** The URL of a header starts with [h]: it is an [http] or [https] URL. *)
Lemma result_pattern_http (line t u : str) :
  result_pattern line = Some (t, u) -> exists rest, u = 104%N :: rest.
Proof.
  unfold result_pattern. destruct (strip_prefix _ line) as [s|]; [|discriminate].
  destruct (longest_title s) as [[[|c t'] u']|] eqn:Hl; try discriminate.
  intros [= <- <-]. now apply (longest_title_http _ _ _ Hl).
Qed.

(** ** The description scan *)

Section WithUnicode.
Context {U : Unicode}.

Lemma first_description_cons (l : str) (window : list str) :
  first_description (l :: window)
  = if is_stop (strip l) then []
    else if is_noise (strip l) then first_description window
    else if 30 <? length (clean_description (strip l))
         then clean_description (strip l)
         else first_description window.
Proof.
  unfold first_description. simpl.
  destruct (is_stop (strip l)); [reflexivity|]. simpl.
  destruct (is_noise (strip l)); [reflexivity|]. simpl.
  now destruct (30 <? length (clean_description (strip l))).
Qed.

Lemma skipn_nth (lines : list str) :
  forall a, a < length lines ->
  skipn a lines = nth a lines [] :: skipn (S a) lines.
Proof.
  induction lines as [|l lines IH]; intros a Ha; simpl in Ha; [lia|].
  destruct a as [|a]; [reflexivity|]. simpl. apply IH. lia.
Qed.

(** The loop over [range(a, a + n)] reads the [n] lines from [a] on. *)
Lemma scan_window (lines : list str) :
  forall n a, a + n <= length lines ->
  scan lines (seq a n) = first_description (firstn n (skipn a lines)).
Proof.
  induction n as [|n IH]; intros a Ha; [reflexivity|].
  rewrite (skipn_nth lines a) by lia. simpl seq. simpl firstn.
  rewrite first_description_cons. simpl scan.
  now rewrite (IH (S a)) by lia.
Qed.

Lemma find_description_window (lines : list str) (i : nat) :
  find_description lines i = first_description (firstn 9 (skipn (i + 1) lines)).
Proof.
  unfold find_description.
  destruct (Nat.le_gt_cases (i + 10) (length lines)) as [Hlong | Hshort].
  - rewrite Nat.min_l by exact Hlong.
    replace (i + 10 - (i + 1)) with 9 by lia. apply scan_window. lia.
  - rewrite Nat.min_r by lia.
    destruct (Nat.le_gt_cases (i + 1) (length lines)) as [Hin | Hout].
    + rewrite scan_window by lia. f_equal.
      now rewrite !firstn_all2 by (rewrite length_skipn; lia).
    + replace (length lines - (i + 1)) with 0 by lia.
      now rewrite skipn_all2 by lia.
Qed.

(** ** The loop of [parse_results] *)

Lemma loop_invariant (lines : list str) :
  forall n i seen_urls results,
    i + n = length lines ->
    NoDup (map url results) ->
    (forall r, In r results -> In (url r) seen_urls) ->
    Forall (accepted lines) results ->
    NoDup (map url (loop lines n i seen_urls results))
    /\ Forall (accepted lines) (loop lines n i seen_urls results).
Proof.
  induction n as [|n IH]; intros i seen_urls results Hi Hnodup Hseen Hacc; simpl.
  - now split.
  - destruct (result_pattern (nth i lines [])) as [[raw_title raw_url]|] eqn:Hhead;
      [|apply IH; auto; lia].
    destruct (should_filter raw_url) eqn:Hfilter; [apply IH; auto; lia|].
    destruct (in_dec str_eq_dec (clean_url raw_url) seen_urls) as [Hdup | Hnew];
      [apply IH; auto; lia|].
    destruct (falsy (clean_title raw_title)) eqn:Htitle; [apply IH; auto; lia|].
    simpl. apply IH.
    + lia.
    + rewrite map_app. simpl. apply NoDup_app; [exact Hnodup | | ].
      * constructor; [intros [] | constructor].
      * intros u Hu [<- | []]. apply in_map_iff in Hu as (r & Hr & Hin).
        apply Hnew. rewrite <- Hr. now apply Hseen.
    + intros r Hr. apply in_app_or in Hr as [Hr | [<- | []]].
      * right. now apply Hseen.
      * now left.
    + apply Forall_app. split; [exact Hacc|]. constructor; [|constructor].
      exists i, raw_title, raw_url. simpl. repeat split; auto; [lia|].
      intros Hnil. now rewrite Hnil in Htitle.
Qed.

Lemma parse_results_accepted (content : str) :
  NoDup (map url (parse_results content))
  /\ Forall (accepted (split newline content)) (parse_results content).
Proof.
  unfold parse_results. apply loop_invariant; simpl; auto using NoDup_nil.
Qed.

End WithUnicode.

End SearchFacts.

(* ===================================================================== *)
(** * More properties of Python strings *)
(* ===================================================================== *)

Module StripFacts.
Import PyStr PyStrFacts.

(** ** [strip] *)

Lemma lstrip_head (s t : str) (c : char) :
  lstrip s = c :: t -> is_space c = false.
Proof.
  induction s as [|a s IH]; simpl; [discriminate|].
  destruct (is_space a) eqn:Ha; [exact IH|].
  intros H. injection H as <- _. exact Ha.
Qed.

Lemma lstrip_app_keep (x y : str) (c : char) :
  is_space c = false -> lstrip (x ++ c :: y) = lstrip x ++ c :: y.
Proof.
  intros Hc. induction x as [|a x IH]; simpl.
  - now rewrite Hc.
  - destruct (is_space a); [exact IH|reflexivity].
Qed.

Lemma rstrip_last (x : str) (c : char) :
  is_space c = false -> rstrip (x ++ [c]) = x ++ [c].
Proof.
  intros Hc. unfold rstrip. rewrite rev_app_distr. simpl. rewrite Hc.
  simpl. now rewrite rev_involutive.
Qed.

(** A text between two characters that are not white space is left as it
    is. *)
Lemma strip_between (a z : char) (m : str) :
  is_space a = false -> is_space z = false ->
  strip (a :: m ++ [z]) = a :: m ++ [z].
Proof.
  intros Ha Hz. unfold strip. simpl. rewrite Ha.
  exact (rstrip_last (a :: m) z Hz).
Qed.

Lemma strip_shape (s : str) :
  strip s = []
  \/ (exists a, is_space a = false /\ strip s = [a])
  \/ exists a m z, is_space a = false /\ is_space z = false
                   /\ strip s = a :: m ++ [z].
Proof.
  unfold strip. destruct (lstrip s) as [|c t] eqn:Hs; [now left|].
  right. pose proof (lstrip_head s t c Hs) as Hc.
  unfold rstrip. simpl. rewrite (lstrip_app_keep (rev t) [] c Hc).
  rewrite rev_app_distr. simpl.
  destruct (lstrip (rev t)) as [|d u] eqn:Hu; simpl.
  - left. now exists c.
  - right. exists c, (rev u), d. repeat split; try assumption.
    exact (lstrip_head (rev t) u d Hu).
Qed.

Lemma strip_strip (s : str) : strip (strip s) = strip s.
Proof.
  destruct (strip_shape s) as [H | [(a & Ha & H) | (a & m & z & Ha & Hz & H)]];
    rewrite H.
  - reflexivity.
  - unfold strip, rstrip. simpl. rewrite Ha. simpl. now rewrite Ha.
  - now apply strip_between.
Qed.

Lemma lstrip_In (c : char) (s : str) : In c (lstrip s) -> In c s.
Proof.
  induction s as [|a s IH]; simpl; [auto|].
  destruct (is_space a); auto.
Qed.

Lemma strip_In (c : char) (s : str) : In c (strip s) -> In c s.
Proof.
  unfold strip, rstrip. intros H.
  apply in_rev in H. apply lstrip_In in H. apply in_rev in H.
  now apply lstrip_In.
Qed.

(** ** [split] *)

Lemma split_In_free (sep : char) (s : str) :
  forall l, In l (split sep s) -> ~ In sep l.
Proof.
  induction s as [|c s IH]; simpl; intros l H.
  - destruct H as [<- | []]. auto.
  - destruct (N.eqb_spec c sep) as [->|Hc].
    + destruct H as [<- | H]; [auto|now apply IH].
    + destruct (split sep s) as [|l0 ls] eqn:Hs.
      * destruct H as [<- | []]. intros [E | []]. congruence.
      * destruct H as [<- | H].
        -- intros [E | Hin]; [congruence|].
           apply (IH l0); simpl; auto.
        -- apply IH. simpl. auto.
Qed.

Lemma split_free (sep : char) (s : str) : ~ In sep s -> split sep s = [s].
Proof.
  induction s as [|c s IH]; intros H; simpl; [reflexivity|].
  destruct (N.eqb_spec c sep) as [->|Hc]; [elim H; simpl; auto|].
  rewrite IH; [reflexivity|]. intros Hin. apply H. simpl. auto.
Qed.

Lemma split_app_sep (sep : char) (l x : str) :
  ~ In sep l -> split sep (l ++ sep :: x) = l :: split sep x.
Proof.
  induction l as [|c l IH]; intros H; simpl.
  - now rewrite N.eqb_refl.
  - destruct (N.eqb_spec c sep) as [->|Hc]; [elim H; simpl; auto|].
    rewrite IH; [reflexivity|]. intros Hin. apply H. simpl. auto.
Qed.

(** ** [in] and [startswith] *)

Lemma contains_app_r (p x : str) : contains p (x ++ p) = true.
Proof.
  apply contains_occurs. exists x, []. now rewrite app_nil_r.
Qed.

Lemma contains_middle (p x y : str) : contains p (x ++ p ++ y) = true.
Proof. apply contains_occurs. now exists x, y. Qed.

Lemma startswith_app_l (p s t : str) :
  startswith p s = true -> startswith p (s ++ t) = true.
Proof.
  intros H. apply startswith_prefix in H. destruct H as (rest & ->).
  rewrite <- app_assoc. apply startswith_app.
Qed.

End StripFacts.

(* ===================================================================== *)
(** * Properties of the channel URL *)
(* ===================================================================== *)

Module ChannelUrlFacts.
Import PyStr PyStrFacts StripFacts ChannelUrl.

(** ** [rstrip("/")] *)

Lemma lstrip_char_app_keep (c d : char) (x y : str) :
  d <> c -> lstrip_char c (x ++ d :: y) = lstrip_char c x ++ d :: y.
Proof.
  intros Hd. induction x as [|a x IH]; simpl.
  - destruct (N.eqb_spec d c); [contradiction|reflexivity].
  - destruct (a =? c)%N; [exact IH|reflexivity].
Qed.

Lemma rstrip_char_app_keep (c d : char) (x y : str) :
  d <> c -> rstrip_char c (x ++ d :: y) = x ++ d :: rstrip_char c y.
Proof.
  intros Hd. unfold rstrip_char. rewrite rev_app_distr. simpl.
  rewrite <- app_assoc. simpl. rewrite (lstrip_char_app_keep c d _ _ Hd).
  rewrite rev_app_distr. simpl. rewrite rev_involutive.
  now rewrite <- app_assoc.
Qed.

(** ** The listing suffix *)

Lemma match_slash_end_inv (s r : str) :
  match_slash_end s = Some r ->
  (s = r \/ s = 47%N :: r) /\ (r = [] \/ r = [Search.newline]).
Proof.
  unfold match_slash_end. intros H.
  pose proof SearchFacts.at_end_cases as Hend.
  destruct s as [|a s'].
  - simpl in H. injection H as <-. auto.
  - destruct (N.eq_dec a 47) as [->|Ha].
    + change (match (if Search.at_end s' then Some s' else None) with
              | Some rest => Some rest
              | None => if Search.at_end (47%N :: s')
                        then Some (47%N :: s') else None
              end = Some r) in H.
      destruct (Search.at_end s') eqn:E.
      * injection H as <-. auto.
      * destruct (Search.at_end (47%N :: s')) eqn:E'; [|discriminate].
        injection H as <-. auto.
    + assert (H' : (if Search.at_end (a :: s') then Some (a :: s') else None)
                   = Some r).
      { destruct a as [|p]; [exact H|].
        do 6 (destruct p as [p|p|]; try exact H). contradiction. }
      destruct (Search.at_end (a :: s')) eqn:E; [|discriminate].
      injection H' as <-. auto.
Qed.

Lemma match_listing_inv (words : list str) (s r : str) :
  match_listing words s = Some r ->
  exists w, In w words
            /\ (s = 47%N :: w ++ r \/ s = 47%N :: w ++ 47%N :: r)
            /\ (r = [] \/ r = [Search.newline]).
Proof.
  induction words as [|w words IH]; simpl; [discriminate|].
  destruct (strip_prefix (47%N :: w) s) as [after|] eqn:Hp.
  - destruct (match_slash_end after) as [r'|] eqn:Hm.
    + intros H. injection H as <-.
      apply strip_prefix_inv in Hp.
      destruct (match_slash_end_inv _ _ Hm) as [[-> | ->] Hr];
        exists w; (split; [now left|]); split; auto.
    + intros H. destruct (IH H) as (w' & Hin & Hs & Hr).
      exists w'. auto.
  - intros H. destruct (IH H) as (w' & Hin & Hs & Hr).
    exists w'. auto.
Qed.

(** Inside a text that ends with a listing suffix, the pattern matches at
    the suffix only. *)
Lemma match_listing_inside (a : char) (x w : str) :
  In w listings -> match_listing listings (a :: x ++ 47%N :: w) = None.
Proof.
  intros Hw.
  destruct (match_listing listings (a :: x ++ 47%N :: w)) as [r|] eqn:H;
    [exfalso|reflexivity].
  destruct (match_listing_inv _ _ _ H) as (w' & Hw' & Hs & Hr).
  assert (Hrev : forall t : str, rev (a :: x ++ 47%N :: w) = rev t ->
                 rev w ++ 47%N :: rev x ++ [a] = rev t).
  { intros t <-. simpl. rewrite rev_app_distr. simpl.
    now rewrite <- !app_assoc. }
  unfold listings in Hw, Hw'. simpl in Hw, Hw'.
  destruct Hs as [Hs | Hs]; apply (f_equal (@rev char)) in Hs;
    apply Hrev in Hs;
    destruct Hr as [-> | ->];
    destruct Hw as [<- | [<- | [<- | []]]];
    destruct Hw' as [<- | [<- | [<- | []]]];
    simpl in Hs; try discriminate;
    injection Hs as Hs; destruct (rev x); discriminate.
Qed.

Lemma base_url_cons (c : char) (rest : str) :
  base_url (c :: rest)
  = match match_listing listings (c :: rest) with
    | Some remaining => remaining
    | None => c :: base_url rest
    end.
Proof. reflexivity. Qed.

Lemma base_url_suffix (x w : str) :
  In w listings -> base_url (x ++ 47%N :: w) = x.
Proof.
  intros Hw. induction x as [|a x IH].
  - unfold listings in Hw. simpl in Hw.
    destruct Hw as [<- | [<- | [<- | []]]]; reflexivity.
  - change ((a :: x) ++ 47%N :: w) with (a :: x ++ 47%N :: w).
    rewrite base_url_cons, (match_listing_inside a x w Hw). now rewrite IH.
Qed.

Lemma listing_url_suffix (content_type channel_url : str) :
  exists w, In w listings
            /\ listing_url content_type channel_url
               = base_url channel_url ++ 47%N :: w.
Proof.
  unfold listing_url, listings.
  destruct (str_eq_dec content_type (lit "shorts"));
    [|destruct (str_eq_dec content_type (lit "streams"))].
  - exists (lit "shorts"). simpl. auto.
  - exists (lit "streams"). simpl. auto.
  - exists (lit "videos"). simpl. auto.
Qed.

(** X3. The URL that [get_channel_videos] fetches ends with a listing suffix
    that the next adjustment removes again: the base URL of a fetched URL is
    the base URL it was built from, and adjusting a fetched URL for a
    content type gives what adjusting the first URL gives. *)
Theorem listing_url_readjusted (first second channel_url : str) :
  base_url (listing_url first channel_url) = base_url channel_url
  /\ listing_url second (listing_url first channel_url)
     = listing_url second channel_url.
Proof.
  destruct (listing_url_suffix first channel_url) as (w & Hw & E).
  assert (Hb : base_url (listing_url first channel_url) = base_url channel_url).
  { rewrite E. now apply base_url_suffix. }
  split; [exact Hb|].
  unfold listing_url at 1 3. now rewrite Hb.
Qed.

(** ** [normalize_channel_url] *)

(** The four results of [normalize_channel_url], from the stripped
    argument. *)
Lemma normalize_cases (channel : str) :
  (startswith (lit "http") (strip channel) = true
   /\ normalize_channel_url channel = strip channel
   /\ exists w, In w listings /\ contains (47%N :: w) (strip channel) = true)
  \/ exists home,
       normalize_channel_url channel = home ++ lit "/videos"
       /\ startswith (lit "http") home = true
       /\ ((startswith (lit "http") (strip channel) = true
            /\ home = rstrip_char 47%N (strip channel))
           \/ (startswith (lit "http") (strip channel) = false
               /\ home = (if startswith (lit "@") (strip channel)
                          then lit "https://www.youtube.com/"
                          else if startswith (lit "UC") (strip channel)
                                  && (length (strip channel) =? 24)
                          then lit "https://www.youtube.com/channel/"
                          else lit "https://www.youtube.com/@")
                         ++ strip channel)).
Proof.
  unfold normalize_channel_url. cbv zeta.
  destruct (startswith (lit "http") (strip channel)) eqn:Hh.
  - destruct (contains (lit "/videos") (strip channel)) eqn:Hv;
      [left; repeat split; exists (lit "videos"); unfold listings; simpl; auto|].
    destruct (contains (lit "/shorts") (strip channel)) eqn:Hs;
      [left; repeat split; exists (lit "shorts"); unfold listings; simpl; auto|].
    destruct (contains (lit "/streams") (strip channel)) eqn:Ht;
      [left; repeat split; exists (lit "streams"); unfold listings; simpl; auto|].
    right. exists (rstrip_char 47%N (strip channel)). simpl.
    split; [reflexivity|]. split; [|left; split; reflexivity].
    apply startswith_prefix in Hh. destruct Hh as (rest & ->).
    change (lit "http" ++ rest) with ([104%N; 116%N; 116%N] ++ 112%N :: rest).
    rewrite rstrip_char_app_keep by discriminate. reflexivity.
  - right.
    destruct (startswith (lit "@") (strip channel));
      [|destruct (startswith (lit "UC") (strip channel)
                  && (length (strip channel) =? 24))];
      eexists; (split; [now rewrite <- app_assoc|]);
      (split; [reflexivity|right; split; reflexivity]).
Qed.

Lemma startswith_http (s : str) :
  startswith (lit "http") s = true ->
  exists rest, s = 104%N :: rest.
Proof.
  intros H. apply startswith_inv in H. rewrite H. simpl. eauto.
Qed.

(** A URL that starts with [http] and ends with [/videos] has no white
    space to strip. *)
Lemma strip_home_videos (home : str) :
  startswith (lit "http") home = true ->
  strip (home ++ lit "/videos") = home ++ lit "/videos".
Proof.
  intros H. destruct (startswith_http home H) as (rest & ->).
  change ((104%N :: rest) ++ lit "/videos")
    with (104%N :: rest ++ lit "/video" ++ [115%N]).
  rewrite app_assoc. now apply strip_between.
Qed.

(** X1. Whatever the argument, [normalize_channel_url] returns a text that
    starts with [http] and names one of the three listings, [/videos],
    [/shorts] or [/streams]. *)
Theorem normalize_channel_url_names_listing (channel : str) :
  startswith (lit "http") (normalize_channel_url channel) = true
  /\ exists w, In w listings
               /\ contains (lit "/" ++ w) (normalize_channel_url channel) = true.
Proof.
  destruct (normalize_cases channel)
    as [(Hh & -> & w & Hw & Hc) | (home & -> & Hh & _)].
  - split; [exact Hh|]. now exists w.
  - split; [now apply startswith_app_l|].
    exists (lit "videos"). split; [unfold listings; simpl; auto|].
    apply (contains_app_r (lit "/videos") home).
Qed.

(** X2. [normalize_channel_url] leaves its own results as they are. *)
Theorem normalize_channel_url_idempotent (channel : str) :
  normalize_channel_url (normalize_channel_url channel)
  = normalize_channel_url channel.
Proof.
  destruct (normalize_cases channel)
    as [(Hh & E & w & Hw & Hc) | (home & E & Hh & _)]; rewrite E.
  - unfold normalize_channel_url. cbv zeta. rewrite strip_strip, Hh.
    unfold listings in Hw. simpl in Hw.
    destruct Hw as [<- | [<- | [<- | []]]];
      change (47%N :: lit "videos") with (lit "/videos") in *;
      change (47%N :: lit "shorts") with (lit "/shorts") in *;
      change (47%N :: lit "streams") with (lit "/streams") in *;
      rewrite Hc; simpl; rewrite ?andb_false_r; reflexivity.
  - unfold normalize_channel_url. cbv zeta.
    rewrite (strip_home_videos home Hh).
    rewrite (startswith_app_l _ _ _ Hh).
    now rewrite (contains_app_r (lit "/videos") home).
Qed.

(** X4. For an argument that is not a URL ([@handle], channel ID or bare
    handle) [normalize_channel_url] returns the videos listing of the
    channel's home on youtube.com; the URL fetched for a content type is the
    home followed by the listing of that type, and the home is what the
    listing reports as [channel_url]. *)
Theorem handle_listing_url (content_type channel : str) :
  startswith (lit "http") (strip channel) = false ->
  In content_type listings ->
  exists home,
    home = (if startswith (lit "@") (strip channel)
            then lit "https://www.youtube.com/"
            else if startswith (lit "UC") (strip channel)
                    && (length (strip channel) =? 24)
            then lit "https://www.youtube.com/channel/"
            else lit "https://www.youtube.com/@") ++ strip channel
    /\ normalize_channel_url channel = home ++ lit "/videos"
    /\ base_url (normalize_channel_url channel) = home
    /\ listing_url content_type (normalize_channel_url channel)
       = home ++ lit "/" ++ content_type.
Proof.
  intros Hh Hc. eexists. split; [reflexivity|].
  destruct (normalize_cases channel)
    as [(Hh' & _) | (home & E & _ & [(Hh' & _) | (_ & Hhome)])];
    try congruence.
  subst home. split; [exact E|].
  assert (Hb : base_url (normalize_channel_url channel)
               = (if startswith (lit "@") (strip channel)
                  then lit "https://www.youtube.com/"
                  else if startswith (lit "UC") (strip channel)
                          && (length (strip channel) =? 24)
                  then lit "https://www.youtube.com/channel/"
                  else lit "https://www.youtube.com/@") ++ strip channel).
  { rewrite E. apply (base_url_suffix _ (lit "videos")).
    unfold listings. simpl. auto. }
  split; [exact Hb|].
  unfold listing_url. rewrite Hb. unfold listings in Hc. simpl in Hc.
  destruct Hc as [<- | [<- | [<- | []]]]; reflexivity.
Qed.

Lemma handle_listing_url_witness :
  exists home,
    home = lit "https://www.youtube.com/@HealthyGamerGG"
    /\ normalize_channel_url (lit " @HealthyGamerGG ") = home ++ lit "/videos"
    /\ base_url (normalize_channel_url (lit " @HealthyGamerGG ")) = home
    /\ listing_url (lit "shorts") (normalize_channel_url (lit " @HealthyGamerGG "))
       = home ++ lit "/" ++ lit "shorts".
Proof.
  apply (handle_listing_url (lit "shorts") (lit " @HealthyGamerGG ")).
  - reflexivity.
  - unfold listings. simpl. auto.
Defined.

End ChannelUrlFacts.

(* ===================================================================== *)
(** * More properties of the channel lister *)
(* ===================================================================== *)

Module ChannelListingFacts.
Import PyStr PyStrFacts Channel ChannelFacts.

(** ** Counts *)

Lemma collect_length (wd : bool) (entries : list (option entry)) :
  forall i, length (collect wd i entries) <= length entries.
Proof.
  induction entries as [|[e|] entries IH]; intros i; simpl.
  - lia.
  - specialize (IH (S i)). lia.
  - specialize (IH (S i)). lia.
Qed.

Lemma filter_videos_length {U : Unicode} (q : str) (vs : list video) :
  forall kept, filter_videos q vs = Some kept -> length kept <= length vs.
Proof.
  induction vs as [|v vs IH]; simpl; intros kept H.
  - injection H as <-. simpl. lia.
  - destruct (matches q v) as [keep|]; [|discriminate].
    destruct (filter_videos q vs) as [kept'|]; [|discriminate].
    injection H as <-. specialize (IH kept' eq_refl).
    destruct keep; simpl; lia.
Qed.

Lemma search_filter_length {U : Unicode} (term : option str) (vs kept : list video) :
  search_filter term vs = Some kept -> length kept <= length vs.
Proof.
  destruct term as [[|c s]|]; simpl; intros H.
  - injection H as <-. lia.
  - now apply (filter_videos_length (lower (c :: s))).
  - injection H as <-. lia.
Qed.

Lemma apply_limit_length (limit : option Z) (vs : list video) :
  length (apply_limit limit vs) <= length vs
  /\ forall n, limit = Some n -> (0 < n)%Z ->
               length (apply_limit limit vs) = Nat.min (Z.to_nat n) (length vs).
Proof.
  unfold apply_limit. destruct limit as [n|].
  - destruct (0 <? n)%Z eqn:Hn.
    + rewrite length_firstn. split; [lia|].
      intros m Hm _. injection Hm as <-. reflexivity.
    + split; [lia|]. intros m Hm Hpos. injection Hm as <-.
      apply Z.ltb_ge in Hn. lia.
  - split; [lia|]. intros m Hm. discriminate.
Qed.

(** X5. The counts of a listing: [returned_count] is the length of [videos];
    it is at most [total_count], which counts every entry of the channel,
    the [None] ones too; [total_count] is zero only when the listing of the
    library is a generator that yields nothing (an empty list is the error
    "No videos found"); under a limit [n > 0] [returned_count] is at most
    [n]. *)
Theorem listing_counts {U : Unicode} (limit : option Z) (sort_by : str)
  (term : option str) (content : str) (wd : bool) (f : fetched) (l : listing) :
  get_channel_videos limit sort_by term content wd f = Listing l ->
  returned_count l = length (videos l)
  /\ returned_count l <= total_count l
  /\ exists i entries,
       f = Returned (Some i)
       /\ i_entries i = Val entries
       /\ total_count l = length entries
       /\ (total_count l = 0 -> i_lazy i = true)
       /\ forall n, limit = Some n -> (0 < n)%Z -> returned_count l <= Z.to_nat n.
Proof.
  intros H.
  destruct (listing_inv _ _ _ _ _ _ _ H)
    as (i & entries & matching & Hf & He & Hm & Hv & Hr & Ht).
  destruct (listing_run _ _ _ _ _ _ _ H)
    as (i' & entries' & _ & Hf' & Hrun & _).
  rewrite Hf in Hf'. injection Hf' as <-.
  destruct (entries_of _ _ Hrun) as (Hval & Hno & He').
  rewrite He in He'. injection He' as <-.
  assert (Hlen : length (videos l) <= length entries).
  { rewrite Hv.
    pose proof (proj1 (apply_limit_length limit (sort_videos sort_by matching))).
    pose proof (Permutation_length (sort_videos_perm sort_by matching)).
    pose proof (search_filter_length _ _ _ Hm).
    pose proof (collect_length wd entries 0). lia. }
  split; [exact Hr|]. split; [lia|].
  exists i, entries. split; [exact Hf|]. split; [exact Hval|].
  split; [exact Ht|]. split.
  - rewrite Ht. intros Hz. unfold no_entries in Hno. rewrite Hval in Hno.
    destruct entries; [|discriminate].
    now destruct (i_lazy i).
  - intros n Hn Hpos. rewrite Hr, Hv.
    rewrite (proj2 (apply_limit_length limit _) n Hn Hpos). lia.
Qed.

Lemma listing_counts_witness :
  (exists l,
     get_channel_videos (U := basic_latin) (Some 1%Z) (lit "recency") None
       (lit "videos") false Examples.untitled_channel = Listing l
     /\ returned_count l = 1
     /\ total_count l = 3
     /\ returned_count l = length (videos l)
     /\ returned_count l <= total_count l)
  /\ (exists l,
        get_channel_videos (U := basic_latin) None (lit "recency") None
          (lit "videos") false (Returned (Some Examples.empty_lazy_info))
        = Listing l
        /\ total_count l = 0
        /\ returned_count l = 0
        /\ exists i entries,
             Returned (Some Examples.empty_lazy_info) = Returned (Some i)
             /\ i_entries i = Val entries
             /\ total_count l = length entries
             /\ (total_count l = 0 -> i_lazy i = true)
             /\ forall n, @None Z = Some n -> (0 < n)%Z ->
                          returned_count l <= Z.to_nat n)
  /\ get_channel_videos (U := basic_latin) None (lit "recency") None
       (lit "videos") false
       (Returned (Some {| i_channel := Missing; i_uploader := Missing;
                          i_channel_id := Missing; i_uploader_id := Missing;
                          i_entries := Val []; i_lazy := false |}))
     = Error (lit "No videos found").
Proof.
  split; [|split; [|reflexivity]].
  - eexists. split; [reflexivity|]. split; [reflexivity|]. split; [reflexivity|].
    pose proof (listing_counts (U := basic_latin) (Some 1%Z) (lit "recency") None
                  (lit "videos") false Examples.untitled_channel _ eq_refl) as H.
    split; [exact (proj1 H)|exact (proj1 (proj2 H))].
  - eexists. split; [reflexivity|]. split; [reflexivity|]. split; [reflexivity|].
    exact (proj2 (proj2
             (listing_counts (U := basic_latin) None (lit "recency") None
                (lit "videos") false (Returned (Some Examples.empty_lazy_info))
                _ eq_refl))).
Defined.

(** X22. The limit of the command line: without [--limit] at most the
    first 20 of the matching, sorted videos are returned; [--limit n] with
    [n > 0] returns at most the first [n]; [--limit 0] and a negative limit
    return them all. *)
Theorem cli_limit_applied {U : Unicode} (given : option Z) (sort_by : str)
  (term : option str) (content : str) (wd : bool) (f : fetched) (l : listing) :
  get_channel_videos (cli_limit given) sort_by term content wd f = Listing l ->
  exists i entries matching,
    f = Returned (Some i)
    /\ get_default (i_entries i) [] = Some entries
    /\ search_filter term (collect wd 0 entries) = Some matching
    /\ videos l
       = match given with
         | None => firstn 20 (sort_videos sort_by matching)
         | Some n =>
             if (0 <? n)%Z then firstn (Z.to_nat n) (sort_videos sort_by matching)
             else sort_videos sort_by matching
         end
    /\ (given = None -> returned_count l <= 20).
Proof.
  intros H.
  destruct (listing_inv _ _ _ _ _ _ _ H)
    as (i & entries & matching & Hf & He & Hm & Hv & Hr & _).
  exists i, entries, matching. repeat split; try assumption.
  - rewrite Hv. unfold cli_limit, apply_limit.
    destruct given as [n|]; [|reflexivity].
    destruct (n >? 0)%Z eqn:Hn.
    + assert (Hpos : (0 <? n)%Z = true) by (apply Z.ltb_lt; lia).
      now rewrite Hpos.
    + assert (Hpos : (0 <? n)%Z = false) by (apply Z.ltb_ge; lia).
      now rewrite Hpos.
  - intros ->. rewrite Hr, Hv. change (cli_limit None) with (Some 20%Z).
    rewrite (proj2 (apply_limit_length (Some 20%Z) _) 20%Z eq_refl) by lia.
    change (Z.to_nat 20) with 20. lia.
Qed.

Lemma cli_limit_applied_witness :
  exists i entries matching,
    example_channel = Returned (Some i)
    /\ get_default (i_entries i) [] = Some entries
    /\ search_filter (U := basic_latin) None (collect false 0 entries)
       = Some matching
    /\ firstn 2 (sort_videos (lit "views") (collect false 0 example_entries))
       = (if (0 <? 2)%Z
          then firstn (Z.to_nat 2) (sort_videos (lit "views") matching)
          else sort_videos (lit "views") matching)
    /\ (Some 2%Z = None -> 2 <= 20).
Proof.
  apply (cli_limit_applied (U := basic_latin) (Some 2%Z) (lit "views") None
           (lit "videos") false example_channel
           {| channel := Some (lit "Example"); channel_id := Some (lit "UC0");
              content_type := lit "videos";
              total_count := 3; returned_count := 2;
              sort := lit "views"; search := None;
              videos := firstn 2 (sort_videos (lit "views")
                                    (collect false 0 example_entries)) |}).
  reflexivity.
Defined.

(** ** The duration sorts *)

Lemma Qle_bool_total (x y : Q) : Qle_bool x y = false -> Qle_bool y x = true.
Proof.
  intros H. apply Qle_bool_iff. apply Qlt_le_weak. apply Qnot_le_lt.
  intros Hle. apply Qle_bool_iff in Hle. congruence.
Qed.

Lemma Qle_bool_trans (x y z : Q) :
  Qle_bool x y = true -> Qle_bool y z = true -> Qle_bool x z = true.
Proof.
  intros H1 H2. apply Qle_bool_iff in H1, H2. apply Qle_bool_iff.
  now apply Qle_trans with y.
Qed.

Lemma Qeq_bool_le (x y d : Q) :
  Qeq_bool x d = true -> Qeq_bool y d = true -> Qle_bool x y = true.
Proof.
  intros Hx Hy. apply Qeq_bool_iff in Hx, Hy. apply Qle_bool_iff.
  rewrite Hx, Hy. apply Qle_refl.
Qed.

(** X6. [--sort duration] and [--sort duration_asc] are stable sorts by
    duration, longest first and shortest first: the result is a
    rearrangement of the videos, it is in order, and videos of equal
    duration keep the order they had. Any other key but [views] leaves the
    order as it is. *)
Theorem sort_by_duration_spec (vs : list video) :
  (Permutation vs (sort_videos (lit "duration") vs)
   /\ StronglySorted (fun a b => (duration b <= duration a)%Q)
        (sort_videos (lit "duration") vs)
   /\ forall d, filter (fun v => Qeq_bool (duration v) d)
                  (sort_videos (lit "duration") vs)
                = filter (fun v => Qeq_bool (duration v) d) vs)
  /\ (Permutation vs (sort_videos (lit "duration_asc") vs)
      /\ StronglySorted (fun a b => (duration a <= duration b)%Q)
           (sort_videos (lit "duration_asc") vs)
      /\ forall d, filter (fun v => Qeq_bool (duration v) d)
                     (sort_videos (lit "duration_asc") vs)
                   = filter (fun v => Qeq_bool (duration v) d) vs)
  /\ forall sort_by,
       ~ In sort_by [lit "views"; lit "duration"; lit "duration_asc"] ->
       sort_videos sort_by vs = vs.
Proof.
  split; [|split].
  - change (sort_videos (lit "duration") vs)
      with (stable_sort (fun x y => Qle_bool (duration y) (duration x)) vs).
    split; [apply stable_sort_perm | split].
    + eapply StronglySorted_weaken; [|apply stable_sort_sorted].
      * intros a b H. now apply Qle_bool_iff.
      * intros x y H. now apply Qle_bool_total.
      * intros x y z H1 H2. now apply Qle_bool_trans with (duration y).
    + intros d. apply filter_stable_sort. intros x y Hx Hy.
      now apply Qeq_bool_le with d.
  - change (sort_videos (lit "duration_asc") vs)
      with (stable_sort (fun x y => Qle_bool (duration x) (duration y)) vs).
    split; [apply stable_sort_perm | split].
    + eapply StronglySorted_weaken; [|apply stable_sort_sorted].
      * intros a b H. now apply Qle_bool_iff.
      * intros x y H. now apply Qle_bool_total.
      * intros x y z H1 H2. now apply Qle_bool_trans with (duration y).
    + intros d. apply filter_stable_sort. intros x y Hx Hy.
      now apply Qeq_bool_le with d.
  - intros sort_by Hn. unfold sort_videos.
    repeat match goal with
           | |- context [str_eq_dec ?a ?b] =>
               destruct (str_eq_dec a b) as [->|]
           end; try reflexivity; exfalso; apply Hn; simpl; auto.
Qed.

(** ** Searching videos without a title *)

Lemma filter_videos_untitled {U : Unicode} (q : str) (vs : list video) (v : video) :
  In v vs -> title v = None -> filter_videos q vs = None.
Proof.
  intros Hin Ht. induction vs as [|x vs IH]; [contradiction|].
  simpl. destruct Hin as [-> | Hin].
  - unfold matches. now rewrite Ht.
  - rewrite (IH Hin). now destruct (matches q x).
Qed.

Lemma collect_entry (wd : bool) (entries : list (option entry)) (e : entry) :
  In (Some e) entries ->
  forall i, exists j, In (make_video wd j e) (collect wd i entries).
Proof.
  induction entries as [|x entries IH]; [contradiction|].
  intros [-> | Hin] i.
  - exists i. simpl. auto.
  - destruct (IH Hin (S i)) as (j & Hj). exists j.
    simpl. destruct x; simpl; auto.
Qed.

Lemma entries_run (i : info) (x : option entry) (entries : list (option entry)) :
  get_default (i_entries i) [] = Some (x :: entries) ->
  (if no_entries i then None else get (i_entries i)) = Some (x :: entries).
Proof.
  unfold no_entries. destruct (i_entries i) as [| |es]; simpl; try discriminate.
  now intros [= ->].
Qed.

(** X7. A search term, when one entry of the channel has the title [None],
    ends the run with the error of calling [lower] on [None], whatever the
    term and wherever the entry is; the same channel is listed when no term
    is given. *)
Theorem search_fails_on_untitled_entry {U : Unicode} (limit : option Z)
  (sort_by : str) (term : str) (content : str) (wd : bool) (i : info)
  (entries : list (option entry)) (e : entry) :
  get_default (i_entries i) [] = Some entries ->
  In (Some e) entries ->
  e_title e = Null ->
  term <> [] ->
  get_channel_videos limit sort_by (Some term) content wd (Returned (Some i))
  = Error (lit "Error: 'NoneType' object has no attribute 'lower'")
  /\ exists l,
       get_channel_videos limit sort_by None content wd (Returned (Some i))
       = Listing l.
Proof.
  intros He Hin Ht Hterm.
  destruct term as [|c s]; [contradiction|].
  destruct entries as [|x entries]; [contradiction|].
  unfold get_channel_videos. rewrite (entries_run _ _ _ He). split.
  - destruct (collect_entry wd (x :: entries) e Hin 0) as (j & Hj).
    unfold search_filter.
    rewrite (filter_videos_untitled (lower (c :: s)) _ _ Hj); [reflexivity|].
    simpl. now rewrite Ht.
  - simpl. eexists. reflexivity.
Qed.

Lemma search_fails_on_untitled_entry_witness :
  get_channel_videos (U := basic_latin) None (lit "recency") (Some (lit "a"))
    (lit "videos") false Examples.untitled_channel
  = Error (lit "Error: 'NoneType' object has no attribute 'lower'")
  /\ exists l,
       get_channel_videos (U := basic_latin) None (lit "recency") None
         (lit "videos") false Examples.untitled_channel = Listing l.
Proof.
  apply (search_fails_on_untitled_entry (U := basic_latin) None (lit "recency")
           (lit "a") (lit "videos") false Examples.untitled_info
           [example_entry (lit "a") 10 59%Q; None; Some Examples.untitled_entry]
           Examples.untitled_entry).
  - reflexivity.
  - simpl. auto.
  - reflexivity.
  - discriminate.
Defined.

(** ** What a search keeps *)

Lemma filter_videos_spec {U : Unicode} (q : str) (vs : list video) :
  forall kept, filter_videos q vs = Some kept ->
  forall v, In v kept <-> In v vs /\ matches q v = Some true.
Proof.
  induction vs as [|x vs IH]; simpl; intros kept H v.
  - injection H as <-. simpl. tauto.
  - destruct (matches q x) as [keep|] eqn:Hx; [|discriminate].
    destruct (filter_videos q vs) as [kept'|]; [|discriminate].
    injection H as <-. specialize (IH kept' eq_refl v).
    destruct keep; simpl; rewrite IH; split.
    + intros [-> | [H1 H2]]; auto.
    + intros [[-> | H1] H2]; auto.
    + intros [H1 H2]; auto.
    + intros [[-> | H1] H2]; [congruence|auto].
Qed.

(** X8. With a search term, every listed video has a title, and the term in
    lower case occurs in the title or in the description snippet, both in
    lower case; without a limit every such video of the channel is
    listed. *)
Theorem search_keeps_matching_videos {U : Unicode} (limit : option Z)
  (sort_by : str) (term : str) (content : str) (wd : bool) (i : info)
  (l : listing) :
  term <> [] ->
  get_channel_videos limit sort_by (Some term) content wd (Returned (Some i))
  = Listing l ->
  exists entries,
    get_default (i_entries i) [] = Some entries
    /\ (forall v, In v (videos l) ->
        In v (collect wd 0 entries)
        /\ exists t,
             title v = Some t
             /\ (contains (lower term) (lower t) = true
                 \/ exists d, description_snippet v = Some d
                              /\ contains (lower term) (lower d) = true))
    /\ (limit = None ->
        forall v, In v (collect wd 0 entries) ->
                  matches (lower term) v = Some true -> In v (videos l)).
Proof.
  intros Hterm H.
  destruct (listing_inv _ _ _ _ _ _ _ H)
    as (i' & entries & matching & Hf & He & Hm & Hv & _).
  injection Hf as <-. exists entries. split; [exact He|].
  destruct term as [|c s]; [contradiction|]. simpl in Hm.
  pose proof (filter_videos_spec _ _ _ Hm) as Hspec.
  split.
  - intros v Hin. rewrite Hv in Hin. apply apply_limit_incl in Hin.
    apply (Permutation_in _ (Permutation_sym (sort_videos_perm sort_by matching)))
      in Hin.
    apply Hspec in Hin. destruct Hin as [Hin Hmatch]. split; [exact Hin|].
    unfold matches in Hmatch. destruct (title v) as [t|]; [|discriminate].
    exists t. split; [reflexivity|]. injection Hmatch as Hmatch.
    apply orb_true_iff in Hmatch. destruct Hmatch as [Ht | Hd]; [now left|].
    destruct (description_snippet v) as [d|]; [right; now exists d|].
    rewrite lower_nil in Hd. apply TranscriptFacts.contains_nil_r in Hd.
    apply lower_inv_nil in Hd. discriminate.
  - intros -> v Hin Hmatch. rewrite Hv. simpl.
    apply (Permutation_in _ (sort_videos_perm sort_by matching)).
    apply Hspec. auto.
Qed.

Lemma search_keeps_matching_videos_witness :
  exists l,
    get_channel_videos (U := basic_latin) None (lit "views") (Some (lit "B"))
      (lit "videos") false example_channel = Listing l
    /\ map title (videos l) = [Some (lit "b")]
    /\ forall v, In v (videos l) ->
       exists t, title v = Some t
                 /\ (contains (lower (lit "B")) (lower t) = true
                     \/ exists d, description_snippet v = Some d
                                  /\ contains (lower (lit "B")) (lower d) = true).
Proof.
  eexists. split; [reflexivity|]. split; [reflexivity|].
  destruct (search_keeps_matching_videos (U := basic_latin) None (lit "views")
              (lit "B") (lit "videos") false example_info _
              ltac:(discriminate) eq_refl) as (entries & _ & Hsound & _).
  intros v Hin. exact (proj2 (Hsound v Hin)).
Defined.

(** ** The description snippet *)

(** X9. The [description_snippet] of a listed video is set when the entry has
    a description that is not empty; it is the description when that has at
    most 200 characters, else its first 200 characters and three dots, 203
    characters in all. *)
Theorem description_snippet_bounded {U : Unicode} (limit : option Z)
  (sort_by : str) (term : option str) (content : str) (wd : bool) (i : info)
  (l : listing) (v : video) :
  get_channel_videos limit sort_by term content wd (Returned (Some i)) = Listing l ->
  In v (videos l) ->
  exists entries e,
    get_default (i_entries i) [] = Some entries
    /\ nth_error entries (index v - 1) = Some (Some e)
    /\ match description_snippet v with
       | None => get (e_description e) = None \/ e_description e = Val []
       | Some d =>
           exists desc,
             e_description e = Val desc
             /\ 0 < length d <= 203
             /\ firstn 200 d = firstn 200 desc
             /\ (length desc <= 200 -> d = desc)
             /\ (200 < length desc ->
                 d = firstn 200 desc ++ lit "..." /\ length d = 203)
       end.
Proof.
  intros H Hin.
  destruct (listing_video_source _ _ _ _ _ _ _ _ H Hin)
    as (entries & e & He & Hn & _ & Hv).
  exists entries, e. split; [exact He|]. split; [exact Hn|].
  rewrite Hv. cbn [description_snippet make_video].
  destruct (e_description e) as [| |desc];
    [left; reflexivity | left; reflexivity |].
  destruct desc as [|c desc]; [now right|].
  cbn [get_default falsy].
  exists (c :: desc). split; [reflexivity|].
  unfold snippet. destruct (200 <? length (c :: desc)) eqn:Hlen.
  - apply Nat.ltb_lt in Hlen.
    assert (Hf : length (firstn 200 (c :: desc)) = 200)
      by (rewrite length_firstn; lia).
    assert (Hd : length (firstn 200 (c :: desc) ++ lit "...") = 203)
      by (rewrite length_app, Hf; reflexivity).
    split; [lia|]. split; [|split; [lia|auto]].
    rewrite firstn_app, Hf, Nat.sub_diag, firstn_O.
    rewrite app_nil_r. rewrite firstn_firstn. reflexivity.
  - apply Nat.ltb_ge in Hlen.
    split; [simpl in *; lia|]. split; [reflexivity|]. split; [auto|lia].
Qed.

Lemma description_snippet_bounded_witness :
  description_snippet (make_video false 2 Examples.untitled_entry)
  = Some (repeat 120%N 200 ++ lit "...")
  /\ exists entries e,
       get_default (i_entries Examples.untitled_info) [] = Some entries
       /\ nth_error entries (index (make_video false 2 Examples.untitled_entry) - 1)
          = Some (Some e)
       /\ match description_snippet (make_video false 2 Examples.untitled_entry) with
          | None => get (e_description e) = None \/ e_description e = Val []
          | Some d =>
              exists desc,
                e_description e = Val desc
                /\ 0 < length d <= 203
                /\ firstn 200 d = firstn 200 desc
                /\ (length desc <= 200 -> d = desc)
                /\ (200 < length desc ->
                    d = firstn 200 desc ++ lit "..." /\ length d = 203)
          end.
Proof.
  split; [reflexivity|].
  exact (description_snippet_bounded (U := basic_latin) None (lit "recency") None
           (lit "videos") false Examples.untitled_info _
           (make_video false 2 Examples.untitled_entry) eq_refl
           (or_intror (or_introl eq_refl))).
Defined.

(** ** From the lister to the transcript extractor *)

Lemma search_skip (alternatives : list str) (c : char) (rest : str) :
  Transcript.match_here alternatives (c :: rest) = None ->
  Transcript.search alternatives (c :: rest) = Transcript.search alternatives rest.
Proof. intros H. simpl. now rewrite H. Qed.

Lemma search_found (alternatives : list str) (s video_id : str) :
  Transcript.match_here alternatives s = Some video_id ->
  Transcript.search alternatives s = Some video_id.
Proof. intros H. destruct s; simpl; now rewrite H. Qed.

Lemma match_here_first (p : str) (alternatives : list str) (s video_id : str) :
  Transcript.match_id s = Some video_id ->
  Transcript.match_here (p :: alternatives) (p ++ s) = Some video_id.
Proof. intros H. simpl. now rewrite strip_prefix_app, H. Qed.

Lemma watch_url_id (video_id : str) :
  Transcript.is_video_id video_id ->
  Transcript.extract_video_id (lit "https://youtube.com/watch?v=" ++ video_id)
  = Some video_id.
Proof.
  intros Hid.
  assert (Hm : Transcript.match_id (video_id ++ []) = Some video_id)
    by now apply TranscriptFacts.match_id_app.
  rewrite app_nil_r in Hm.
  unfold Transcript.extract_video_id, Transcript.patterns, Transcript.first_match.
  assert (Hs : Transcript.search [lit "v="; lit "/"]
                 (lit "https://youtube.com/watch?v=" ++ video_id) = Some video_id).
  { destruct Hid as [Hlen Hchars].
    do 12 (destruct video_id as [|? video_id]; try discriminate).
    clear Hlen.
    change (lit "https://youtube.com/watch?v=" ++ ?x)
      with (lit "https://youtube.com/watch?" ++ lit "v=" ++ x).
    simpl app.
    do 26 (rewrite search_skip by reflexivity).
    apply search_found.
    exact (match_here_first (lit "v=") [lit "/"] _ _ Hm). }
  now rewrite Hs.
Qed.

(** X10. The watch URL of a listed video leads back to the video: when the ID of
    the entry is a run of eleven ID characters, the transcript extractor
    reads this ID from the [url] of the video and accepts the URL. *)
Theorem listed_url_gives_video_id {U : Unicode} (limit : option Z)
  (sort_by : str) (term : option str) (content : str) (wd : bool) (i : info)
  (l : listing) (v : video) (video_id : str) :
  get_channel_videos limit sort_by term content wd (Returned (Some i)) = Listing l ->
  In v (videos l) ->
  id v = Some video_id ->
  Transcript.is_video_id video_id ->
  Transcript.extract_video_id (url v) = Some video_id
  /\ Transcript.validate (url v) = Transcript.Proceed video_id.
Proof.
  intros H Hin Hid Hvalid.
  destruct (listing_video_source _ _ _ _ _ _ _ _ H Hin)
    as (entries & e & _ & _ & _ & Hv).
  assert (Hurl : url v = lit "https://youtube.com/watch?v=" ++ video_id).
  { rewrite Hv in Hid |- *. simpl in Hid |- *. now rewrite Hid. }
  assert (He : Transcript.extract_video_id (url v) = Some video_id)
    by (rewrite Hurl; now apply watch_url_id).
  split; [exact He|].
  unfold Transcript.validate. rewrite He.
  destruct video_id; [destruct Hvalid; discriminate|reflexivity].
Qed.

Lemma listed_url_gives_video_id_witness :
  Transcript.extract_video_id
    (url (make_video false 2 Examples.untitled_entry)) = Some (lit "dQw4w9WgXcQ")
  /\ Transcript.validate (url (make_video false 2 Examples.untitled_entry))
     = Transcript.Proceed (lit "dQw4w9WgXcQ").
Proof.
  apply (listed_url_gives_video_id (U := basic_latin) None (lit "recency") None
           (lit "videos") false Examples.untitled_info
           {| channel := Some (lit "Unknown"); channel_id := Some (lit "");
              content_type := lit "videos";
              total_count := 3; returned_count := 2;
              sort := lit "recency"; search := None;
              videos := collect false 0
                          [example_entry (lit "a") 10 59%Q; None;
                           Some Examples.untitled_entry] |}).
  - reflexivity.
  - simpl. auto.
  - reflexivity.
  - split; reflexivity.
Defined.

End ChannelListingFacts.

(* ===================================================================== *)
(** * More properties of the transcript extractor, up to the download *)
(* ===================================================================== *)

Module TranscriptCaptionFacts.
Import PyStr PyStrFacts Transcript TranscriptFacts.

(** ** The three patterns *)

(** X11. The first pattern decides alone: a URL that the second or the third
    pattern matches has a [/] in front of the ID, which the first pattern
    accepts as well. What [extract_video_id] returns is a run of eleven ID
    characters that follows [v=] or [/] in the URL. *)
Theorem extract_video_id_by_first_pattern (url : str) :
  extract_video_id url = search [lit "v="; lit "/"] url
  /\ forall video_id,
       extract_video_id url = Some video_id ->
       is_video_id video_id
       /\ (id_after (lit "v=") url video_id \/ id_after (lit "/") url video_id).
Proof.
  assert (E : extract_video_id url = search [lit "v="; lit "/"] url).
  { unfold extract_video_id, patterns. simpl first_match.
    destruct (search [lit "v="; lit "/"] url) as [found|] eqn:H1; [reflexivity|].
    assert (Hslash : forall video_id, ~ id_after (lit "/") url video_id).
    { intros video_id. apply (proj1 (search_None _ _) H1). simpl. auto. }
    assert (H2 : search [lit "embed/"] url = None).
    { apply search_None. intros p video_id [<- | []] Hid.
      apply (Hslash video_id). exact (id_after_slash (lit "embed") _ _ Hid). }
    assert (H3 : search [lit "youtu.be/"] url = None).
    { apply search_None. intros p video_id [<- | []] Hid.
      apply (Hslash video_id). exact (id_after_slash (lit "youtu.be") _ _ Hid). }
    now rewrite H2, H3. }
  split; [exact E|].
  intros video_id H. rewrite E in H.
  destruct (search_inv _ _ _ H) as (p & Hp & Hid).
  split; [exact (proj1 Hid)|].
  destruct Hp as [<- | [<- | []]]; auto.
Qed.

(** ** The language selection *)

Lemma find_In {A : Type} (f : A -> bool) (l : list A) (x : A) :
  find f l = Some x -> In x l /\ f x = true.
Proof. apply find_some. Qed.

(** X12. On a caption map that is not empty the language selection does not
    raise: it selects a language that is a key of the map, or, for a
    preferred language only, reports that it was not found. *)
Theorem selected_language_is_available {U : Unicode} {V : Type}
  (captions : dict V) (preferred original : option str) :
  captions <> [] ->
  (exists lang,
     select_language captions preferred original = Selected lang
     /\ In lang (keys captions))
  \/ (exists p,
        preferred = Some p /\ p <> []
        /\ mem p captions = false
        /\ select_language captions preferred original
           = NotFound p (keys captions)).
Proof.
  intros Hne. unfold select_language.
  assert (Hfallback :
    exists lang,
      match english_match captions with
      | Some (l :: lang) => Selected (l :: lang)
      | Some [] | None =>
          match keys captions with
          | first :: _ => Selected first
          | [] => IndexError
          end
      end = Selected lang /\ In lang (keys captions)).
  { destruct (english_match captions) as [[|l lang]|] eqn:He.
    - destruct captions as [|[k v] rest]; [contradiction|].
      exists k. simpl. auto.
    - exists (l :: lang). split; [reflexivity|].
      apply find_some in He. now apply dict_get_key.
    - destruct captions as [|[k v] rest]; [contradiction|].
      exists k. simpl. auto. }
  destruct preferred as [[|c p]|].
  - left. destruct original as [[|c o]|]; try exact Hfallback.
    destruct (mem (c :: o) captions) eqn:Hm; [|exact Hfallback].
    exists (c :: o). split; [reflexivity|]. now apply dict_get_key.
  - destruct (mem (c :: p) captions) eqn:Hm.
    + left. exists (c :: p). split; [reflexivity|]. now apply dict_get_key.
    + destruct (partial_match (c :: p) (keys captions)) as [[|l lang]|] eqn:Hp.
      * right. exists (c :: p). repeat split; try assumption. discriminate.
      * left. exists (l :: lang). split; [reflexivity|].
        apply find_some in Hp. tauto.
      * right. exists (c :: p). repeat split; try assumption. discriminate.
  - left. destruct original as [[|c o]|]; try exact Hfallback.
    destruct (mem (c :: o) captions) eqn:Hm; [|exact Hfallback].
    exists (c :: o). split; [reflexivity|]. now apply dict_get_key.
Qed.

Lemma selected_language_is_available_witness :
  (exists lang,
     select_language (U := basic_latin) example_captions (Some (lit "ZH")) None
     = Selected lang
     /\ In lang (keys example_captions))
  \/ (exists p,
        Some (lit "ZH") = Some p /\ p <> []
        /\ mem p example_captions = false
        /\ select_language (U := basic_latin) example_captions (Some (lit "ZH")) None
           = NotFound p (keys example_captions)).
Proof.
  apply (selected_language_is_available (U := basic_latin) example_captions
           (Some (lit "ZH")) None).
  discriminate.
Defined.

(** ** The merged caption map *)

Lemma keys_merge_filter {V : Type} (b : dict V) :
  forall a : dict V,
    NoDup (keys b) ->
    keys (dict_merge a b)
    = keys a ++ filter (fun k => negb (mem k a)) (keys b).
Proof.
  unfold dict_merge.
  induction b as [|[k v] b IH]; intros a Hb; simpl.
  - now rewrite app_nil_r.
  - inversion Hb as [|? ? Hk Hb']; subst.
    rewrite (IH _ Hb'). rewrite keys_set.
    destruct (mem k a) eqn:Hm; simpl.
    + f_equal. apply filter_ext_in. intros x Hx. f_equal.
      unfold mem. rewrite dict_get_set.
      destruct (str_eq_dec x k) as [->|]; [|reflexivity].
      unfold mem in Hm. destruct (dict_get k a); [reflexivity|discriminate].
    + rewrite <- app_assoc. simpl. f_equal. f_equal.
      apply filter_ext_in. intros x Hx. f_equal.
      unfold mem. rewrite dict_get_set.
      destruct (str_eq_dec x k) as [->|]; [contradiction|reflexivity].
Qed.

(** X13. The languages of the merged caption map, in the order in which
    [available_languages] lists them: the languages of the automatic
    captions first, then the languages that only the manual subtitles have;
    each language is listed once. *)
Theorem available_languages_order (i : info) (auto manual : dict (list caption)) :
  get_default (automatic_captions i) [] = Some auto ->
  get_default (subtitles i) [] = Some manual ->
  well_formed auto ->
  well_formed manual ->
  exists captions,
    all_captions i = Some captions
    /\ keys captions = keys auto ++ filter (fun k => negb (mem k auto)) (keys manual)
    /\ well_formed captions.
Proof.
  intros Ha Hm Hwa Hwm. exists (dict_merge auto manual).
  unfold all_captions. rewrite Ha, Hm. split; [reflexivity|].
  pose proof (keys_merge_filter manual auto Hwm) as Hk.
  split; [exact Hk|].
  unfold well_formed in *. rewrite Hk.
  apply NoDup_app; [exact Hwa | now apply NoDup_filter |].
  intros x Hx Hin. apply filter_In in Hin. destruct Hin as [_ Hn].
  apply dict_get_key in Hx. rewrite Hx in Hn. discriminate.
Qed.

Lemma available_languages_order_witness :
  exists captions,
    all_captions example_info = Some captions
    /\ keys captions
       = keys [(lit "en-orig", [example_track (lit "json3") (lit "https://c/1");
                                example_track (lit "srv1") (lit "https://c/2")]);
               (lit "zh-Hant", [example_track (lit "vtt") (lit "https://c/3")])]
         ++ filter
              (fun k =>
                 negb (mem k
                   [(lit "en-orig", [example_track (lit "json3") (lit "https://c/1");
                                     example_track (lit "srv1") (lit "https://c/2")]);
                    (lit "zh-Hant", [example_track (lit "vtt") (lit "https://c/3")])]))
              (keys [(lit "fr", [example_track (lit "vtt") (lit "https://c/4")])])
    /\ well_formed captions.
Proof.
  apply (available_languages_order example_info).
  - reflexivity.
  - reflexivity.
  - unfold well_formed. simpl.
    constructor; [intros [H | []]; discriminate|].
    constructor; [intros []|constructor].
  - exact example_manual_well_formed.
Defined.

(** ** What is downloaded *)

Lemma pick_inv (wanted : str -> bool) (tracks : list caption) (u : option str)
  (e : str) :
  pick wanted tracks = Picked u e ->
  wanted e = true
  /\ exists c, In c tracks /\ ext c = Val e
               /\ match u with
                  | Some caption_url => url c = Val caption_url
                  | None => url c = Null
                  end.
Proof.
  induction tracks as [|c tracks IH]; simpl; [discriminate|].
  assert (Hrest : pick wanted tracks = Picked u e ->
                  wanted e = true
                  /\ exists c0, In c0 (c :: tracks) /\ ext c0 = Val e
                                /\ match u with
                                   | Some caption_url => url c0 = Val caption_url
                                   | None => url c0 = Null
                                   end).
  { intros H. destruct (IH H) as (Hw & c0 & Hin & Hc).
    split; [exact Hw|]. exists c0. simpl. auto. }
  destruct (ext c) as [| |e'] eqn:He; simpl; try exact Hrest.
  destruct (wanted e') eqn:Hw; [|exact Hrest].
  destruct (url c) as [| |u'] eqn:Hu; [discriminate| |];
    intros H; injection H as <- <-; (split; [exact Hw|]);
    exists c; simpl; auto.
Qed.

(** X14. When [get_transcript] goes on to the download, the selected language
    is one of the available languages, the URL it downloads is the [url],
    not empty, of a track of that language, and the format is the extension
    of this track, one of vtt, srv1, srv2, srv3 and json3. *)
Theorem download_invariant {U : Unicode} (preferred_lang : option str)
  (f : fetched) (lang : str) (available : list str) (caption_url caption_format : str) :
  get_transcript preferred_lang f = Download lang available caption_url caption_format ->
  exists i captions tracks c,
    f = Returned i
    /\ all_captions i = Some captions
    /\ available = keys captions
    /\ In lang available
    /\ dict_get lang captions = Some tracks
    /\ In c tracks
    /\ ext c = Val caption_format
    /\ url c = Val caption_url
    /\ caption_url <> []
    /\ In caption_format [lit "vtt"; lit "srv1"; lit "srv2"; lit "srv3"; lit "json3"].
Proof.
  unfold get_transcript. intros H.
  destruct f as [msg|msg|i]; try discriminate.
  destruct (all_captions i) as [captions|] eqn:Hc; [|discriminate].
  destruct captions as [|kv rest] eqn:Hcap; [discriminate|]. rewrite <- Hcap in *.
  destruct (select_language captions preferred_lang (original_lang i))
    as [selected|p a|] eqn:Hs; try discriminate.
  destruct (dict_get selected captions) as [tracks|] eqn:Hg; [|discriminate].
  assert (Hchoice : select_caption tracks = Chosen caption_url caption_format
                    /\ selected = lang /\ keys captions = available).
  { destruct (select_caption tracks); try discriminate.
    injection H as -> -> -> ->. auto. }
  destruct Hchoice as (Hchoice & -> & <-). clear H.
  assert (Hkey : In lang (keys captions)).
  { apply dict_get_key. unfold mem. now rewrite Hg. }
  assert (Hpick : exists wanted,
             pick wanted tracks = Picked (Some caption_url) caption_format
             /\ caption_url <> []
             /\ (wanted = is_vtt \/ wanted = is_fallback)).
  { unfold select_caption in Hchoice.
    destruct (pick is_vtt tracks) as [|[[|c0 u0]|] fmt0|] eqn:Hv;
      try discriminate;
      try (injection Hchoice as <- <-; exists is_vtt;
           split; [exact Hv|split; [discriminate|now left]]);
      (destruct (pick is_fallback tracks) as [|[[|c1 u1]|] fmt1|] eqn:Hf;
       try discriminate;
       injection Hchoice as <- <-; exists is_fallback;
       split; [exact Hf|split; [discriminate|now right]]). }
  destruct Hpick as (wanted & Hp & Hne & Hwanted).
  destruct (pick_inv _ _ _ _ Hp) as (Hw & c & Hin & He & Hu).
  exists i, captions, tracks, c. repeat split; try assumption.
  destruct Hwanted as [-> | ->].
  - unfold is_vtt in Hw. destruct (str_eq_dec caption_format (lit "vtt")) as [->|];
      [simpl; auto|discriminate].
  - unfold is_fallback in Hw.
    destruct (in_dec str_eq_dec caption_format _) as [Hin'|]; [|discriminate].
    simpl in Hin' |- *. tauto.
Qed.

Lemma download_invariant_witness :
  exists i captions tracks c,
    Returned example_info = Returned i
    /\ all_captions i = Some captions
    /\ [lit "en-orig"; lit "zh-Hant"; lit "fr"] = keys captions
    /\ In (lit "zh-Hant") [lit "en-orig"; lit "zh-Hant"; lit "fr"]
    /\ dict_get (lit "zh-Hant") captions = Some tracks
    /\ In c tracks
    /\ ext c = Val (lit "vtt")
    /\ url c = Val (lit "https://c/3")
    /\ lit "https://c/3" <> []
    /\ In (lit "vtt") [lit "vtt"; lit "srv1"; lit "srv2"; lit "srv3"; lit "json3"].
Proof.
  apply (download_invariant (U := basic_latin) (Some (lit "zh")) (Returned example_info)).
  reflexivity.
Defined.

End TranscriptCaptionFacts.

(* ===================================================================== *)
(** * Properties of the transcript text *)
(* ===================================================================== *)

Module TranscriptTextFacts.
Import PyStr PyStrFacts StripFacts TranscriptText.

(** ** Characters that the string operations keep *)

Lemma sub_tags_In (c : char) (s : str) :
  forall inside, In c (sub_tags inside s) -> In c s.
Proof.
  induction s as [|a s IH]; intros inside; simpl; [auto|].
  destruct inside.
  - destruct (a =? 62)%N; intros H; right; eapply IH; exact H.
  - destruct ((a =? 60)%N && closes s).
    + intros H. right. eapply IH. exact H.
    + intros [H | H]; [now left|right; eapply IH; exact H].
Qed.

Lemma replace_from_In (old new : str) (c : char) (s : str) :
  forall skip, In c (replace_from old new skip s) -> In c s \/ In c new.
Proof.
  induction s as [|a s IH]; intros skip; simpl; [auto|].
  destruct skip as [|k].
  - destruct (startswith old (a :: s)).
    + intros H. apply in_app_or in H. destruct H as [H | H]; [now right|].
      destruct (IH _ H); auto.
    + intros [H | H]; [auto|]. destruct (IH _ H); auto.
  - intros H. destruct (IH _ H); auto.
Qed.

Lemma clean_newline (line : str) :
  ~ In Search.newline line -> ~ In Search.newline (clean line).
Proof.
  intros Hfree H. unfold clean, replace in H.
  repeat match type of H with
         | In _ (replace_from _ _ _ _) =>
             apply replace_from_In in H;
             destruct H as [H | H];
             [|simpl in H; unfold Search.newline in H;
               repeat (destruct H as [H | H]; [discriminate|]); contradiction]
         end.
  apply sub_tags_In in H. contradiction.
Qed.

(** ** [split] and [join] *)

(** Lines without a newline come back when their join is split. *)
Lemma split_join_lines (lines : list str) :
  lines <> [] ->
  Forall (fun l => ~ In Search.newline l) lines ->
  split Search.newline (Search.join_lines lines) = lines.
Proof.
  induction lines as [|l lines IH]; intros Hne Hfree; [contradiction|].
  inversion Hfree as [|? ? Hl Hrest]; subst.
  destruct lines as [|l2 lines].
  - simpl. now apply split_free.
  - change (Search.join_lines (l :: l2 :: lines))
      with (l ++ Search.newline :: Search.join_lines (l2 :: lines)).
    rewrite split_app_sep by assumption.
    rewrite IH; [reflexivity|discriminate|assumption].
Qed.

(** ** [dedupe] *)

Lemma dedupe_head (lines : list str) :
  forall p x rest, dedupe (Some p) lines = x :: rest -> x <> p.
Proof.
  induction lines as [|line lines IH]; simpl; intros p x rest H; [discriminate|].
  destruct (str_eq_dec line p) as [->|Hne].
  - now apply (IH p x rest).
  - injection H as <- _. exact Hne.
Qed.

Lemma dedupe_step (prev : option str) (line : str) (lines : list str) :
  dedupe prev (line :: lines) = dedupe prev lines
  \/ dedupe prev (line :: lines) = line :: dedupe (Some line) lines.
Proof.
  simpl. destruct prev as [p|]; [|now right].
  destruct (str_eq_dec line p); auto.
Qed.

(** No two neighbours of the result are equal. *)
Lemma dedupe_no_repeat (lines : list str) :
  forall prev pre a b post,
    dedupe prev lines = pre ++ a :: b :: post -> a <> b.
Proof.
  induction lines as [|line lines IH]; intros prev pre a b post H.
  - destruct pre; discriminate.
  - destruct (dedupe_step prev line lines) as [E | E]; rewrite E in H.
    + now apply (IH prev pre a b post).
    + destruct pre as [|x pre]; simpl in H.
      * injection H as <- H. intros <-.
        now apply (dedupe_head lines line line post).
      * injection H as _ H. now apply (IH (Some line) pre a b post).
Qed.

Lemma dedupe_incl (lines : list str) :
  forall prev x, In x (dedupe prev lines) -> In x lines.
Proof.
  induction lines as [|line lines IH]; intros prev x H; [contradiction|].
  destruct (dedupe_step prev line lines) as [E | E]; rewrite E in H.
  - right. now apply (IH prev).
  - destruct H as [<- | H]; [now left|right; now apply (IH (Some line))].
Qed.

(** ** Tags *)

Lemma closes_gt (s : str) : closes (62%N :: s) = false.
Proof. reflexivity. Qed.

Lemma closes_without_gt (s : str) : ~ In 62%N s -> closes s = false.
Proof.
  intros H. unfold closes.
  assert (Hs : snd (span (fun c => negb (c =? 62)%N) s) = []).
  { induction s as [|c s IH]; [reflexivity|]. simpl.
    destruct (N.eqb_spec c 62) as [->|Hc]; [elim H; simpl; auto|].
    simpl. destruct (span (fun c0 => negb (c0 =? 62)%N) s) as [a b] eqn:E.
    simpl in *. apply IH. intros Hin. apply H. simpl. auto. }
  destruct (span (fun c => negb (c =? 62)%N) s) as [a b]. simpl in Hs.
  subst b. now destruct a.
Qed.

Lemma closes_false (s : str) :
  closes s = false -> (exists rest, s = 62%N :: rest) \/ ~ In 62%N s.
Proof.
  unfold closes. destruct s as [|c s]; [auto|].
  destruct (N.eqb_spec c 62) as [->|Hc]; [eauto|].
  intros H. right. simpl in H.
  rewrite (proj2 (N.eqb_neq c 62) Hc) in H. simpl in H.
  destruct (span (fun c0 => negb (c0 =? 62)%N) s) as [a b] eqn:E.
  destruct b as [|x b]; [|discriminate].
  pose proof (span_app (fun c0 => negb (c0 =? 62)%N) s) as Happ.
  rewrite E in Happ. simpl in Happ. rewrite app_nil_r in Happ. subst a.
  clear H. intros [Heq | Hin]; [congruence|].
  revert E Hin. clear. induction s as [|d s IH]; [contradiction|].
  simpl. destruct (N.eqb_spec d 62) as [->|Hd]; simpl; [discriminate|].
  destruct (span (fun c0 => negb (c0 =? 62)%N) s) as [a b].
  intros E [Heq | Hin]; [congruence|].
  injection E as E1 E2. subst b. apply IH; [|exact Hin]. now rewrite E1.
Qed.

(** After the substitution no [<] is left that a tag could begin at. *)
Lemma sub_tags_no_tag (s : str) :
  forall inside pre post,
    sub_tags inside s = pre ++ 60%N :: post -> closes post = false.
Proof.
  induction s as [|c s IH]; intros inside pre post H; simpl in H.
  - destruct pre; discriminate.
  - destruct inside.
    + destruct (c =? 62)%N; eapply IH; exact H.
    + destruct ((c =? 60)%N && closes s) eqn:Hc; [eapply IH; exact H|].
      destruct pre as [|x pre]; simpl in H.
      * injection H as -> H. simpl in Hc.
        destruct (closes_false s Hc) as [(rest & ->) | Hfree].
        -- simpl in H. rewrite <- H. apply closes_gt.
        -- apply closes_without_gt. intros Hin. apply Hfree.
           apply (sub_tags_In _ _ false). now rewrite H.
      * injection H as _ H. eapply IH. exact H.
Qed.

Lemma sub_tags_fixed (t : str) :
  (forall pre post, t = pre ++ 60%N :: post -> closes post = false) ->
  sub_tags false t = t.
Proof.
  induction t as [|c t IH]; intros H; simpl; [reflexivity|].
  assert (Hc : (c =? 60)%N && closes t = false).
  { destruct (N.eqb_spec c 60) as [->|]; [|reflexivity].
    simpl. apply (H [] t). reflexivity. }
  rewrite Hc. f_equal. apply IH.
  intros pre post E. apply (H (c :: pre) post). now rewrite E.
Qed.

(** X15. Removing the tags of a line leaves a text without tags: no [<] of the
    result is followed by a character other than [>] and, later, by a [>];
    removing the tags once more changes nothing. *)
Theorem sub_tags_leaves_no_tag (line : str) :
  (forall pre post,
     sub_tags false line = pre ++ 60%N :: post -> closes post = false)
  /\ sub_tags false (sub_tags false line) = sub_tags false line.
Proof.
  assert (H : forall pre post,
            sub_tags false line = pre ++ 60%N :: post -> closes post = false)
    by apply sub_tags_no_tag.
  split; [exact H|]. now apply sub_tags_fixed.
Qed.

(** ** Text without markup *)

Lemma startswith_head (c : char) (old s : str) :
  startswith (c :: old) s = true -> In c s.
Proof.
  destruct s as [|a s]; simpl; [discriminate|].
  destruct (N.eqb_spec c a) as [->|]; [auto|discriminate].
Qed.

Lemma replace_absent (c : char) (old new s : str) :
  ~ In c s -> replace (c :: old) new s = s.
Proof.
  unfold replace. induction s as [|a s IH]; intros H; [reflexivity|].
  cbn [replace_from].
  destruct (startswith (c :: old) (a :: s)) eqn:Hs.
  - elim H. now apply (startswith_head c old).
  - f_equal. apply IH. intros Hin. apply H. simpl. auto.
Qed.

(** X23. A line without [<] and without [&] has no markup: the tag removal
    and the five entity replacements leave it as it is. *)
Theorem clean_plain_text (line : str) :
  ~ In 60%N line -> ~ In 38%N line -> clean line = line.
Proof.
  intros Hlt Hamp.
  assert (Htags : sub_tags false line = line).
  { apply sub_tags_fixed. intros pre post E. elim Hlt. rewrite E.
    apply in_or_app. right. now left. }
  unfold clean. cbv zeta. rewrite Htags.
  change (lit "&nbsp;") with (38%N :: lit "nbsp;").
  change (lit "&amp;") with (38%N :: lit "amp;").
  change (lit "&lt;") with (38%N :: lit "lt;").
  change (lit "&gt;") with (38%N :: lit "gt;").
  change (lit "&quot;") with (38%N :: lit "quot;").
  rewrite (replace_absent 38%N (lit "nbsp;") _ line Hamp).
  rewrite (replace_absent 38%N (lit "amp;") _ line Hamp).
  rewrite (replace_absent 38%N (lit "lt;") _ line Hamp).
  rewrite (replace_absent 38%N (lit "gt;") _ line Hamp).
  exact (replace_absent 38%N (lit "quot;") _ line Hamp).
Qed.

Lemma clean_plain_text_witness :
  clean (lit "Hello world > all") = lit "Hello world > all".
Proof.
  apply (clean_plain_text (lit "Hello world > all")).
  - simpl. intros H.
    repeat (destruct H as [H | H]; [discriminate|]). contradiction.
  - simpl. intros H.
    repeat (destruct H as [H | H]; [discriminate|]). contradiction.
Defined.

(** ** The lines of the transcript *)

Section WithRuntime.
Variable is_digit : char -> bool.
Variable requests_get : str -> option str.
Variable json_loads : str -> option data.

Lemma cue_lines_source (lines : list str) (l : str) :
  In l (cue_lines is_digit lines) ->
  l <> []
  /\ exists line,
       In line lines /\ skipped is_digit line = false /\ l = strip (clean line).
Proof.
  induction lines as [|line lines IH]; simpl; [contradiction|].
  assert (Hrest : In l (cue_lines is_digit lines) ->
                  l <> []
                  /\ exists line0,
                       In line0 (line :: lines)
                       /\ skipped is_digit line0 = false
                       /\ l = strip (clean line0)).
  { intros H. destruct (IH H) as (Hne & line0 & Hin & Hs & Hl).
    split; [exact Hne|]. exists line0. simpl. auto. }
  destruct (skipped is_digit line) eqn:Hs; [exact Hrest|].
  destruct (strip (clean line)) as [|c t] eqn:Hc; simpl; [exact Hrest|].
  intros [<- | H]; [|now apply Hrest].
  split; [discriminate|]. exists line. simpl. auto.
Qed.

Lemma event_lines_stripped (es : list event) (l : str) :
  In l (event_lines es) -> l <> [] /\ strip l = l.
Proof.
  induction es as [|e es IH]; [contradiction|].
  cbn [event_lines].
  destruct (segs e) as [ss|]; [|exact IH].
  destruct (parts ss) as [|p ps]; [exact IH|].
  destruct (strip (concat (p :: ps))) as [|c t] eqn:Hc; cbn [falsy];
    [exact IH|].
  intros [<- | H]; [|now apply IH].
  split; [discriminate|]. rewrite <- Hc. apply strip_strip.
Qed.

(** What the loop over the lines of a payload keeps, after the repeated
    lines are removed. *)
Lemma kept_lines (text : str) (l : str) :
  In l (dedupe None (cue_lines is_digit (split Search.newline text))) ->
  l <> [] /\ strip l = l /\ ~ In Search.newline l
  /\ exists line,
       In line (split Search.newline text)
       /\ skipped is_digit line = false
       /\ l = strip (clean line).
Proof.
  intros Hl. apply dedupe_incl in Hl.
  destruct (cue_lines_source _ l Hl) as (Hne & line & Hin & Hs & E).
  split; [exact Hne|]. split; [rewrite E; apply strip_strip|].
  split; [|now exists line].
  rewrite E. intros Hn. apply strip_In in Hn.
  apply (clean_newline line); [|exact Hn].
  now apply (split_In_free Search.newline text).
Qed.

(** X16. The text that [_parse_vtt] returns is the join of the list [result]
    of the function. Each line of it is the stripped, cleaned text of a
    line of the payload that was not passed over; it is not empty, has no
    white space at its ends and no newline; no two neighbours are equal.
    When there is a line at all, splitting the returned text at the newlines
    gives the lines back. *)
Theorem parse_vtt_lines (text : str) :
  exists result,
    _parse_vtt is_digit requests_get text = Search.join_lines result
    /\ Forall (fun l =>
                 l <> [] /\ strip l = l /\ ~ In Search.newline l
                 /\ exists line,
                      In line (split Search.newline
                                 (playlist_text requests_get text))
                      /\ skipped is_digit line = false
                      /\ l = strip (clean line)) result
    /\ (forall pre a b post, result = pre ++ a :: b :: post -> a <> b)
    /\ (result <> [] ->
        split Search.newline (_parse_vtt is_digit requests_get text) = result).
Proof.
  unfold _parse_vtt. cbv zeta.
  exists (dedupe None
            (cue_lines is_digit
               (split Search.newline (playlist_text requests_get text)))).
  assert (Hall : Forall (fun l =>
                   l <> [] /\ strip l = l /\ ~ In Search.newline l
                   /\ exists line,
                        In line (split Search.newline
                                   (playlist_text requests_get text))
                        /\ skipped is_digit line = false
                        /\ l = strip (clean line))
                   (dedupe None
                      (cue_lines is_digit
                         (split Search.newline
                            (playlist_text requests_get text))))).
  { apply Forall_forall. intros l Hl. now apply kept_lines. }
  split; [reflexivity|]. split; [exact Hall|]. split.
  - intros pre a b post. apply dedupe_no_repeat.
  - intros Hne. apply split_join_lines; [exact Hne|].
    eapply Forall_impl; [|exact Hall]. simpl. tauto.
Qed.

(** X17. Whatever the caption format, the transcript is the join of lines that
    are not empty, have no white space at their ends, and differ from their
    neighbours; a json3 payload that does not decode is read as WebVTT. *)
Theorem transcript_lines (caption_format text : str) :
  (exists result,
     parse is_digit requests_get json_loads caption_format text
     = Search.join_lines result
     /\ Forall (fun l => l <> [] /\ strip l = l) result
     /\ forall pre a b post, result = pre ++ a :: b :: post -> a <> b)
  /\ (json_loads text = None ->
      parse is_digit requests_get json_loads caption_format text
      = _parse_vtt is_digit requests_get text).
Proof.
  assert (Hvtt : exists result,
            _parse_vtt is_digit requests_get text = Search.join_lines result
            /\ Forall (fun l => l <> [] /\ strip l = l) result
            /\ forall pre a b post, result = pre ++ a :: b :: post -> a <> b).
  { unfold _parse_vtt. cbv zeta. eexists. split; [reflexivity|]. split.
    - apply Forall_forall. intros l Hl.
      destruct (kept_lines _ l Hl) as (Hne & Hs & _). now split.
    - intros pre a b post. apply dedupe_no_repeat. }
  unfold parse, _parse_json3.
  destruct (str_eq_dec caption_format (lit "json3")); [|now split].
  destruct (json_loads text) as [d|]; [|now split].
  split; [|discriminate].
  eexists. split; [reflexivity|]. split.
  - apply Forall_forall. intros l Hl. apply dedupe_incl in Hl.
    destruct (events d) as [es|]; [|contradiction].
    now apply (event_lines_stripped es).
  - intros pre a b post. apply dedupe_no_repeat.
Qed.

End WithRuntime.

(** The example payload: the header, the numbers and the timings are
    passed over, the tag and the entity are resolved, and the repeated cue
    is kept once. *)
Lemma example_vtt_transcript :
  _parse_vtt ascii_digit offline example_vtt
  = Search.join_lines [lit "Hello world"; lit "Tom & Jerry"].
Proof. reflexivity. Qed.

End TranscriptTextFacts.

(* ===================================================================== *)
(** * More properties of the search result parser *)
(* ===================================================================== *)

Module SearchResultFacts.
Import PyStr PyStrFacts StripFacts Search SearchFacts.

(** ** [span] *)

Lemma span_spec (p : char -> bool) (s : str) :
  Forall (fun c => p c = true) (fst (span p s))
  /\ match snd (span p s) with
     | [] => True
     | c :: _ => p c = false
     end.
Proof.
  induction s as [|c s IH]; simpl; [auto|].
  destruct (p c) eqn:Hc; [|simpl; auto].
  destruct (span p s) as [a b]. simpl in *.
  destruct IH as [Ha Hb]. auto.
Qed.

Lemma span_all (p : char -> bool) (s : str) :
  Forall (fun c => p c = true) s -> span p s = (s, []).
Proof.
  induction 1 as [|c s Hc Hs IH]; simpl; [reflexivity|].
  now rewrite Hc, IH.
Qed.

Lemma span_app_all (p : char -> bool) (a s : str) :
  Forall (fun c => p c = true) a ->
  fst (span p (a ++ s)) = a ++ fst (span p s).
Proof.
  induction 1 as [|c a Hc Ha IH]; simpl; [reflexivity|].
  rewrite Hc. destruct (span p (a ++ s)) as [x y]. simpl in *. now rewrite IH.
Qed.

(** ** Cutting a line that has no newline *)

Lemma dot_star_end_free (s : str) :
  ~ In newline s -> dot_star_end s = Some [].
Proof.
  intros H. unfold dot_star_end.
  rewrite span_all; [reflexivity|].
  apply Forall_forall. intros c Hc.
  destruct (N.eqb_spec c newline) as [->|]; [contradiction|reflexivity].
Qed.

(** On a text without a newline, [sub_to_end] with a set of characters as
    head keeps the text in front of the first character of the set. *)
Lemma sub_to_end_one_of_free (set : list char) (s : str) :
  ~ In newline s ->
  sub_to_end (one_of set) s
  = fst (span (fun c => negb (existsb (N.eqb c) set)) s).
Proof.
  induction s as [|c s IH]; intros H; [reflexivity|].
  assert (Hs : ~ In newline s) by (intros Hin; apply H; simpl; auto).
  simpl. destruct (existsb (N.eqb c) set); simpl.
  - now rewrite (dot_star_end_free s Hs).
  - rewrite (IH Hs).
    now destruct (span (fun c0 => negb (existsb (N.eqb c0) set)) s).
Qed.

(** On a text without a newline, [sub_to_end] keeps a prefix. *)
Lemma sub_to_end_prefix (head : str -> option str) (s : str) :
  (forall t after, head t = Some after -> exists m, t = m ++ after) ->
  ~ In newline s ->
  exists cut, s = sub_to_end head s ++ cut.
Proof.
  intros Hhead Hfree.
  destruct (sub_to_end_shape head s Hhead) as (kept & cut & rest & E & -> & Hrest).
  destruct Hrest as [-> | ->].
  - exists cut. now rewrite !app_nil_r in *.
  - elim Hfree. rewrite E. apply in_or_app. right. apply in_or_app. right.
    now left.
Qed.

(** ** The parts of a header *)

Lemma match_link_shape (s u : str) :
  match_link s = Some u ->
  exists scheme body after,
    (scheme = lit "https://" \/ scheme = lit "http://")
    /\ u = scheme ++ body
    /\ Forall (fun c => c <> 41%N) body
    /\ s = lit "](" ++ u ++ 41%N :: after
    /\ at_end after = true
    /\ body <> [].
Proof.
  unfold match_link.
  destruct (strip_prefix (lit "](") s) as [target|] eqn:Hp; [|discriminate].
  apply strip_prefix_inv in Hp. subst s.
  assert (Hbody : forall scheme,
            startswith scheme target = true ->
            (let (body, rest) :=
               span (fun c => negb (c =? 41)%N) (skipn (length scheme) target) in
             match body, rest with
             | _ :: _, _ :: after =>
                 if at_end after then Some (scheme ++ body) else None
             | _, _ => None
             end) = Some u ->
            exists body after,
              u = scheme ++ body
              /\ Forall (fun c => c <> 41%N) body
              /\ lit "](" ++ target = lit "](" ++ u ++ 41%N :: after
              /\ at_end after = true
              /\ body <> []).
  { intros scheme Hs H. apply startswith_inv in Hs.
    pose proof (span_spec (fun c => negb (c =? 41)%N)
                  (skipn (length scheme) target)) as [Hfst Hsnd].
    pose proof (span_app (fun c => negb (c =? 41)%N)
                  (skipn (length scheme) target)) as Happ.
    destruct (span (fun c => negb (c =? 41)%N) (skipn (length scheme) target))
      as [body rest].
    simpl in Hfst, Hsnd, Happ.
    destruct body as [|b body]; [discriminate|].
    destruct rest as [|r after]; [discriminate|].
    destruct (at_end after) eqn:He; [|discriminate].
    injection H as <-.
    exists (b :: body), after. split; [reflexivity|]. split.
    - eapply Forall_impl; [|exact Hfst]. simpl. intros c Hc ->. discriminate.
    - split; [|split; [exact He|discriminate]]. f_equal.
      apply negb_false_iff, N.eqb_eq in Hsnd. subst r.
      rewrite Hs at 1. rewrite Happ. now rewrite <- app_assoc. }
  destruct (startswith (lit "https://") target) eqn:H1.
  - intros H. destruct (Hbody _ H1 H) as (body & after & Hu).
    exists (lit "https://"), body, after. tauto.
  - destruct (startswith (lit "http://") target) eqn:H2; [|discriminate].
    intros H. destruct (Hbody _ H2 H) as (body & after & Hu).
    exists (lit "http://"), body, after. tauto.
Qed.

Lemma longest_title_shape (s t u : str) :
  longest_title s = Some (t, u) ->
  ~ In newline t
  /\ match_link (skipn (length t) s) = Some u
  /\ s = t ++ skipn (length t) s.
Proof.
  revert t. induction s as [|c s IH]; intros t; simpl; [discriminate|].
  destruct (if (c =? newline)%N then None else longest_title s)
    as [[t' u']|] eqn:Hl.
  - intros [= <- <-].
    destruct (N.eqb_spec c newline) as [|Hc]; [discriminate|].
    destruct (IH t' Hl) as (Hfree & Hm & Hs).
    simpl. split; [|split; [exact Hm|now f_equal]].
    intros [E | Hin]; [congruence|contradiction].
  - destruct (match_link (c :: s)) as [u'|] eqn:Hm; [|discriminate].
    intros [= <- <-]. simpl. auto.
Qed.

(** A header is the text [[### title](url)], and a newline may follow it;
    the title has no newline, the URL has a scheme and no closing
    parenthesis. *)
Lemma result_pattern_shape (line t u : str) :
  result_pattern line = Some (t, u) ->
  exists scheme body after,
    (scheme = lit "https://" \/ scheme = lit "http://")
    /\ u = scheme ++ body
    /\ Forall (fun c => c <> 41%N) body
    /\ ~ In newline t
    /\ line = lit "[### " ++ t ++ lit "](" ++ u ++ 41%N :: after
    /\ at_end after = true
    /\ body <> [] /\ t <> [].
Proof.
  unfold result_pattern.
  destruct (strip_prefix (lit "[### ") line) as [s|] eqn:Hp; [|discriminate].
  apply strip_prefix_inv in Hp.
  destruct (longest_title s) as [[[|c t'] u']|] eqn:Hl; try discriminate.
  intros [= <- <-].
  destruct (longest_title_shape _ _ _ Hl) as (Hfree & Hm & Hs).
  destruct (match_link_shape _ _ Hm)
    as (scheme & body & after & Hsch & Hu & Hb & E & He & Hne).
  exists scheme, body, after.
  split; [exact Hsch|]. split; [exact Hu|]. split; [exact Hb|].
  split; [exact Hfree|]. split; [|split; [exact He|split; [exact Hne|discriminate]]].
  rewrite Hp, Hs at 1. now rewrite E.
Qed.

Lemma nth_line_free (content : str) (i : nat) :
  ~ In newline (nth i (split newline content) []).
Proof.
  destruct (Nat.lt_ge_cases i (length (split newline content))) as [Hi | Hi].
  - apply (split_In_free newline content). now apply nth_In.
  - rewrite nth_overflow by exact Hi. auto.
Qed.

Section WithUnicode.
Context {U : Unicode}.

(** ** The URL of a result *)

(** X18. The [url] of a result starts with [http://] or [https://]; it has no
    [#], no [?], no closing parenthesis and no newline; cutting query string
    and fragment off once more changes nothing. *)
Theorem result_url_canonical (content : str) (r : result) :
  In r (parse_results content) ->
  (startswith (lit "https://") (url r) = true
   \/ startswith (lit "http://") (url r) = true)
  /\ Forall (fun c => ~ In c [35; 63; 41; 10]%N) (url r)
  /\ clean_url (url r) = url r.
Proof.
  intros Hin.
  destruct (parse_results_accepted content) as [_ Hacc].
  rewrite Forall_forall in Hacc.
  destruct (Hacc r Hin) as (i & t & u & Hi & Hp & _ & _ & _ & Hu & _).
  destruct (result_pattern_shape _ _ _ Hp)
    as (scheme & body & after & Hsch & E & Hbody & _ & Hline & _).
  assert (Hfree : ~ In newline u).
  { intros Hn. apply (nth_line_free content i). rewrite Hline.
    apply in_or_app. right. apply in_or_app. right.
    apply in_or_app. right. apply in_or_app. now left. }
  set (p := fun c : char => negb (existsb (N.eqb c) [35; 63]%N)).
  assert (Hclean : url r = fst (span p u)).
  { rewrite Hu. unfold clean_url. now apply sub_to_end_one_of_free. }
  assert (Hp_scheme : Forall (fun c => p c = true) scheme)
    by (destruct Hsch as [-> | ->]; repeat constructor).
  assert (Hurl : url r = scheme ++ fst (span p body))
    by (rewrite Hclean, E; now apply span_app_all).
  pose proof (proj1 (span_spec p u)) as Hkept. rewrite <- Hclean in Hkept.
  assert (Hprefix : exists cut, u = url r ++ cut).
  { exists (snd (span p u)). rewrite Hclean. apply span_app. }
  destruct Hprefix as (cut & Hcut).
  split; [|split].
  - rewrite Hurl. destruct Hsch as [-> | ->]; [left|right]; apply startswith_app.
  - apply Forall_forall. intros c Hc Hbad.
    assert (Hcu : In c u) by (rewrite Hcut; apply in_or_app; now left).
    rewrite Forall_forall in Hkept. specialize (Hkept c Hc). unfold p in Hkept.
    simpl in Hbad. destruct Hbad as [<- | [<- | [<- | [<- | []]]]];
      try discriminate.
    + rewrite E in Hcu. apply in_app_or in Hcu. destruct Hcu as [Hcu | Hcu].
      * destruct Hsch as [-> | ->]; simpl in Hcu;
          repeat (destruct Hcu as [Hcu | Hcu]; [discriminate|]); contradiction.
      * rewrite Forall_forall in Hbody. now apply (Hbody _ Hcu).
    + now apply Hfree.
  - unfold clean_url. rewrite sub_to_end_one_of_free.
    + fold p. now rewrite (span_all p (url r) Hkept).
    + intros Hn. apply Hfree. rewrite Hcut. apply in_or_app. now left.
Qed.

(** ** The title of a result *)

Lemma collapse_spaces_In (c : char) (s : str) :
  forall in_run, In c (collapse_spaces in_run s) -> In c s \/ c = 32%N.
Proof.
  induction s as [|a s IH]; intros in_run; simpl; [auto|].
  destruct (is_space a).
  - destruct in_run.
    + intros H. destruct (IH _ H); auto.
    + intros [<- | H]; [auto|]. destruct (IH _ H); auto.
  - intros [<- | H]; [auto|]. destruct (IH _ H); auto.
Qed.

Lemma collapse_spaces_only_space (s : str) :
  forall in_run,
    Forall (fun c => is_space c = true -> c = 32%N) (collapse_spaces in_run s).
Proof.
  induction s as [|a s IH]; intros in_run; simpl; [constructor|].
  destruct (is_space a) eqn:Ha.
  - destruct in_run; [apply IH|]. constructor; [auto|apply IH].
  - constructor; [|apply IH]. intros H. congruence.
Qed.

Lemma collapse_spaces_head (s : str) (rest : str) :
  collapse_spaces true s <> 32%N :: rest.
Proof.
  destruct s as [|a s]; simpl; [discriminate|].
  destruct (is_space a) eqn:Ha.
  - revert a Ha. induction s as [|b s IH]; intros a Ha; simpl; [discriminate|].
    destruct (is_space b) eqn:Hb; [now apply (IH b)|].
    intros [= E _]. rewrite E in Hb. discriminate.
  - intros [= E _]. rewrite E in Ha. discriminate.
Qed.

Lemma collapse_spaces_single (s : str) :
  forall in_run pre post,
    collapse_spaces in_run s <> pre ++ 32%N :: 32%N :: post.
Proof.
  induction s as [|a s IH]; intros in_run pre post; simpl.
  - destruct pre; discriminate.
  - destruct (is_space a) eqn:Ha.
    + destruct in_run; [apply IH|].
      destruct pre as [|x pre]; simpl.
      * intros [= E]. now apply (collapse_spaces_head s post).
      * intros [= _ E]. now apply (IH true pre post).
    + destruct pre as [|x pre]; simpl.
      * intros [= E _]. rewrite E in Ha. discriminate.
      * intros [= _ E]. now apply (IH false pre post).
Qed.

Lemma lstrip_suffix (s : str) : exists a, s = a ++ lstrip s.
Proof.
  induction s as [|c s IH]; simpl; [now exists []|].
  destruct (is_space c); [|now exists []].
  destruct IH as (a & Ha). exists (c :: a). simpl. now f_equal.
Qed.

(** [strip] keeps a piece of the text. *)
Lemma strip_middle (s : str) : exists a b, s = a ++ strip s ++ b.
Proof.
  unfold strip, rstrip.
  destruct (lstrip_suffix s) as (a & Ha).
  destruct (lstrip_suffix (rev (lstrip s))) as (b & Hb).
  exists a, (rev b). rewrite <- rev_app_distr, <- Hb, rev_involutive.
  exact Ha.
Qed.

(** X19. The [title] of a result is set in single spaces: it has no white space
    at its ends, its only white space character is the space, no two spaces
    are neighbours, and it has no backslash and no breadcrumb mark (U+203A,
    U+00BB). *)
Theorem result_title_normalised (content : str) (r : result) :
  In r (parse_results content) ->
  title r <> []
  /\ strip (title r) = title r
  /\ Forall (fun c => is_space c = true -> c = 32%N) (title r)
  /\ (forall pre post, title r <> pre ++ 32%N :: 32%N :: post)
  /\ Forall (fun c => ~ In c [92; 8250; 187]%N) (title r).
Proof.
  intros Hin.
  destruct (parse_results_accepted content) as [_ Hacc].
  rewrite Forall_forall in Hacc.
  destruct (Hacc r Hin) as (i & t & u & Hi & Hp & _ & Ht & Hne & _).
  destruct (result_pattern_shape _ _ _ Hp)
    as (scheme & body & after & _ & _ & _ & Hfree & _).
  split; [exact Hne|].
  rewrite Ht. unfold clean_title.
  set (t1 := sub_to_end (fun s => strip_prefix (lit "![") (lstrip s)) t).
  set (t2 := sub_to_end (one_of [92; 8250; 187]%N) t1).
  set (t3 := collapse_spaces false t2).
  destruct (strip_middle t3) as (a & b & Hmid).
  split; [apply strip_strip|]. split; [|split].
  - pose proof (collapse_spaces_only_space t2 false) as H. fold t3 in H.
    rewrite Hmid in H. apply Forall_app in H. destruct H as [_ H].
    apply Forall_app in H. tauto.
  - intros pre post E.
    apply (collapse_spaces_single t2 false (a ++ pre) (post ++ b)).
    fold t3. rewrite Hmid, E. now rewrite <- !app_assoc.
  - assert (Hfree1 : ~ In newline t1).
    { destruct (sub_to_end_prefix
                  (fun s => strip_prefix (lit "![") (lstrip s)) t) as (cut & Hcut).
      - intros x rest Hx. apply strip_prefix_inv in Hx.
        destruct (lstrip_suffix x) as (sp & Hsp).
        exists (sp ++ lit "!["). rewrite Hsp at 1. rewrite Hx.
        now rewrite <- app_assoc.
      - exact Hfree.
      - fold t1 in Hcut. intros Hn. apply Hfree. rewrite Hcut.
        apply in_or_app. now left. }
    assert (H2 : Forall (fun c => negb (existsb (N.eqb c) [92; 8250; 187]%N) = true) t2).
    { unfold t2. rewrite (sub_to_end_one_of_free _ t1 Hfree1). apply span_spec. }
    apply Forall_forall. intros c Hc Hbad.
    assert (Hc3 : In c t3).
    { rewrite Hmid. apply in_or_app. right. apply in_or_app. now left. }
    apply collapse_spaces_In in Hc3. destruct Hc3 as [Hc2 | ->].
    + rewrite Forall_forall in H2. specialize (H2 c Hc2).
      simpl in Hbad. destruct Hbad as [<- | [<- | [<- | []]]]; discriminate.
    + simpl in Hbad. destruct Hbad as [E | [E | [E | []]]]; discriminate.
Qed.

(** ** The order of the results *)

Lemma sorted_snoc (idx : list nat) (i : nat) :
  StronglySorted lt idx -> Forall (fun j => j < i) idx ->
  StronglySorted lt (idx ++ [i]).
Proof.
  induction 1 as [|j idx Hs IH Hj]; intros Hlt; simpl.
  - constructor; constructor.
  - inversion Hlt as [|? ? Hji Hrest]; subst.
    constructor; [now apply IH|].
    apply Forall_app. split; [exact Hj|]. now constructor.
Qed.

Lemma loop_order (lines : list str) :
  forall n i seen_urls results idx,
    i + n = length lines ->
    Forall2 (fun j r =>
               exists raw_title raw_url,
                 result_pattern (nth j lines []) = Some (raw_title, raw_url)
                 /\ title r = clean_title raw_title
                 /\ url r = clean_url raw_url
                 /\ description r = find_description lines j) idx results ->
    Forall (fun j => j < i) idx ->
    StronglySorted lt idx ->
    exists indices,
      Forall2 (fun j r =>
                 exists raw_title raw_url,
                   result_pattern (nth j lines []) = Some (raw_title, raw_url)
                   /\ title r = clean_title raw_title
                   /\ url r = clean_url raw_url
                   /\ description r = find_description lines j)
        indices (loop lines n i seen_urls results)
      /\ Forall (fun j => j < length lines) indices
      /\ StronglySorted lt indices.
Proof.
  induction n as [|n IH]; intros i seen_urls results idx Hi Hfrom Hlt Hsorted.
  - simpl. exists idx. split; [exact Hfrom|]. split; [|exact Hsorted].
    eapply Forall_impl; [|exact Hlt]. simpl. intros j Hj. lia.
  - assert (Hskip : exists indices,
              Forall2 (fun j r =>
                         exists raw_title raw_url,
                           result_pattern (nth j lines []) = Some (raw_title, raw_url)
                           /\ title r = clean_title raw_title
                           /\ url r = clean_url raw_url
                           /\ description r = find_description lines j)
                indices (loop lines n (i + 1) seen_urls results)
              /\ Forall (fun j => j < length lines) indices
              /\ StronglySorted lt indices).
    { apply (IH (i + 1) seen_urls results idx); try assumption; [lia|].
      eapply Forall_impl; [|exact Hlt]. simpl. intros j Hj. lia. }
    simpl.
    destruct (result_pattern (nth i lines [])) as [[raw_title raw_url]|] eqn:Hhead;
      [|exact Hskip].
    destruct (should_filter raw_url
              || (if in_dec str_eq_dec (clean_url raw_url) seen_urls
                  then true else false)
              || falsy (clean_title raw_title)); [exact Hskip|].
    apply (IH (i + 1) _ _ (idx ++ [i])).
    + lia.
    + apply Forall2_app; [exact Hfrom|]. constructor; [|constructor].
      exists raw_title, raw_url. simpl. auto.
    + apply Forall_app. split.
      * eapply Forall_impl; [|exact Hlt]. simpl. intros j Hj. lia.
      * constructor; [lia|constructor].
    + now apply sorted_snoc.
Qed.

(** X20. The results come in the order of the page: they are the results of
    header lines at increasing positions, one result a header, each with the
    cleaned title and URL of its header and with the description found after
    it. *)
Theorem results_in_page_order (content : str) :
  exists indices,
    Forall2 (fun j r =>
               exists raw_title raw_url,
                 result_pattern (nth j (split newline content) [])
                 = Some (raw_title, raw_url)
                 /\ title r = clean_title raw_title
                 /\ url r = clean_url raw_url
                 /\ description r = find_description (split newline content) j)
      indices (parse_results content)
    /\ Forall (fun j => j < length (split newline content)) indices
    /\ StronglySorted lt indices.
Proof.
  unfold parse_results. cbv zeta.
  apply (loop_order (split newline content) _ 0 [] [] []); auto; constructor.
Qed.

(** ** The headers that are reported *)

Lemma loop_complete (lines : list str) :
  forall n i seen_urls results,
    (forall u, In u seen_urls -> In u (map url results)) ->
    incl results (loop lines n i seen_urls results)
    /\ forall j raw_title raw_url,
         i <= j < i + n ->
         result_pattern (nth j lines []) = Some (raw_title, raw_url) ->
         should_filter raw_url = false ->
         clean_title raw_title <> [] ->
         In (clean_url raw_url) (map url (loop lines n i seen_urls results)).
Proof.
  induction n as [|n IH]; intros i seen_urls results Hseen.
  - simpl. split; [apply incl_refl|]. intros j t u Hj. lia.
  - simpl.
    destruct (result_pattern (nth i lines [])) as [[raw_title raw_url]|] eqn:Hhead.
    + destruct (should_filter raw_url) eqn:Hfilter; simpl.
      * destruct (IH (i + 1) seen_urls results Hseen) as [Hincl Hlater].
        split; [exact Hincl|]. intros j t u Hj Hp Hf Ht.
        destruct (Nat.eq_dec j i) as [->|Hne]; [congruence|].
        apply (Hlater j t u); auto; lia.
      * destruct (in_dec str_eq_dec (clean_url raw_url) seen_urls) as [Hdup|Hnew];
          simpl.
        -- destruct (IH (i + 1) seen_urls results Hseen) as [Hincl Hlater].
           split; [exact Hincl|]. intros j t u Hj Hp Hf Ht.
           destruct (Nat.eq_dec j i) as [->|Hne].
           ++ rewrite Hhead in Hp. injection Hp as <- <-.
              apply Hseen in Hdup. apply in_map_iff in Hdup.
              destruct Hdup as (r & Hr & Hin).
              apply in_map_iff. exists r. auto.
           ++ apply (Hlater j t u); auto; lia.
        -- destruct (falsy (clean_title raw_title)) eqn:Htitle.
           ++ destruct (IH (i + 1) seen_urls results Hseen) as [Hincl Hlater].
              split; [exact Hincl|]. intros j t u Hj Hp Hf Ht.
              destruct (Nat.eq_dec j i) as [->|Hne].
              ** rewrite Hhead in Hp. injection Hp as <- <-.
                 destruct (clean_title raw_title); [now elim Ht|discriminate].
              ** apply (Hlater j t u); auto; lia.
           ++ set (r := {| title := clean_title raw_title;
                           url := clean_url raw_url;
                           description := find_description lines i |}).
              destruct (IH (i + 1) (clean_url raw_url :: seen_urls)
                          (results ++ [r])) as [Hincl Hlater].
              { intros u [<- | Hu]; rewrite map_app; apply in_or_app.
                - right. simpl. auto.
                - left. now apply Hseen. }
              split.
              ** intros x Hx. apply Hincl. apply in_or_app. now left.
              ** intros j t u Hj Hp Hf Ht.
                 destruct (Nat.eq_dec j i) as [->|Hne].
                 --- rewrite Hhead in Hp. injection Hp as <- <-.
                     apply in_map_iff. exists r. split; [reflexivity|].
                     apply Hincl. apply in_or_app. right. simpl. auto.
                 --- apply (Hlater j t u); auto; lia.
    + destruct (IH (i + 1) seen_urls results Hseen) as [Hincl Hlater].
      split; [exact Hincl|]. intros j t u Hj Hp Hf Ht.
      destruct (Nat.eq_dec j i) as [->|Hne]; [congruence|].
      apply (Hlater j t u); auto; lia.
Qed.

(** X21. No acceptable header is lost: when a line of the page is a header whose
    URL is not filtered and whose cleaned title is not empty, the results
    have one with the cleaned URL of this header. *)
Theorem acceptable_header_is_reported (content : str) (i : nat)
  (raw_title raw_url : str) :
  i < length (split newline content) ->
  result_pattern (nth i (split newline content) []) = Some (raw_title, raw_url) ->
  should_filter raw_url = false ->
  clean_title raw_title <> [] ->
  exists r, In r (parse_results content) /\ url r = clean_url raw_url.
Proof.
  intros Hi Hp Hf Ht.
  destruct (loop_complete (split newline content)
              (length (split newline content)) 0 [] [])
    as [_ H]; [intros u []|].
  specialize (H i raw_title raw_url ltac:(lia) Hp Hf Ht).
  apply in_map_iff in H. destruct H as (r & Hr & Hin).
  exists r. auto.
Qed.

End WithUnicode.

Lemma result_url_canonical_witness :
  (startswith (lit "https://") (url example_result) = true
   \/ startswith (lit "http://") (url example_result) = true)
  /\ Forall (fun c => ~ In c [35; 63; 41; 10]%N) (url example_result)
  /\ clean_url (url example_result) = url example_result.
Proof.
  apply (result_url_canonical (U := basic_latin) example_page example_result).
  vm_compute. auto.
Defined.

Lemma result_title_normalised_witness :
  title example_result <> []
  /\ strip (title example_result) = title example_result
  /\ Forall (fun c => is_space c = true -> c = 32%N) (title example_result)
  /\ (forall pre post, title example_result <> pre ++ 32%N :: 32%N :: post)
  /\ Forall (fun c => ~ In c [92; 8250; 187]%N) (title example_result).
Proof.
  apply (result_title_normalised (U := basic_latin) example_page example_result).
  vm_compute. auto.
Defined.

Lemma acceptable_header_is_reported_witness :
  exists r,
    In r (parse_results (U := basic_latin) example_page)
    /\ url r = clean_url (lit "https://example.com/page?x=1#frag").
Proof.
  apply (acceptable_header_is_reported (U := basic_latin) example_page 0
           (lit "Example Title") (lit "https://example.com/page?x=1#frag")).
  - vm_compute. lia.
  - vm_compute. reflexivity.
  - vm_compute. reflexivity.
  - vm_compute. discriminate.
Defined.

End SearchResultFacts.

(* ===================================================================== *)
(** * The description scan against the words of the specification *)
(* ===================================================================== *)

Module SearchSpecFacts.
Import PyStr PyStrFacts StripFacts Search SearchFacts SearchResultFacts SearchSpec.

(** ** Character classes *)

Lemma in_range_spec (lo hi c : N) :
  in_range lo hi c = true <-> (lo <= c <= hi)%N.
Proof.
  unfold in_range. rewrite andb_true_iff, !N.leb_le. tauto.
Qed.

Lemma is_letter_ci_spec (c : char) : is_letter_ci c = true <-> letter c.
Proof.
  unfold is_letter_ci, letter.
  rewrite !orb_true_iff, !in_range_spec, !N.eqb_eq. tauto.
Qed.

Lemma domain_char_spec (c : char) :
  is_letter_ci c || in_range 48 57 c || (c =? 46)%N || (c =? 45)%N = true
  <-> domain_char c.
Proof.
  unfold domain_char.
  rewrite !orb_true_iff, is_letter_ci_spec, in_range_spec, !N.eqb_eq. tauto.
Qed.

Lemma Forall_letter (s : str) :
  Forall (fun c => is_letter_ci c = true) s <-> Forall letter s.
Proof.
  split; intros H; eapply Forall_impl; try exact H; intros c;
    apply is_letter_ci_spec.
Qed.

(** ** Bare domains *)

Lemma at_end_free (s : str) : ~ In newline s -> at_end s = true -> s = [].
Proof.
  intros Hfree H. destruct (at_end_cases s H) as [-> | ->]; [reflexivity|].
  elim Hfree. now left.
Qed.

Lemma match_tld_spec (s : str) :
  ~ In newline s ->
  match_tld s = true <-> 2 <= length s /\ Forall letter s.
Proof.
  intros Hfree. unfold match_tld.
  pose proof (span_app is_letter_ci s) as Happ.
  pose proof (span_spec is_letter_ci s) as [Hfst _].
  split.
  - destruct (span is_letter_ci s) as [letters rest]. simpl in *.
    intros H. apply andb_true_iff in H. destruct H as [Hlen Hend].
    apply at_end_free in Hend.
    + subst rest. rewrite app_nil_r in Happ. subst letters.
      split; [now apply Nat.leb_le | now apply Forall_letter].
    + intros Hn. apply Hfree. rewrite Happ. apply in_or_app. now right.
  - intros [Hlen Hall]. rewrite (span_all is_letter_ci s).
    + apply andb_true_iff. split; [now apply Nat.leb_le | reflexivity].
    + now apply Forall_letter.
Qed.

Lemma bare_domain_spec (s : str) :
  ~ In newline s ->
  forall started,
    Search.bare_domain started s = true
    <-> exists name tld,
          s = name ++ 46%N :: tld
          /\ (started = true \/ name <> [])
          /\ Forall domain_char name
          /\ 2 <= length tld /\ Forall letter tld.
Proof.
  induction s as [|c s IH]; intros Hfree started.
  - simpl. split; [discriminate|].
    intros (name & tld & H & _). destruct name; discriminate.
  - assert (Hs : ~ In newline s) by (intros Hn; apply Hfree; now right).
    cbn [Search.bare_domain]. rewrite orb_true_iff, !andb_true_iff.
    rewrite domain_char_spec, (IH Hs true), (match_tld_spec s Hs), N.eqb_eq.
    split.
    + intros [[[-> ->] [Hlen Hall]] | [Hc (name & tld & -> & _ & Hname & Htld)]].
      * exists [], s. repeat split; auto.
      * exists (c :: name), tld. repeat split; auto; try tauto.
        right. discriminate.
    + intros (name & tld & E & Hstart & Hname & Hlen & Hall).
      destruct name as [|n name]; simpl in E; injection E as -> ->.
      * left. destruct Hstart as [-> | H]; [auto | now elim H].
      * right. inversion Hname as [|? ? Hn Hrest]; subst.
        split; [exact Hn|]. exists name, tld. repeat split; auto.
Qed.

Lemma bare_domain_line_spec (l : str) :
  ~ In newline l ->
  Search.bare_domain false l = true <-> bare_domain_line l.
Proof.
  intros Hfree. rewrite (bare_domain_spec l Hfree false). unfold bare_domain_line.
  split; intros (name & tld & E & H1 & H2 & H3 & H4); exists name, tld.
  - repeat split; auto. destruct H1 as [H1 | H1]; [discriminate | exact H1].
  - repeat split; auto.
Qed.

(** ** Lines that are passed over *)

Section WithUnicode.
Context {U : Unicode}.

Lemma is_noise_spec (l : str) :
  ~ In newline l -> is_noise l = true <-> skipped l.
Proof.
  intros Hfree. unfold is_noise.
  rewrite !orb_true_iff, !startswith_prefix, contains_occurs,
    (bare_domain_line_spec l Hfree), Nat.ltb_lt.
  split.
  - intros [[[[[[(rest & ->) | (rest & ->)] | (rest & ->)] | (rest & ->)]
               | (before & after & H)] | H] | H].
    + apply markdown_link.
    + apply bare_url.
    + apply image_markup.
    + apply bullet_marker.
    + now apply (feedback_text l before after).
    + now apply domain_line.
    + now apply short_line.
  - intros H. destruct H as [rest | rest | rest | rest | l before after H | l H | l H].
    + left. left. left. left. left. left. now exists rest.
    + left. left. left. left. left. right. now exists rest.
    + left. left. left. left. right. now exists rest.
    + left. left. left. right. now exists rest.
    + left. left. right. now exists before, after.
    + left. right. exact H.
    + right. exact H.
Qed.

Lemma not_skipped (l : str) :
  ~ In newline l -> is_noise l = false <-> ~ skipped l.
Proof.
  intros Hfree. rewrite <- (is_noise_spec l Hfree).
  destruct (is_noise l); split; intro H;
    [discriminate | exfalso; now apply H | discriminate | reflexivity].
Qed.

End WithUnicode.

(** ** Lines that end the scan *)

Lemma span_stop (p : char -> bool) (a : str) (c : char) (rest : str) :
  Forall (fun x => p x = true) a -> p c = false ->
  span p (a ++ c :: rest) = (a, c :: rest).
Proof.
  induction 1 as [|x a Hx Ha IH]; intros Hc; simpl.
  - now rewrite Hc.
  - now rewrite Hx, (IH Hc).
Qed.

Lemma match_link_complete (scheme target after : str) :
  scheme = lit "https://" \/ scheme = lit "http://" ->
  target <> [] -> ~ In 41%N target -> at_end after = true ->
  match_link (lit "](" ++ scheme ++ target ++ 41%N :: after)
  = Some (scheme ++ target).
Proof.
  intros Hscheme Hne Hfree Hend. unfold match_link.
  rewrite strip_prefix_app.
  assert (Hspan : span (fun c => negb (c =? 41)%N) (target ++ 41%N :: after)
                  = (target, 41%N :: after)).
  { apply span_stop; [|reflexivity].
    apply Forall_forall. intros x Hx.
    destruct (N.eqb_spec x 41) as [->|]; [contradiction|reflexivity]. }
  destruct Hscheme as [-> | ->].
  - rewrite (startswith_app (lit "https://")).
    change (skipn (length (lit "https://"))
              (lit "https://" ++ target ++ 41%N :: after))
      with (target ++ 41%N :: after).
    rewrite Hspan. destruct target; [now elim Hne|]. now rewrite Hend.
  - change (startswith (lit "https://")
              (lit "http://" ++ target ++ 41%N :: after)) with false.
    rewrite (startswith_app (lit "http://")).
    change (skipn (length (lit "http://"))
              (lit "http://" ++ target ++ 41%N :: after))
      with (target ++ 41%N :: after).
    rewrite Hspan. destruct target; [now elim Hne|]. now rewrite Hend.
Qed.

Lemma longest_title_complete (t rest u : str) :
  ~ In newline t -> match_link rest = Some u ->
  exists t' u', longest_title (t ++ rest) = Some (t', u')
                /\ length t <= length t'.
Proof.
  intros Hfree Hlink. induction t as [|c t IH].
  - simpl. destruct rest as [|c rest]; [discriminate|].
    cbn [longest_title].
    destruct (if (c =? newline)%N then None else longest_title rest)
      as [[t' u']|].
    + exists (c :: t'), u'. split; [reflexivity|simpl; lia].
    + rewrite Hlink. exists [], u. auto.
  - assert (Hc : (c =? newline)%N = false).
    { destruct (N.eqb_spec c newline) as [->|]; [|reflexivity].
      elim Hfree. now left. }
    destruct IH as (t' & u' & E & Hlen).
    { intros Hn. apply Hfree. now right. }
    exists (c :: t'), u'. simpl. rewrite Hc, E. split; [reflexivity|lia].
Qed.

(** A line without a newline is a header exactly when the pattern of the
    parser matches it. *)
Lemma header_spec (l : str) :
  ~ In newline l ->
  (exists t u, result_pattern l = Some (t, u)) <-> header l.
Proof.
  intros Hfree. split.
  - intros (t & u & H).
    destruct (result_pattern_shape _ _ _ H)
      as (scheme & body & after & Hsch & -> & Hbody & _ & E & Hend & Hne & Ht).
    assert (Hafter : after = []).
    { apply at_end_free; [|exact Hend]. intros Hn. apply Hfree. rewrite E.
      apply in_or_app. right. apply in_or_app. right. apply in_or_app. right.
      apply in_or_app. right. now right. }
    subst after. exists t, scheme, body.
    split; [rewrite E at 1; now rewrite <- app_assoc|].
    repeat split; auto.
    intros Hin. rewrite Forall_forall in Hbody. now apply (Hbody _ Hin).
  - intros (title & scheme & target & -> & Ht & Hsch & Hne & Hparen).
    destruct (longest_title_complete title
                (lit "](" ++ scheme ++ target ++ lit ")") (scheme ++ target))
      as (t' & u' & E & Hlen).
    + intros Hn. apply Hfree. apply in_or_app. right. apply in_or_app. now left.
    + now apply match_link_complete.
    + unfold result_pattern. rewrite strip_prefix_app, E.
      destruct t' as [|c t']; [|now exists (c :: t'), u'].
      destruct title; [now elim Ht|simpl in Hlen; lia].
Qed.

Lemma is_stop_spec (l : str) :
  ~ In newline l -> is_stop l = true <-> stops l.
Proof.
  intros Hfree. unfold is_stop. split.
  - destruct (result_pattern l) as [[t u]|] eqn:H.
    + intros _. apply next_header. apply header_spec; [exact Hfree|].
      now exists t, u.
    + intros Hs. apply startswith_prefix in Hs. destruct Hs as (rest & ->).
      apply section_heading.
  - intros H. revert Hfree. destruct H as [l' Hh | rest]; intros Hfree.
    + apply (header_spec l' Hfree) in Hh. destruct Hh as (t & u & ->).
      reflexivity.
    + destruct (result_pattern (lit "##" ++ rest)); [reflexivity|].
      apply startswith_app.
Qed.

Lemma not_stops (l : str) :
  ~ In newline l -> is_stop l = false <-> ~ stops l.
Proof.
  intros Hfree. rewrite <- (is_stop_spec l Hfree).
  destruct (is_stop l); split; intro H;
    [discriminate | exfalso; now apply H | discriminate | reflexivity].
Qed.

(** ** Emphasis markers *)

Lemma split_cons (sep c : char) (s : str) :
  exists piece pieces,
    split sep s = piece :: pieces
    /\ split sep (c :: s)
       = if (c =? sep)%N then [] :: piece :: pieces else (c :: piece) :: pieces.
Proof.
  assert (Hne : exists piece pieces, split sep s = piece :: pieces).
  { destruct s as [|a s]; simpl; [now exists [], []|].
    destruct (a =? sep)%N; [now eexists; eexists|].
    destruct (split sep s); now eexists; eexists. }
  destruct Hne as (piece & pieces & E). exists piece, pieces.
  split; [exact E|]. simpl. now rewrite E.
Qed.

Lemma unmark_cons (c : char) (p : str) (tail : list str) :
  unmark ((c :: p) :: tail) = c :: unmark (p :: tail).
Proof.
  destruct tail as [|q rest]; [reflexivity|].
  destruct q as [|x q]; [reflexivity|].
  destruct rest; reflexivity.
Qed.

Lemma unmark_closed (q : str) (tail : list str) (piece : str) :
  q <> [] ->
  unmark ([] :: q :: piece :: tail) = q ++ unmark (piece :: tail).
Proof. destruct q; [intros H; now elim H | reflexivity]. Qed.

(** The substitution of the parser removes the markers as [unmark] says. *)
Lemma sub_emphasis_unmark (s : str) :
  forall pending,
    sub_emphasis pending s
    = match pending, split 95%N s with
      | None, pieces => unmark pieces
      | Some r, piece :: pieces => unmark ([] :: (rev r ++ piece) :: pieces)
      | Some r, [] => []
      end.
Proof.
  induction s as [|c s IH]; intros pending.
  - destruct pending as [r|]; [|reflexivity].
    cbn [sub_emphasis split]. rewrite app_nil_r.
    destruct (rev r); reflexivity.
  - destruct (split_cons 95%N c s) as (piece & pieces & Es & Ec).
    rewrite Ec. cbn [sub_emphasis].
    destruct (c =? 95)%N eqn:Hc.
    + destruct pending as [[|a r]|].
      * rewrite (IH (Some [])), Es. reflexivity.
      * rewrite (IH None), Es.
        rewrite app_nil_r. symmetry. apply unmark_closed.
        simpl. destruct (rev r); discriminate.
      * rewrite (IH (Some [])), Es. reflexivity.
    + destruct pending as [r|].
      * rewrite (IH (Some (c :: r))), Es. simpl rev.
        now rewrite <- app_assoc.
      * rewrite (IH None), Es. symmetry. apply unmark_cons.
Qed.

Lemma sub_emphasis_In (x : char) (s : str) :
  forall pending,
    In x (sub_emphasis pending s) ->
    In x s \/ x = 95%N
    \/ match pending with Some r => In x r | None => False end.
Proof.
  induction s as [|c s IH]; intros pending; cbn [sub_emphasis].
  - destruct pending as [r|]; [|contradiction].
    intros [H | H]; [auto|]. right. right. now apply in_rev.
  - destruct pending as [r|].
    + destruct (c =? 95)%N.
      * destruct r as [|a r].
        -- intros [H | H]; [auto|].
           pose proof (IH _ H) as H'. simpl in *. tauto.
        -- intros H. apply in_app_or in H. destruct H as [H | H].
           ++ right. right. now apply in_rev.
           ++ pose proof (IH _ H) as H'. simpl in *. tauto.
      * intros H. pose proof (IH _ H) as H'. simpl in *. tauto.
    + destruct (c =? 95)%N.
      * intros H. pose proof (IH _ H) as H'. simpl in *. tauto.
      * intros [H | H]; [simpl; auto|].
        pose proof (IH _ H) as H'. simpl in *. tauto.
Qed.

(** ** The read-more link *)

Lemma cut_from_spec (mark s : str) :
  ~ In newline s ->
  sub_to_end (strip_prefix mark) s = cut_from mark s.
Proof.
  induction s as [|c s IH]; intros Hfree.
  - destruct mark; reflexivity.
  - assert (Hs : ~ In newline s) by (intros Hn; apply Hfree; now right).
    cbn [sub_to_end cut_from]. unfold strip_prefix at 1.
    destruct (startswith mark (c :: s)) eqn:Hm.
    + rewrite dot_star_end_free; [reflexivity|].
      intros Hn. apply Hfree.
      apply startswith_inv in Hm. rewrite Hm. apply in_or_app. now right.
    + now rewrite (IH Hs).
Qed.

(** ** The date stamp *)

Section WithUnicode.
Context {U : Unicode}.
Hypothesis comma_is_no_digit : is_decimal 44%N = false.

Lemma sub_date_stamp (d rest : str) :
  date_stamp d -> sub_date (d ++ rest) = rest.
Proof.
  intros (m1 & m2 & m3 & day & y1 & y2 & y3 & y4 & -> & H1 & H2 & H3
          & Hlen & Hday & Hyear).
  apply in_range_spec in H1, H2, H3.
  inversion Hyear as [|? ? Hy1 Hyear1]; subst.
  inversion Hyear1 as [|? ? Hy2 Hyear2]; subst.
  inversion Hyear2 as [|? ? Hy3 Hyear3]; subst.
  inversion Hyear3 as [|? ? Hy4 _]; subst.
  destruct day as [|d1 [|d2 [|d3 day]]]; simpl in Hlen; try lia.
  - inversion Hday as [|? ? Hd1 _]; subst.
    simpl. rewrite H1, H2, H3, Hd1, comma_is_no_digit, Hy1, Hy2, Hy3, Hy4.
    reflexivity.
  - inversion Hday as [|? ? Hd1 Hday1]; subst.
    inversion Hday1 as [|? ? Hd2 _]; subst.
    simpl. rewrite H1, H2, H3, Hd1, Hd2, Hy1, Hy2, Hy3, Hy4.
    reflexivity.
Qed.

Lemma sub_date_cases (s : str) :
  sub_date s = s \/ exists d, date_stamp d /\ s = d ++ sub_date s.
Proof.
  unfold sub_date.
  destruct s as [|m1 [|m2 [|m3 [|sp [|d1 after]]]]]; try (left; reflexivity).
  destruct (in_range 65 90 m1 && in_range 97 122 m2 && in_range 97 122 m3
            && (sp =? 32)%N && is_decimal d1) eqn:Hmonth;
    [|left; reflexivity].
  do 4 (apply andb_true_iff in Hmonth; destruct Hmonth as [Hmonth ?]).
  apply in_range_spec in Hmonth.
  repeat match goal with
         | H : in_range _ _ _ = true |- _ => apply in_range_spec in H
         | H : (_ =? _)%N = true |- _ => apply N.eqb_eq in H; subst
         end.
  destruct after as [|d2 after]; [left; reflexivity|].
  destruct (is_decimal d2) eqn:Hd2.
  - destruct after as [|c [|s1 [|y1 [|y2 [|y3 [|y4 [|s2 [|dash [|s3 rest]]]]]]]]];
      try (left; reflexivity).
    destruct ((c =? 44)%N && (s1 =? 32)%N
              && is_decimal y1 && is_decimal y2 && is_decimal y3 && is_decimal y4
              && (s2 =? 32)%N && (dash =? 8212)%N && (s3 =? 32)%N) eqn:Hyear;
      [|left; reflexivity].
    do 8 (apply andb_true_iff in Hyear; destruct Hyear as [Hyear ?]).
    apply N.eqb_eq in Hyear.
    repeat match goal with
           | H : (_ =? _)%N = true |- _ => apply N.eqb_eq in H
           end.
    subst. right.
    exists [m1; m2; m3; 32; d1; d2; 44; 32; y1; y2; y3; y4; 32; 8212; 32]%N.
    split; [|reflexivity].
    exists m1, m2, m3, [d1; d2], y1, y2, y3, y4.
    repeat split; auto; simpl; try lia; repeat constructor; auto.
  - destruct after as [|s1 [|y1 [|y2 [|y3 [|y4 [|s2 [|dash [|s3 rest]]]]]]]];
      try (left; reflexivity).
    destruct ((d2 =? 44)%N && (s1 =? 32)%N
              && is_decimal y1 && is_decimal y2 && is_decimal y3 && is_decimal y4
              && (s2 =? 32)%N && (dash =? 8212)%N && (s3 =? 32)%N) eqn:Hyear;
      [|left; reflexivity].
    do 8 (apply andb_true_iff in Hyear; destruct Hyear as [Hyear ?]).
    apply N.eqb_eq in Hyear.
    repeat match goal with
           | H : (_ =? _)%N = true |- _ => apply N.eqb_eq in H
           end.
    subst. right.
    exists [m1; m2; m3; 32; d1; 44; 32; y1; y2; y3; y4; 32; 8212; 32]%N.
    split; [|reflexivity].
    exists m1, m2, m3, [d1], y1, y2, y3, y4.
    repeat split; auto; simpl; try lia; repeat constructor; auto.
Qed.

Lemma date_stamp_length (d : str) : date_stamp d -> 14 <= length d.
Proof.
  intros (m1 & m2 & m3 & day & y1 & y2 & y3 & y4 & -> & _ & _ & _ & Hlen & _).
  simpl. rewrite length_app. simpl. lia.
Qed.

(** Under the hypothesis the parser and the specification remove the same
    date stamp. *)
Lemma undated_spec (s s' : str) : undated s s' <-> s' = sub_date s.
Proof.
  unfold undated. split.
  - intros [(d & Hd & ->) | [-> Hnone]].
    + symmetry. now apply sub_date_stamp.
    + destruct (sub_date_cases s) as [E | (d & Hd & E)]; [now rewrite E|].
      elim (Hnone d (sub_date s) Hd E).
  - intros ->. destruct (sub_date_cases s) as [E | (d & Hd & E)].
    + right. split; [exact E|]. intros d rest Hd Hs.
      pose proof (sub_date_stamp d rest Hd) as Hr. rewrite <- Hs, E in Hr.
      pose proof (date_stamp_length d Hd) as Hlen.
      apply (f_equal (@length char)) in Hs. rewrite length_app, <- Hr in Hs. lia.
    + left. now exists d.
Qed.

(** ** The clean-up of a candidate *)

Lemma cleaned_from_spec (l c : str) :
  ~ In newline l -> cleaned_from l c <-> c = clean_description l.
Proof.
  intros Hfree. unfold cleaned_from, clean_description. cbv zeta.
  assert (Hmarks : sub_emphasis None l = unmark (split 95%N l))
    by apply (sub_emphasis_unmark l None).
  assert (Hcut : sub_to_end (strip_prefix (lit "[Read more]")) (sub_emphasis None l)
                 = cut_from (lit "[Read more]") (unmark (split 95%N l))).
  { rewrite <- Hmarks. apply cut_from_spec. intros Hn.
    destruct (sub_emphasis_In _ _ _ Hn) as [H | [H | H]];
      [contradiction | discriminate | contradiction]. }
  rewrite Hcut. split.
  - intros (dated & Hd & ->). apply undated_spec in Hd. now rewrite Hd.
  - intros ->. eexists. split; [apply undated_spec|]; reflexivity.
Qed.

(** ** The scan *)

Lemma described_spec (window : list str) (d : str) :
  Forall (fun l => ~ In newline l) window ->
  described window d <-> d = first_description window.
Proof.
  intros Hfree. split.
  - intros H. induction H as [|l w Hstop|l w d Hstop Hskip Hrest IH
                              |l w c d Hstop Hskip Hclean Hlen Hrest IH
                              |l w c Hstop Hskip Hclean Hlen];
      try reflexivity; rewrite first_description_cons;
      inversion Hfree as [|? ? Hl Hw]; subst;
      assert (Hs : ~ In newline (strip l))
        by (intros Hn; apply Hl; now apply strip_In).
    + apply is_stop_spec in Hstop; [|exact Hs]. now rewrite Hstop.
    + apply not_stops in Hstop; [|exact Hs].
      apply is_noise_spec in Hskip; [|exact Hs].
      rewrite Hstop, Hskip. now apply IH.
    + apply not_stops in Hstop; [|exact Hs].
      apply not_skipped in Hskip; [|exact Hs].
      apply cleaned_from_spec in Hclean; [|exact Hs].
      rewrite Hstop, Hskip, <- Hclean.
      apply Nat.ltb_ge in Hlen. rewrite Hlen. now apply IH.
    + apply not_stops in Hstop; [|exact Hs].
      apply not_skipped in Hskip; [|exact Hs].
      apply cleaned_from_spec in Hclean; [|exact Hs].
      rewrite Hstop, Hskip, <- Hclean.
      apply Nat.ltb_lt in Hlen. now rewrite Hlen.
  - intros ->. induction Hfree as [|l w Hl Hw IH]; [apply nothing_left|].
    assert (Hs : ~ In newline (strip l))
      by (intros Hn; apply Hl; now apply strip_In).
    rewrite first_description_cons.
    destruct (is_stop (strip l)) eqn:Hstop.
    { apply stop_here. now apply is_stop_spec. }
    apply not_stops in Hstop; [|exact Hs].
    destruct (is_noise (strip l)) eqn:Hskip.
    { apply pass_over; [exact Hstop | now apply is_noise_spec | exact IH]. }
    apply not_skipped in Hskip; [|exact Hs].
    assert (Hclean : cleaned_from (strip l) (clean_description (strip l)))
      by now apply cleaned_from_spec.
    destruct (30 <? length (clean_description (strip l))) eqn:Hlen.
    + apply (accept l w _ Hstop Hskip Hclean). now apply Nat.ltb_lt.
    + apply (too_short l w _ _ Hstop Hskip Hclean); [|exact IH].
      now apply Nat.ltb_ge.
Qed.

(** The reading of the claim decides for one description at most. *)
Lemma first_candidate_unique (window : list str) (d1 d2 : str) :
  Forall (fun l => ~ In newline l) window ->
  first_candidate_described window d1 ->
  first_candidate_described window d2 ->
  d1 = d2.
Proof.
  intros Hfree H1. revert d2.
  induction H1 as [|l w Hstop|l w d Hstop Hskip Hrest IH
                   |l w c Hstop Hskip Hclean Hlen
                   |l w c Hstop Hskip Hclean Hlen];
    intros d2 H2; inversion H2; subst; try reflexivity; try contradiction;
    inversion Hfree as [|? ? Hl Hw]; subst;
    assert (Hs : ~ In newline (strip l))
      by (intros Hn; apply Hl; now apply strip_In).
  - now apply IH.
  - match goal with
    | H : cleaned_from (strip l) ?c' |- _ =>
        apply cleaned_from_spec in H; [|exact Hs];
        apply cleaned_from_spec in Hclean; [|exact Hs]; subst; lia
    end.
  - match goal with
    | H : cleaned_from (strip l) ?c' |- _ =>
        apply cleaned_from_spec in H; [|exact Hs];
        apply cleaned_from_spec in Hclean; [|exact Hs]; subst; lia
    end.
  - match goal with
    | H : cleaned_from (strip l) ?c' |- _ =>
        apply cleaned_from_spec in H; [|exact Hs];
        apply cleaned_from_spec in Hclean; [|exact Hs]; now subst
    end.
Qed.

End WithUnicode.

(** ** The description of a result *)

Lemma window_free (content : str) (i : nat) :
  Forall (fun l => ~ In newline l)
    (firstn 9 (skipn (i + 1) (split newline content))).
Proof.
  apply Forall_forall. intros l Hl.
  apply (split_In_free newline content).
  rewrite <- (firstn_skipn (i + 1) (split newline content)).
  apply in_or_app. right.
  rewrite <- (firstn_skipn 9 (skipn (i + 1) (split newline content))).
  apply in_or_app. now left.
Qed.

(** C9 (as the code has it). The description of a result is looked for in
    the 9 lines after its header, or in those that the page still has. Each
    line is stripped. The scan ends without a description at a result header
    and at a section heading. It passes over markdown links, bare URLs,
    image markup, bullet markers, feedback text, bare domains and lines of
    fewer than 30 characters. Every other line is a candidate: its emphasis
    markers, a trailing read-more link and a leading date stamp are removed,
    and the first candidate whose cleaned text has more than 30 characters
    is the description; a candidate with a shorter cleaned text is passed
    over and the scan goes on. When no candidate is accepted the description
    is empty. The comma is no digit, as in every Unicode table. *)
Theorem description_is_first_acceptable_line {U : Unicode} (content : str)
  (r : result) :
  is_decimal 44%N = false ->
  In r (parse_results content) ->
  exists i raw_title raw_url,
    i < length (split newline content)
    /\ header (nth i (split newline content) [])
    /\ result_pattern (nth i (split newline content) []) = Some (raw_title, raw_url)
    /\ title r = clean_title raw_title
    /\ url r = clean_url raw_url
    /\ described (firstn 9 (skipn (i + 1) (split newline content)))
         (description r)
    /\ (forall d,
          described (firstn 9 (skipn (i + 1) (split newline content))) d ->
          d = description r)
    /\ (description r = [] \/ 30 < length (description r)).
Proof.
  intros Hcomma Hr. destruct (parse_results_accepted content) as [_ Hacc].
  rewrite Forall_forall in Hacc.
  destruct (Hacc r Hr)
    as (i & raw_title & raw_url & Hi & Hhead & _ & Htitle & _ & Hurl & Hdesc).
  exists i, raw_title, raw_url.
  split; [exact Hi|].
  split.
  { apply header_spec; [apply nth_line_free | now exists raw_title, raw_url]. }
  split; [exact Hhead|]. split; [exact Htitle|]. split; [exact Hurl|].
  rewrite find_description_window in Hdesc.
  pose proof (window_free content i) as Hfree.
  split; [apply (described_spec Hcomma _ _ Hfree); exact Hdesc|].
  split.
  - intros d Hd. apply (described_spec Hcomma _ _ Hfree) in Hd. congruence.
  - rewrite Hdesc. unfold first_description.
    destruct (find _ _) as [d|] eqn:Hfind; [|now left].
    apply find_some in Hfind as [_ Hlen]. right. now apply Nat.ltb_lt.
Qed.

Lemma description_is_first_acceptable_line_witness :
  exists i raw_title raw_url,
    i < length (split newline example_page)
    /\ header (nth i (split newline example_page) [])
    /\ result_pattern (nth i (split newline example_page) [])
       = Some (raw_title, raw_url)
    /\ title example_result = clean_title raw_title
    /\ url example_result = clean_url raw_url
    /\ described (U := basic_latin)
         (firstn 9 (skipn (i + 1) (split newline example_page)))
         (description example_result)
    /\ (forall d,
          described (U := basic_latin)
            (firstn 9 (skipn (i + 1) (split newline example_page))) d ->
          d = description example_result)
    /\ (description example_result = []
        \/ 30 < length (description example_result)).
Proof.
  apply (description_is_first_acceptable_line (U := basic_latin) example_page
           example_result).
  - reflexivity.
  - vm_compute. left. reflexivity.
Defined.

(** C9, as stated, fails: the claim lets the first candidate decide. In
    the example page the line after the header is a bare domain and is
    passed over; the next line is the first candidate, and its cleaned text
    has 30 characters, so that by the words of the claim the result has no
    description. The parser goes on and takes the line after it. *)
Lemma later_candidate_is_described :
  In example_result (parse_results (U := basic_latin) example_page)
  /\ description example_result
     = lit "A description that is long enough to be accepted here."
  /\ first_candidate_described (U := basic_latin)
       (firstn 9 (skipn 1 (split newline example_page))) []
  /\ ~ first_candidate_described (U := basic_latin)
         (firstn 9 (skipn 1 (split newline example_page)))
         (description example_result).
Proof.
  assert (Hcomma : is_decimal (Unicode := basic_latin) 44%N = false)
    by reflexivity.
  assert (Hfree : forall l : str, forallb (fun c => negb (c =? newline)%N) l = true ->
                                  ~ In newline l).
  { intros l Hl Hn. rewrite forallb_forall in Hl. specialize (Hl _ Hn).
    unfold newline in Hl. discriminate. }
  assert (Hfirst : first_candidate_described (U := basic_latin)
                     (firstn 9 (skipn 1 (split newline example_page))) []).
  { change (firstn 9 (skipn 1 (split newline example_page)))
      with [lit "example.com";
            lit "_aaaaaaaaaaaaaaaaaaaaaaaaaaaaaa_";
            lit "A description that is long enough to be accepted here.";
            lit "## Next";
            lit "[### Again](https://example.com/page#other)";
            lit "[### Maps](https://maps.google.com/x)"].
    apply fc_pass_over.
    - apply not_stops; [now apply Hfree | reflexivity].
    - apply is_noise_spec; [now apply Hfree | reflexivity].
    - apply (fc_reject _ _
               (clean_description (U := basic_latin)
                  (strip (lit "_aaaaaaaaaaaaaaaaaaaaaaaaaaaaaa_")))).
      + apply not_stops; [now apply Hfree | reflexivity].
      + apply not_skipped; [now apply Hfree | reflexivity].
      + apply (cleaned_from_spec Hcomma); [now apply Hfree | reflexivity].
      + vm_compute. lia. }
  split; [vm_compute; left; reflexivity|].
  split; [reflexivity|].
  split; [exact Hfirst|].
  intros H.
  pose proof (first_candidate_unique Hcomma _ _ _ (window_free example_page 0)
                Hfirst H) as E.
  discriminate.
Qed.

(** ** Filtered URLs *)

Lemma search_image_ext_app (stem s : str) :
  search_image_ext s = true -> search_image_ext (stem ++ s) = true.
Proof.
  intros H. induction stem as [|c stem IH]; [exact H|].
  change ((c :: stem) ++ s) with (c :: stem ++ s).
  cbn [search_image_ext]. rewrite IH. apply orb_true_r.
Qed.

Lemma folds_to_ascii (letter c : char) :
  ascii_lower c = letter -> (97 <= letter <= 122)%N -> folds_to letter c = true.
Proof.
  intros E Hl. revert E. unfold ascii_lower, folds_to.
  destruct (in_range 65 90 c) eqn:Hc.
  - intros <-. replace (c + 32 - 32)%N with c by lia.
    rewrite N.eqb_refl. now rewrite orb_true_r.
  - intros ->. now rewrite N.eqb_refl.
Qed.

(** A text that ends in a dot and [png], [jpg], [gif] or [svg], in small
    or capital ASCII letters, matches the image pattern. *)
Lemma image_suffix_matches (stem ext : str) :
  In (map ascii_lower ext) [lit "png"; lit "jpg"; lit "gif"; lit "svg"] ->
  search_image_ext (stem ++ lit "." ++ ext) = true.
Proof.
  intros Hext. apply search_image_ext_app.
  destruct ext as [|a [|b [|c [|x ext]]]];
    try (simpl in Hext; repeat (destruct Hext as [Hext | Hext]; [discriminate|]);
         contradiction).
  simpl in Hext.
  assert (Himg : is_image_ext a b c = true).
  { unfold is_image_ext.
    destruct Hext as [H | [H | [H | [H | []]]]]; injection H as Ha Hb Hc;
      symmetry in Ha, Hb, Hc;
      (apply folds_to_ascii in Ha; [|lia]);
      (apply folds_to_ascii in Hb; [|lia]);
      (apply folds_to_ascii in Hc; [|lia]);
      rewrite Ha, Hb, Hc; simpl; rewrite ?orb_true_r; reflexivity. }
  simpl. now rewrite Himg.
Qed.

Section WithUnicode.
Context {U : Unicode}.

(** X24. The results are distinct by URL, and each comes from a header of
    the page that the filter let pass: its line is [[### title](url)], the
    result has the cleaned title, which is not empty, and the URL without
    query string and fragment; the URL of the header contains no filtered
    domain, does not start with [blob:] and does not end in [.png], [.jpg],
    [.gif] or [.svg]; the URL of the result contains no filtered domain
    either and does not start with [blob:]. *)
Theorem results_come_from_unfiltered_headers (content : str) :
  NoDup (map url (parse_results content))
  /\ forall r,
       In r (parse_results content) ->
       title r <> []
       /\ (forall domain, In domain FILTER_DOMAINS -> contains domain (url r) = false)
       /\ startswith (lit "blob:") (url r) = false
       /\ exists i raw_title raw_url,
            i < length (split newline content)
            /\ nth i (split newline content) []
               = lit "[### " ++ raw_title ++ lit "](" ++ raw_url ++ lit ")"
            /\ result_pattern (nth i (split newline content) [])
               = Some (raw_title, raw_url)
            /\ title r = clean_title raw_title
            /\ url r = clean_url raw_url
            /\ (forall domain,
                  In domain FILTER_DOMAINS -> contains domain raw_url = false)
            /\ startswith (lit "blob:") raw_url = false
            /\ (forall stem ext,
                  In (map ascii_lower ext)
                    [lit "png"; lit "jpg"; lit "gif"; lit "svg"] ->
                  raw_url <> stem ++ lit "." ++ ext).
Proof.
  destruct (parse_results_accepted content) as [Hnodup Hacc].
  split; [exact Hnodup|]. intros r Hr.
  rewrite Forall_forall in Hacc.
  destruct (Hacc r Hr)
    as (i & raw_title & raw_url & Hi & Hhead & Hfilter & Ht & Htitle & Hurl & _).
  destruct (result_pattern_http _ _ _ Hhead) as (rest & Hhttp).
  unfold should_filter in Hfilter.
  apply orb_false_elim in Hfilter as [Hfilter Himage].
  apply orb_false_elim in Hfilter as [Hdomains Hblob].
  assert (Hraw : forall domain,
            In domain FILTER_DOMAINS -> contains domain raw_url = false).
  { intros domain Hin. destruct (contains domain raw_url) eqn:Hc; [|reflexivity].
    rewrite <- Hdomains. symmetry. apply existsb_exists. now exists domain. }
  split; [exact Htitle|]. split; [|split].
  - intros domain Hin. destruct (contains domain (url r)) eqn:Hc; [|reflexivity].
    rewrite Hurl in Hc. apply contains_clean_url in Hc.
    + now rewrite (Hraw domain Hin) in Hc.
    + destruct Hin as [<- | [<- | [<- | [<- | [<- | []]]]]]; discriminate.
    + intros Hnl.
      destruct Hin as [<- | [<- | [<- | [<- | [<- | []]]]]];
        vm_compute in Hnl; repeat (destruct Hnl as [Hnl | Hnl]; [discriminate|]);
        exact Hnl.
  - rewrite Hurl, Hhttp. reflexivity.
  - exists i, raw_title, raw_url.
    split; [exact Hi|]. split.
    { destruct (result_pattern_shape _ _ _ Hhead)
        as (scheme & body & after & _ & _ & _ & _ & E & Hend & _).
      assert (Hafter : after = []).
      { apply at_end_free; [|exact Hend]. intros Hn.
        apply (nth_line_free content i). rewrite E.
        apply in_or_app. right. apply in_or_app. right. apply in_or_app. right.
        apply in_or_app. right. now right. }
      now rewrite E, Hafter. }
    split; [exact Hhead|]. split; [exact Ht|]. split; [exact Hurl|].
    split; [exact Hraw|]. split; [exact Hblob|].
    intros stem ext Hext E.
    rewrite E, (image_suffix_matches stem ext Hext) in Himage. discriminate.
Qed.

End WithUnicode.

Lemma results_come_from_unfiltered_headers_witness :
  NoDup (map url (parse_results (U := basic_latin) example_page))
  /\ parse_results (U := basic_latin) example_page = [example_result]
  /\ exists i raw_title raw_url,
       i < length (split newline example_page)
       /\ nth i (split newline example_page) []
          = lit "[### " ++ raw_title ++ lit "](" ++ raw_url ++ lit ")"
       /\ title example_result = clean_title raw_title
       /\ url example_result = clean_url raw_url
       /\ startswith (lit "blob:") raw_url = false.
Proof.
  destruct (results_come_from_unfiltered_headers (U := basic_latin) example_page)
    as [Hnodup Hresults].
  split; [exact Hnodup|]. split; [reflexivity|].
  destruct (Hresults example_result ltac:(vm_compute; left; reflexivity))
    as (_ & _ & _ & i & raw_title & raw_url & Hi & Hline & _ & Ht & Hu & _ & Hb & _).
  exists i, raw_title, raw_url. auto.
Defined.

(** C4: a picture URL with a query string is reported. The filter reads
    the URL of the header, where the query string hides the suffix from the
    image pattern; the result carries the URL without the query string,
    which matches the pattern and which the filter itself rejects. The same
    header without the query string gives no result. *)
Lemma image_url_with_query_is_reported :
  parse_results (U := basic_latin) picture_page
  = [{| title := lit "Pic";
        url := lit "https://example.com/a.png";
        description := [] |}]
  /\ should_filter (lit "https://example.com/a.png?x=1") = false
  /\ search_image_ext (lit "https://example.com/a.png") = true
  /\ should_filter (lit "https://example.com/a.png") = true
  /\ parse_results (U := basic_latin) (lit "[### Pic](https://example.com/a.png)")
     = [].
Proof. repeat split; vm_compute; reflexivity. Qed.

End SearchSpecFacts.
